(** * Hotones ECS core: entity handles, sparse-set component pools, registry

    A shallow embedding of [ECS/Entity.hpp], [ECS/ComponentPool.hpp] and
    [ECS/Registry.hpp].  Unsigned 32-bit values are integers in [Z] with the
    wrap-around written out ([u32]); a [std::vector] is a list addressed
    through [!!] and [<[_:=_]>]; an access outside a vector, which is
    undefined behaviour in C++, and a failing [assert] are results of their
    own ([Fault]). *)

From stdpp Require Import base numbers list.

Local Open Scope Z_scope.

(** ** Outcome of an operation *)

Inductive fault : Set :=
  | OutOfBounds      (* vector access outside its bounds *)
  | EmplaceOwned     (* assert in ComponentPool::Emplace *)
  | GetAbsent        (* assert in ComponentPool::Get *)
  | EntityNotAlive.   (* assert(IsAlive(id)) in Registry::AddComponent *)

Inductive result (A : Type) : Type :=
  | Ok (a : A)
  | Fault (f : fault).
Arguments Ok {A} a.
Arguments Fault {A} f.

#[global] Instance result_ret : MRet result := fun A a => Ok a.
#[global] Instance result_bind : MBind result := fun A B k r =>
  match r with Ok a => k a | Fault f => Fault f end.

(** ** Machine integers and vectors *)

Definition u32 (x : Z) : Z := x mod 2 ^ 32.

Definition vsize {A} (v : list A) : Z := Z.of_nat (length v).

(** [v[i]] read *)
Definition vec_at {A} (v : list A) (i : Z) : result A :=
  if decide (0 ≤ i) then
    match v !! Z.to_nat i with Some x => Ok x | None => Fault OutOfBounds end
  else Fault OutOfBounds.

(** [v[i] = x] *)
Definition vec_set {A} (v : list A) (i : Z) (x : A) : result (list A) :=
  if decide (0 ≤ i < vsize v) then Ok (<[Z.to_nat i := x]> v)
  else Fault OutOfBounds.

(** [v.pop_back()] *)
Definition pop_back {A} (v : list A) : result (list A) :=
  match v with
  | [] => Fault OutOfBounds
  | _ => Ok (take (length v - 1)%nat v)
  end.

(** ** Entity.hpp *)

Module Entity.

Definition EntityId := Z.

Definition INDEX_BITS : Z := 20.
Definition GEN_BITS : Z := 12.
Definition INDEX_MASK : Z := u32 (u32 (Z.shiftl 1 INDEX_BITS) - 1).
Definition GEN_MASK : Z := u32 (u32 (Z.shiftl 1 GEN_BITS) - 1).
Definition INVALID_ENTITY : EntityId := 2 ^ 32 - 1.

Definition EntityIndex (id : EntityId) : Z := Z.land id INDEX_MASK.

Definition EntityGeneration (id : EntityId) : Z :=
  Z.land (Z.shiftr id INDEX_BITS) GEN_MASK.

Definition MakeEntity (idx gen : Z) : EntityId :=
  Z.lor (u32 (Z.shiftl (Z.land gen GEN_MASK) INDEX_BITS)) (Z.land idx INDEX_MASK).

End Entity.
Export Entity.

(** ** ComponentPool.hpp *)

Module Pool.
Section WithPayload.
Context {T : Type}.

Record ComponentPool : Type := mkPool {
  m_sparse : list Z;   (* sparse[entityIdx] -> denseIdx or EMPTY *)
  m_dense  : list Z;   (* dense[i] -> entityIdx *)
  m_data   : list T    (* data[i]  -> component for dense[i] *)
}.

Definition EMPTY : Z := 4294967295.

Definition empty : ComponentPool := mkPool [] [] [].

Definition Size (p : ComponentPool) : Z := vsize (m_dense p).

Definition EntityIndices (p : ComponentPool) : list Z := m_dense p.

(** [entityIdx] is unsigned in the source; the test [0 ≤ entityIdx] only
    makes the function total on [Z]. *)
Definition Has (p : ComponentPool) (entityIdx : Z) : bool :=
  bool_decide (0 ≤ entityIdx < vsize (m_sparse p))
  && match m_sparse p !! Z.to_nat entityIdx with
     | Some d => negb (d =? EMPTY)
     | None => false
     end.

Definition Remove (p : ComponentPool) (entityIdx : Z) : result ComponentPool :=
  if negb (Has p entityIdx) then Ok p else
  denseIdx ← vec_at (m_sparse p) entityIdx;
  let last := u32 (u32 (vsize (m_dense p)) - 1) in
  '(dense1, data1, sparse1) ←
    (if decide (denseIdx ≠ last) then
       lastEntityIdx ← vec_at (m_dense p) last;
       dense1 ← vec_set (m_dense p) denseIdx lastEntityIdx;
       moved ← vec_at (m_data p) last;
       data1 ← vec_set (m_data p) denseIdx moved;
       sparse1 ← vec_set (m_sparse p) lastEntityIdx denseIdx;
       Ok (dense1, data1, sparse1)
     else Ok (m_dense p, m_data p, m_sparse p));
  dense2 ← pop_back dense1;
  data2 ← pop_back data1;
  sparse2 ← vec_set sparse1 entityIdx EMPTY;
  Ok (mkPool sparse2 dense2 data2).

Definition Clear (p : ComponentPool) : ComponentPool := mkPool [] [] [].

Definition Emplace (p : ComponentPool) (entityIdx : Z) (v : T) : result ComponentPool :=
  let sparse1 :=
    if decide (vsize (m_sparse p) ≤ entityIdx)
    then resize (Z.to_nat (u32 (entityIdx + 1))) EMPTY (m_sparse p)
    else m_sparse p in
  if Has (mkPool sparse1 (m_dense p) (m_data p)) entityIdx then Fault EmplaceOwned else
  let denseIdx := u32 (vsize (m_dense p)) in
  sparse2 ← vec_set sparse1 entityIdx denseIdx;
  Ok (mkPool sparse2 (m_dense p ++ [entityIdx]) (m_data p ++ [v])).

Definition Get (p : ComponentPool) (entityIdx : Z) : result T :=
  if Has p entityIdx then
    d ← vec_at (m_sparse p) entityIdx;
    vec_at (m_data p) d
  else Fault GetAbsent.

(** A call on the pool, and the run of a sequence of calls. *)
Inductive PoolOp : Type :=
  | OpEmplace (entityIdx : Z) (v : T)
  | OpRemove (entityIdx : Z).

Definition apply_op (p : ComponentPool) (op : PoolOp) : result ComponentPool :=
  match op with
  | OpEmplace i v => Emplace p i v
  | OpRemove i => Remove p i
  end.

Fixpoint run_ops (p : ComponentPool) (ops : list PoolOp) : result ComponentPool :=
  match ops with
  | [] => Ok p
  | op :: rest => p' ← apply_op p op; run_ops p' rest
  end.

(** [Components()]: the dense component array. *)
Definition Components (p : ComponentPool) : list T := m_data p.

(** The pools that calls of [Emplace] and [Remove] make of an empty one. *)
Definition built (p : ComponentPool) : Prop :=
  ∃ ops : list PoolOp, run_ops empty ops = Ok p.

(** *** Representation invariant

    [WF] is what every pool built by [Emplace] and [Remove] satisfies: the
    sparse and the dense array are inverse to each other, and the sparse
    array is short enough for a dense position never to collide with
    [EMPTY]. *)
Definition WF (p : ComponentPool) : Prop :=
  length (m_dense p) = length (m_data p)
  ∧ vsize (m_sparse p) ≤ EMPTY
  ∧ (∀ (i : nat) (e : Z), m_dense p !! i = Some e →
       0 ≤ e ∧ m_sparse p !! Z.to_nat e = Some (Z.of_nat i))
  ∧ (∀ (e : nat) (d : Z), m_sparse p !! e = Some d → d ≠ EMPTY →
       0 ≤ d ∧ m_dense p !! Z.to_nat d = Some (Z.of_nat e)).

(** The density property: [sparse[dense[i]] == i] below [Size()], and
    [dense] and [data] are as long as [Size()] says. *)
Definition density (p : ComponentPool) : Prop :=
  (∀ i : Z, 0 ≤ i < Size p →
     ∃ e, vec_at (m_dense p) i = Ok e ∧ vec_at (m_sparse p) e = Ok i)
  ∧ vsize (m_dense p) = Size p
  ∧ vsize (m_data p) = Size p.

(** What a caller owes: arguments are [uint32_t] values, and [Emplace] is
    called on an index the pool does not hold.  The one value left out is
    [0xFFFFFFFF], for which the [entityIdx + 1] of [Emplace] wraps to 0 and
    the write to [m_sparse] is out of bounds. *)
Definition legal (p : ComponentPool) (op : PoolOp) : Prop :=
  match op with
  | OpEmplace i _ => 0 ≤ i < EMPTY ∧ Has p i = false
  | OpRemove i => 0 ≤ i < 2 ^ 32
  end.

Fixpoint legal_seq (p : ComponentPool) (ops : list PoolOp) : Prop :=
  match ops with
  | [] => True
  | op :: rest => legal p op ∧ ∀ p', apply_op p op = Ok p' → legal_seq p' rest
  end.

End WithPayload.
Arguments ComponentPool : clear implicits.
Arguments PoolOp : clear implicits.
End Pool.

(** ** Registry.hpp *)

Module Registry.
Import Pool.
Section WithPayload.
Context {T : Type}.

(** [std::type_index] of a component type.  Every pool stores payloads of
    the one type [T]; no statement below depends on a payload. *)
Definition TypeKey := nat.

Record Registry : Type := mkRegistry {
  m_alive       : list EntityId;                     (* all live EntityIds *)
  m_generations : list Z;                            (* generations[entityIndex] *)
  m_freeList    : list Z;                            (* queue, front first *)
  m_pools       : list (TypeKey * ComponentPool T)   (* one pool per component type *)
}.

Definition empty : Registry := mkRegistry [] [] [] [].

(** [m_pools.find(key)] *)
Fixpoint pool_find (key : TypeKey) (ps : list (TypeKey * ComponentPool T))
    : option (ComponentPool T) :=
  match ps with
  | [] => None
  | (k, p) :: rest => if decide (k = key) then Some p else pool_find key rest
  end.

(** A write through the pointer to the pool stored under [key]. *)
Fixpoint pool_store (key : TypeKey) (p : ComponentPool T)
    (ps : list (TypeKey * ComponentPool T)) : list (TypeKey * ComponentPool T) :=
  match ps with
  | [] => []
  | (k, q) :: rest =>
      if decide (k = key) then (k, p) :: rest else (k, q) :: pool_store key p rest
  end.

Definition PoolPtr (key : TypeKey) (r : Registry) : option (ComponentPool T) :=
  pool_find key (m_pools r).

(** [Pool<T>()]: the pool of the type, created when it does not exist yet. *)
Definition Pool (key : TypeKey) (r : Registry) : ComponentPool T * Registry :=
  match PoolPtr key r with
  | Some p => (p, r)
  | None =>
      (Pool.empty,
       mkRegistry (m_alive r) (m_generations r) (m_freeList r)
         (m_pools r ++ [(key, Pool.empty)]))
  end.

Definition set_pool (key : TypeKey) (p : ComponentPool T) (r : Registry) : Registry :=
  mkRegistry (m_alive r) (m_generations r) (m_freeList r)
    (pool_store key p (m_pools r)).

(** *** Entity lifecycle *)

Definition CreateEntity (r : Registry) : result (EntityId * Registry) :=
  let '(idx, gens, free) :=
    match m_freeList r with
    | idx :: rest => (idx, m_generations r, rest)
    | [] => (u32 (vsize (m_generations r)), m_generations r ++ [0], [])
    end in
  g ← vec_at gens idx;
  let id := MakeEntity idx g in
  Ok (id, mkRegistry (m_alive r ++ [id]) gens free (m_pools r)).

Definition IsAlive (id : EntityId) (r : Registry) : bool :=
  let idx := EntityIndex id in
  bool_decide (idx < vsize (m_generations r))
  && match m_generations r !! Z.to_nat idx with
     | Some g => bool_decide (EntityGeneration id = g)
     | None => false
     end.

(** [for (auto& [ti, pool] : m_pools) pool->Remove(idx);] *)
Fixpoint strip_pools (idx : Z) (ps : list (TypeKey * ComponentPool T))
    : result (list (TypeKey * ComponentPool T)) :=
  match ps with
  | [] => Ok []
  | (k, p) :: rest =>
      p' ← Pool.Remove p idx;
      rest' ← strip_pools idx rest;
      Ok ((k, p') :: rest')
  end.

(** [std::find] followed by [erase]: the first occurrence goes. *)
Fixpoint erase_first (id : EntityId) (l : list EntityId) : list EntityId :=
  match l with
  | [] => []
  | x :: rest => if decide (x = id) then rest else x :: erase_first id rest
  end.

Definition DestroyEntity (id : EntityId) (r : Registry) : result Registry :=
  if negb (IsAlive id r) then Ok r else
  let idx := EntityIndex id in
  pools ← strip_pools idx (m_pools r);
  g ← vec_at (m_generations r) idx;
  gens ← vec_set (m_generations r) idx (u32 (g + 1));
  Ok (mkRegistry (erase_first id (m_alive r)) gens (m_freeList r ++ [idx]) pools).

Definition Entities (r : Registry) : list EntityId := m_alive r.

Definition EntityCount (r : Registry) : Z := vsize (m_alive r).

Definition Clear (r : Registry) : Registry :=
  mkRegistry [] [] [] (map (fun kp => (kp.1, Pool.Clear kp.2)) (m_pools r)).

(** *** Component API *)

Definition AddComponent (key : TypeKey) (id : EntityId) (v : T) (r : Registry)
    : result Registry :=
  if negb (IsAlive id r) then Fault EntityNotAlive else
  let '(p, r1) := Pool key r in
  p' ← Pool.Emplace p (EntityIndex id) v;
  Ok (set_pool key p' r1).

Definition HasComponent (key : TypeKey) (id : EntityId) (r : Registry) : bool :=
  match PoolPtr key r with
  | Some p => Pool.Has p (EntityIndex id)
  | None => false
  end.

Definition GetComponent (key : TypeKey) (id : EntityId) (r : Registry)
    : result (T * Registry) :=
  if negb (IsAlive id r) then Fault EntityNotAlive else
  if negb (HasComponent key id r) then Fault GetAbsent else
  let '(p, r1) := Pool key r in
  c ← Pool.Get p (EntityIndex id);
  Ok (c, r1).

Definition RemoveComponent (key : TypeKey) (id : EntityId) (r : Registry)
    : result Registry :=
  match PoolPtr key r with
  | Some p => p' ← Pool.Remove p (EntityIndex id); Ok (set_pool key p' r)
  | None => Ok r
  end.

Definition GetOrAdd (key : TypeKey) (dflt : T) (id : EntityId) (r : Registry)
    : result (T * Registry) :=
  r1 ← (if negb (HasComponent key id r) then AddComponent key id dflt r else Ok r);
  GetComponent key id r1.

(** *** Query helpers *)

Definition HasAt (key : TypeKey) (idx : Z) (r : Registry) : bool :=
  match PoolPtr key r with
  | Some p => Pool.Has p idx
  | None => false
  end.

Definition HasAllAt (keys : list TypeKey) (idx : Z) (r : Registry) : bool :=
  forallb (fun k => HasAt k idx r) keys.

(** The loop of [FindSmallestPool]; [res] and [minSize] are its two
    locals, [minSize] starting at [~size_t(0)] (64 bits).  The pointer it
    returns is named by the key of the pool. *)
Fixpoint find_smallest (keys : list TypeKey) (res : option TypeKey) (minSize : Z)
    (r : Registry) : option TypeKey :=
  match keys with
  | [] => res
  | k :: rest =>
      match PoolPtr k r with
      | None => None
      | Some p =>
          if decide (Pool.Size p < minSize)
          then find_smallest rest (Some k) (Pool.Size p) r
          else find_smallest rest res minSize r
      end
  end.

Definition FindSmallestPool (keys : list TypeKey) (r : Registry) : option TypeKey :=
  find_smallest keys None (2 ^ 64 - 1) r.

(** [Pool<Ts>().Get(idx)...], the arguments of the visitor *)
Fixpoint get_all (keys : list TypeKey) (idx : Z) (r : Registry) : result (list T) :=
  match keys with
  | [] => Ok []
  | k :: rest =>
      c ← Pool.Get (Pool k r).1 idx;
      cs ← get_all rest idx r;
      Ok (c :: cs)
  end.

(** *** Callbacks

    What a visitor does to the registry it captured is a program over
    the public interface; [CallCreateEntity], [CallIsAlive] and
    [CallHasComponent] hand their return value to the rest of the
    program.  The visitor receives the components by value. *)
Inductive Script : Type :=
  | Return
  | CallCreateEntity (k : EntityId → Script)
  | CallDestroyEntity (id : EntityId) (k : Script)
  | CallAddComponent (key : TypeKey) (id : EntityId) (v : T) (k : Script)
  | CallRemoveComponent (key : TypeKey) (id : EntityId) (k : Script)
  | CallClear (k : Script)
  | CallIsAlive (id : EntityId) (k : bool → Script)
  | CallHasComponent (key : TypeKey) (id : EntityId) (k : bool → Script).

Inductive Event : Type :=
  | Visited (id : EntityId)                   (* the visitor was invoked on id *)
  | Created (id : EntityId)                   (* CreateEntity returned id *)
  | Destroyed (id : EntityId)                 (* DestroyEntity(id) returned *)
  | Attached (key : TypeKey) (id : EntityId)  (* AddComponent<key>(id) returned *)
  | Detached (key : TypeKey) (id : EntityId)  (* RemoveComponent<key>(id) returned *)
  | Cleared.

Definition Visitor : Type := EntityId → list T → Script.

Fixpoint exec (s : Script) (r : Registry) : result (list Event * Registry) :=
  match s with
  | Return => Ok ([], r)
  | CallCreateEntity k =>
      '(id, r1) ← CreateEntity r;
      '(ev, r2) ← exec (k id) r1;
      Ok (Created id :: ev, r2)
  | CallDestroyEntity id k =>
      r1 ← DestroyEntity id r;
      '(ev, r2) ← exec k r1;
      Ok (Destroyed id :: ev, r2)
  | CallAddComponent key id v k =>
      r1 ← AddComponent key id v r;
      '(ev, r2) ← exec k r1;
      Ok (Attached key id :: ev, r2)
  | CallRemoveComponent key id k =>
      r1 ← RemoveComponent key id r;
      '(ev, r2) ← exec k r1;
      Ok (Detached key id :: ev, r2)
  | CallClear k =>
      '(ev, r2) ← exec k (Clear r);
      Ok (Cleared :: ev, r2)
  | CallIsAlive id k => exec (k (IsAlive id r)) r
  | CallHasComponent key id k => exec (k (HasComponent key id r)) r
  end.

(** *** Queries *)

(** The pool behind the pointer that [PoolPtr<key>()] returned before a
    loop started.  No operation erases a pool from [m_pools], so the
    pointer stays valid and names the pool stored under [key]. *)
Definition deref (key : TypeKey) (r : Registry) : ComponentPool T :=
  default Pool.empty (PoolPtr key r).

(** The loop of [Each] over the snapshot [idxList]; [key] names the pool
    the pointer [p] was taken from. *)
Fixpoint Each_loop (key : TypeKey) (fn : Visitor) (idxList : list Z) (r : Registry)
    : result (list Event * Registry) :=
  match idxList with
  | [] => Ok ([], r)
  | idx :: rest =>
      if decide (vsize (m_generations r) ≤ idx) then Each_loop key fn rest r else
      g ← vec_at (m_generations r) idx;
      let id := MakeEntity idx g in
      c ← Pool.Get (deref key r) idx;
      '(ev, r1) ← exec (fn id [c]) r;
      '(ev', r2) ← Each_loop key fn rest r1;
      Ok (Visited id :: ev ++ ev', r2)
  end.

Definition Each (key : TypeKey) (fn : Visitor) (r : Registry)
    : result (list Event * Registry) :=
  match PoolPtr key r with
  | None => Ok ([], r)
  | Some p =>
      if decide (Pool.Size p = 0) then Ok ([], r)
      else Each_loop key fn (Pool.EntityIndices p) r
  end.

Fixpoint View_loop (keys : list TypeKey) (fn : Visitor) (idxList : list Z)
    (r : Registry) : result (list Event * Registry) :=
  match idxList with
  | [] => Ok ([], r)
  | idx :: rest =>
      if negb (HasAllAt keys idx r) then View_loop keys fn rest r else
      if decide (vsize (m_generations r) ≤ idx) then View_loop keys fn rest r else
      g ← vec_at (m_generations r) idx;
      let id := MakeEntity idx g in
      cs ← get_all keys idx r;
      '(ev, r1) ← exec (fn id cs) r;
      '(ev', r2) ← View_loop keys fn rest r1;
      Ok (Visited id :: ev ++ ev', r2)
  end.

Definition View (keys : list TypeKey) (fn : Visitor) (r : Registry)
    : result (list Event * Registry) :=
  match FindSmallestPool keys r with
  | None => Ok ([], r)
  | Some k0 =>
      match PoolPtr k0 r with
      | None => Ok ([], r)
      | Some smallest =>
          if decide (Pool.Size smallest = 0) then Ok ([], r)
          else View_loop keys fn (Pool.EntityIndices smallest) r
      end
  end.

(** The handles the visitor was invoked on, in order. *)
Fixpoint visited (ev : list Event) : list EntityId :=
  match ev with
  | [] => []
  | Visited id :: rest => id :: visited rest
  | _ :: rest => visited rest
  end.

(** *** Reachable states and their invariant *)

(** The states a client can bring a fresh registry into. *)
Definition reachable (r : Registry) : Prop :=
  ∃ (s : Script) (ev : list Event), exec s empty = Ok (ev, r).

(** Every pool is well formed; an index held by a pool is a slot of the
    generation table whose handle is alive; the free list holds slots. *)
Definition RegWF (r : Registry) : Prop :=
  Forall (fun kp => Pool.WF kp.2) (m_pools r)
  ∧ (∀ key idx, HasAt key idx r = true →
       idx < 2 ^ 20 ∧
       ∃ g, m_generations r !! Z.to_nat idx = Some g ∧ 0 ≤ g < 2 ^ 12)
  ∧ Forall (fun i => 0 ≤ i < vsize (m_generations r)) (m_freeList r).

(** The slot the next [CreateEntity] uses. *)
Definition next_slot (r : Registry) : Z :=
  match m_freeList r with
  | idx :: _ => idx
  | [] => u32 (vsize (m_generations r))
  end.

(** The handle [Each] and [View] rebuild for the slot [idx]. *)
Definition slot_handle (r : Registry) (idx : Z) : EntityId :=
  MakeEntity idx (default 0 (m_generations r !! Z.to_nat idx)).

(** A handle is a [uint32_t]. *)
Definition is_handle (id : EntityId) : Prop := 0 ≤ id < 2 ^ 32.

(** *** Classes of callbacks *)

(** The callback changes nothing: it only asks. *)
Inductive readonly : Script → Prop :=
  | readonly_Return : readonly Return
  | readonly_IsAlive id k :
      (∀ b, readonly (k b)) → readonly (CallIsAlive id k)
  | readonly_HasComponent key id k :
      (∀ b, readonly (k b)) → readonly (CallHasComponent key id k).

(** The callback takes no component of type [key] away: it calls neither
    [DestroyEntity] nor [RemoveComponent<key>] nor [Clear]. *)
Inductive keeps (key : TypeKey) : Script → Prop :=
  | keeps_Return : keeps key Return
  | keeps_CreateEntity k :
      (∀ id, keeps key (k id)) → keeps key (CallCreateEntity k)
  | keeps_AddComponent key' id v k :
      keeps key k → keeps key (CallAddComponent key' id v k)
  | keeps_RemoveComponent key' id k :
      key' ≠ key → keeps key k → keeps key (CallRemoveComponent key' id k)
  | keeps_IsAlive id k :
      (∀ b, keeps key (k b)) → keeps key (CallIsAlive id k)
  | keeps_HasComponent key' id k :
      (∀ b, keeps key (k b)) → keeps key (CallHasComponent key' id k).

(** The program does not call [Clear]. *)
Inductive clearfree : Script → Prop :=
  | clearfree_Return : clearfree Return
  | clearfree_CreateEntity k :
      (∀ id, clearfree (k id)) → clearfree (CallCreateEntity k)
  | clearfree_DestroyEntity id k :
      clearfree k → clearfree (CallDestroyEntity id k)
  | clearfree_AddComponent key id v k :
      clearfree k → clearfree (CallAddComponent key id v k)
  | clearfree_RemoveComponent key id k :
      clearfree k → clearfree (CallRemoveComponent key id k)
  | clearfree_IsAlive id k :
      (∀ b, clearfree (k b)) → clearfree (CallIsAlive id k)
  | clearfree_HasComponent key id k :
      (∀ b, clearfree (k b)) → clearfree (CallHasComponent key id k).

(** *** Programs used in the examples *)

(** [n] times: create an entity and destroy it. *)
Fixpoint recycle (n : nat) (k : Script) : Script :=
  match n with
  | O => k
  | S n' => CallCreateEntity (fun e => CallDestroyEntity e (recycle n' k))
  end.

(** [n] times: create an entity. *)
Fixpoint populate (n : nat) (k : Script) : Script :=
  match n with
  | O => k
  | S n' => CallCreateEntity (fun _ => populate n' k)
  end.

(** The state [populate n] leads to, for [n] up to [2^20]. *)
Definition populated (n : nat) : Registry :=
  mkRegistry (Z.of_nat <$> seq 0 n) (replicate n 0) [] [].

End WithPayload.
Arguments Registry : clear implicits.
Arguments Script : clear implicits.
Arguments Visitor : clear implicits.
End Registry.

(** ** Scripting/LuaLibraries/ECS.cpp

    The bindings of the [ecs] table that only move entities and components
    about.  [g_registry] is the module-level pointer, [None] while it is
    null.  An argument is the integer that [luaL_checkinteger] returned;
    a binding returns what it pushes, beside the registry. *)

Module LuaECS.
Import Registry.
Section WithPayload.
Context {T : Type}.

(** [std::type_index] of [PlayerComponent] and of [TransformComponent],
    and the value of a default-constructed component of each. *)
Context (PlayerKey TransformKey : TypeKey) (player_default transform_default : T).

(** [static_cast<ECS::EntityId>(luaL_checkinteger(L, idx))] *)
Definition toEntityId (n : Z) : EntityId := u32 n.

Definition l_create (g_registry : option (Registry T))
    : result (Z * option (Registry T)) :=
  match g_registry with
  | None => Ok (INVALID_ENTITY, None)
  | Some r => '(id, r') ← CreateEntity r; Ok (id, Some r')
  end.

Definition l_destroy (g_registry : option (Registry T)) (n : Z)
    : result (option (Registry T)) :=
  match g_registry with
  | None => Ok None
  | Some r => r' ← DestroyEntity (toEntityId n) r; Ok (Some r')
  end.

Definition l_isAlive (g_registry : option (Registry T)) (n : Z) : bool :=
  match g_registry with
  | None => false
  | Some r => IsAlive (toEntityId n) r
  end.

(** The writes to the fields of the new [PlayerComponent] change its
    payload only and are left out. *)
Definition l_addPlayer (g_registry : option (Registry T)) (n : Z)
    : result (option (Registry T)) :=
  match g_registry with
  | None => Ok None
  | Some r =>
      let id := toEntityId n in
      if negb (IsAlive id r) then Ok (Some r) else
      r1 ← (if negb (HasComponent PlayerKey id r)
            then AddComponent PlayerKey id player_default r else Ok r);
      '(_, r2) ← GetOrAdd TransformKey transform_default id r1;
      Ok (Some r2)
  end.

Definition l_hasPlayer (g_registry : option (Registry T)) (n : Z) : bool :=
  match g_registry with
  | None => false
  | Some r =>
      IsAlive (toEntityId n) r && HasComponent PlayerKey (toEntityId n) r
  end.

Definition l_removePlayer (g_registry : option (Registry T)) (n : Z)
    : result (option (Registry T)) :=
  match g_registry with
  | None => Ok None
  | Some r => r' ← RemoveComponent PlayerKey (toEntityId n) r; Ok (Some r')
  end.

End WithPayload.
End LuaECS.

(** ** A small world used in the examples *)

Module Scenario.
Import Registry.

Definition A : TypeKey := 0%nat.
Definition B : TypeKey := 1%nat.
Definition C : TypeKey := 2%nat.

Definition final {X} (res : result (list Event * X)) (dflt : X) : X :=
  match res with Ok (_, x) => x | Fault _ => dflt end.

Definition events {X} (res : result (list Event * X)) : list Event :=
  match res with Ok (ev, _) => ev | Fault _ => [] end.

(** Three entities; [A] on all of them, [B] on the first and the third. *)
Definition setup : Script unit :=
  CallCreateEntity (fun e1 => CallCreateEntity (fun e2 => CallCreateEntity (fun e3 =>
    CallAddComponent A e1 tt (CallAddComponent A e2 tt (CallAddComponent A e3 tt
      (CallAddComponent B e1 tt (CallAddComponent B e3 tt Return))))))).

Definition world : Registry unit :=
  Eval vm_compute in final (exec setup empty) empty.

(** A visitor that changes nothing. *)
Definition look : Visitor unit := fun _ _ => Return.

(** On the first entity, destroy the second. *)
Definition destroy_second : Visitor unit := fun id _ =>
  if decide (id = 0) then CallDestroyEntity 1 Return else Return.

(** On the first entity, destroy the second, then create an entity and
    attach [A] to it. *)
Definition respawn : Visitor unit := fun id _ =>
  if decide (id = 0)
  then CallDestroyEntity 1
         (CallCreateEntity (fun e => CallAddComponent A e tt Return))
  else Return.

(** On the first entity, create an entity and attach [A] to it. *)
Definition spawn : Visitor unit := fun id _ =>
  if decide (id = 0)
  then CallCreateEntity (fun e => CallAddComponent A e tt Return)
  else Return.

(** One entity, alive. *)
Definition one : Registry unit :=
  Eval vm_compute in final (exec (CallCreateEntity (fun _ => Return)) empty) empty.

(** Create, destroy, create again on the same slot, attach [A]. *)
Definition reuse : Script unit :=
  CallCreateEntity (fun e => CallDestroyEntity e
    (CallCreateEntity (fun e2 => CallAddComponent A e2 tt Return))).

Definition reused : Registry unit :=
  Eval vm_compute in final (exec reuse empty) empty.

(** [one] after [DestroyEntity(0)], and after a further [CreateEntity]. *)
Definition gone : Registry unit :=
  Eval vm_compute in
    match DestroyEntity 0 one with Ok r => r | Fault _ => empty end.

Definition back : Registry unit :=
  Eval vm_compute in
    match CreateEntity gone with Ok (_, r) => r | Fault _ => empty end.

(** The run of [Each<A>] with the visitor [spawn] on [world]. *)
Definition spawned : result (list Event * Registry unit) :=
  Eval vm_compute in Each A spawn world.

(** As many entities as the index field of a handle can tell apart. *)
Definition capacity : nat := Z.to_nat (2 ^ 20).

Definition full : Registry unit := populated capacity.

(** A pool after three [Emplace] and a [Remove], and after one more
    [Emplace]. *)
Definition pool_ops : list (Pool.PoolOp nat) :=
  [Pool.OpEmplace 3 10%nat; Pool.OpEmplace 1 11%nat; Pool.OpEmplace 5 12%nat;
   Pool.OpRemove 3].

Definition packed : Pool.ComponentPool nat :=
  Eval vm_compute in
    match Pool.run_ops Pool.empty pool_ops with Ok p => p | Fault _ => Pool.empty end.

Definition grown : Pool.ComponentPool nat :=
  Eval vm_compute in
    match Pool.Emplace packed 7 13%nat with Ok p => p | Fault _ => Pool.empty end.

(** [world] after [AddComponent<B>] on the second entity. *)
Definition attached : Registry unit :=
  Eval vm_compute in
    match AddComponent B 1 tt world with Ok r => r | Fault _ => empty end.

End Scenario.

(** * Facts *)

(** ** Outcomes *)

Lemma bind_Ok_inv {A B} (e : result A) (k : A → result B) (b : B) :
  e ≫= k = Ok b → ∃ a, e = Ok a ∧ k a = Ok b.
Proof. destruct e as [a|f]; simpl; [eauto|done]. Qed.

Lemma bind_Fault_inv {A B} (e : result A) (k : A → result B) (f : fault) :
  e ≫= k = Fault f → e = Fault f ∨ ∃ a, e = Ok a ∧ k a = Fault f.
Proof. destruct e as [a|f']; simpl; [eauto|]. intros [= ->]. by left. Qed.

(** ** Vectors *)

Section VectorFacts.
Context {A : Type}.
Implicit Types (v : list A) (i : Z) (x : A).

Lemma vec_at_ok v i x :
  0 ≤ i → v !! Z.to_nat i = Some x → vec_at v i = Ok x.
Proof. intros Hi Hx. unfold vec_at. rewrite decide_True by done. by rewrite Hx. Qed.

Lemma vec_at_Ok_inv v i x :
  vec_at v i = Ok x → 0 ≤ i ∧ v !! Z.to_nat i = Some x.
Proof.
  unfold vec_at. destruct (decide (0 ≤ i)); [|done].
  destruct (v !! Z.to_nat i) eqn:E; [|done]. by intros [= ->].
Qed.

Lemma vec_set_ok v i x :
  0 ≤ i < vsize v → vec_set v i x = Ok (<[Z.to_nat i := x]> v).
Proof. intros Hi. unfold vec_set. by rewrite decide_True. Qed.

Lemma vec_set_Ok_inv v i x v' :
  vec_set v i x = Ok v' → 0 ≤ i < vsize v ∧ v' = <[Z.to_nat i := x]> v.
Proof. unfold vec_set. destruct (decide _); [|done]. by intros [= <-]. Qed.

Lemma pop_back_ok v :
  (0 < length v)%nat → pop_back v = Ok (take (length v - 1)%nat v).
Proof. destruct v; simpl; [lia|done]. Qed.

Lemma pop_back_Ok_inv v v' :
  pop_back v = Ok v' → (0 < length v)%nat ∧ v' = take (length v - 1)%nat v.
Proof. destruct v; simpl; [done|]. intros [= <-]. split; [lia|done]. Qed.
End VectorFacts.

Lemma u32_small x : 0 ≤ x < 2 ^ 32 → u32 x = x.
Proof. intros. unfold u32. by apply Z.mod_small. Qed.

(** The pigeonhole bound used for the dense array. *)
Lemma NoDup_bounded_length (l : list Z) (n : nat) :
  NoDup l → (∀ x, x ∈ l → 0 ≤ x < Z.of_nat n) → (length l ≤ n)%nat.
Proof.
  intros Hnd Hb.
  assert (l ⊆+ (Z.of_nat <$> seq 0 n)) as Hsub.
  { apply NoDup_submseteq; [done|]. intros x Hx. apply Hb in Hx.
    apply list_elem_of_fmap. exists (Z.to_nat x). split; [lia|].
    apply elem_of_seq. lia. }
  apply submseteq_length in Hsub. by rewrite length_fmap, length_seq in Hsub.
Qed.

(** ** Component pool *)

Module PoolFacts.
Import Pool.
Section WithPayload.
Context {T : Type}.
Implicit Types (p : ComponentPool T) (idx : Z) (v : T).

Lemma Has_true p idx :
  Has p idx = true ↔
  0 ≤ idx ∧ ∃ d, m_sparse p !! Z.to_nat idx = Some d ∧ d ≠ EMPTY.
Proof.
  unfold Has. rewrite andb_true_iff, bool_decide_eq_true. split.
  - intros [[H0 _] H]. split; [done|].
    destruct (m_sparse p !! Z.to_nat idx) as [d|]; [|done].
    exists d. split; [done|]. apply negb_true_iff, Z.eqb_neq in H. done.
  - intros [H0 (d & Hd & Hne)]. rewrite Hd. split.
    + apply lookup_lt_Some in Hd. unfold vsize. lia.
    + by apply negb_true_iff, Z.eqb_neq.
Qed.

Lemma Has_false p idx :
  Has p idx = false ↔
  (0 ≤ idx → ∀ d, m_sparse p !! Z.to_nat idx = Some d → d = EMPTY).
Proof.
  rewrite <- not_true_iff_false, Has_true. split.
  - intros Hn H0 d Hd. destruct (decide (d = EMPTY)); [done|].
    destruct Hn. eauto.
  - intros H [H0 (d & Hd & Hne)]. by apply Hne, H.
Qed.

Lemma Has_no_sparse p idx : m_sparse p = [] → Has p idx = false.
Proof. intros Hs. apply Has_false. intros _ d. by rewrite Hs. Qed.

Lemma WF_empty : WF (@Pool.empty T).
Proof. split_and!; by simpl. Qed.

Lemma WF_dense_NoDup p : WF p → NoDup (m_dense p).
Proof.
  intros (_ & _ & Hd & _). apply NoDup_alt. intros i j e Hi Hj.
  apply Hd in Hi as [_ Hi]. apply Hd in Hj as [_ Hj]. rewrite Hi in Hj.
  injection Hj. lia.
Qed.

Lemma WF_dense_bound p x :
  WF p → x ∈ m_dense p → 0 ≤ x < vsize (m_sparse p).
Proof.
  intros (_ & _ & Hd & _) Hx. apply list_elem_of_lookup in Hx as [i Hi].
  apply Hd in Hi as [H0 Hi]. apply lookup_lt_Some in Hi. unfold vsize. lia.
Qed.

Lemma WF_dense_le p : WF p → (length (m_dense p) ≤ length (m_sparse p))%nat.
Proof.
  intros Hwf. apply NoDup_bounded_length; [by apply WF_dense_NoDup|].
  intros x Hx. by apply WF_dense_bound.
Qed.

(** A free sparse slot leaves room in the dense array. *)
Lemma WF_dense_lt p (e : nat) :
  WF p → m_sparse p !! e = Some EMPTY →
  (length (m_dense p) < length (m_sparse p))%nat.
Proof.
  intros Hwf He.
  assert (Z.of_nat e ∉ m_dense p) as Hnin.
  { intros Hin. apply list_elem_of_lookup in Hin as [i Hi].
    pose proof (WF_dense_le p Hwf) as Hle. pose proof (lookup_lt_Some _ _ _ Hi).
    destruct Hwf as (_ & Hlen & Hd & _). apply Hd in Hi as [_ Hi].
    rewrite Nat2Z.id, He in Hi. injection Hi as Hi.
    unfold vsize, EMPTY in *. lia. }
  assert (length (Z.of_nat e :: m_dense p) ≤ length (m_sparse p))%nat as Hle.
  { apply NoDup_bounded_length.
    - constructor; [done|by apply WF_dense_NoDup].
    - intros x [->|Hx]%elem_of_cons.
      + apply lookup_lt_Some in He. lia.
      + by apply WF_dense_bound. }
  simpl in Hle. lia.
Qed.

Lemma WF_Has_dense p idx :
  WF p → Has p idx = true ↔ idx ∈ m_dense p.
Proof.
  intros Hwf. rewrite Has_true.
  pose proof (WF_dense_le p Hwf) as Hle.
  destruct Hwf as (_ & Hlen & Hd & Hs). split.
  - intros [H0 (d & Hd' & Hne)]. destruct (Hs _ _ Hd' Hne) as [_ Hin].
    rewrite Z2Nat.id in Hin by done. by eapply list_elem_of_lookup_2.
  - intros [i Hi]%list_elem_of_lookup. destruct (Hd _ _ Hi) as [H0 Hsp].
    split; [done|]. exists (Z.of_nat i). split; [done|].
    apply lookup_lt_Some in Hi. unfold vsize, EMPTY in *. lia.
Qed.

(** *** Emplace *)

(** The [resize] of [Emplace], when the write that follows it is in
    bounds, only pads the sparse array with [EMPTY]. *)
Lemma Emplace_resize_pad (sparse : list Z) idx :
  let sparse1 :=
    if decide (vsize sparse ≤ idx)
    then resize (Z.to_nat (u32 (idx + 1))) EMPTY sparse else sparse in
  vsize sparse ≤ EMPTY → 0 ≤ idx < vsize sparse1 →
  idx < EMPTY ∧ vsize sparse1 ≤ EMPTY ∧ ∃ k, sparse1 = sparse ++ replicate k EMPTY.
Proof.
  intros sparse1 Hlen Hidx. subst sparse1. destruct (decide (vsize sparse ≤ idx)) as [Hge|Hlt].
  - unfold vsize in *. rewrite length_resize in Hidx.
    assert (idx + 1 < 2 ^ 32) as Hsmall.
    { destruct (decide (idx + 1 < 2 ^ 32)); [done|]. unfold u32 in Hidx.
      pose proof (Z.mod_pos_bound (idx + 1) (2 ^ 32)). lia. }
    rewrite u32_small in * by lia. rewrite length_resize. unfold EMPTY in *.
    split_and!; [lia..|]. exists (Z.to_nat (idx + 1) - length sparse)%nat.
    apply resize_ge. lia.
  - split_and!; [lia|done|]. exists 0%nat. simpl. by rewrite app_nil_r.
Qed.

Lemma WF_pad p k :
  WF p → vsize (m_sparse p ++ replicate k EMPTY) ≤ EMPTY →
  WF (mkPool (m_sparse p ++ replicate k EMPTY) (m_dense p) (m_data p)).
Proof.
  intros (Hlen & _ & Hd & Hs) Hle. split_and!; simpl; [done..| |].
  - intros i e Hi. destruct (Hd _ _ Hi) as [H0 Hsp]. split; [done|].
    by apply lookup_app_l_Some.
  - intros e d He Hne. apply lookup_app_Some in He as [He|[_ He]]; [by apply Hs|].
    apply lookup_replicate in He as [-> _]. done.
Qed.

(** Recording a new component in a free sparse slot. *)
Lemma WF_insert_fresh p (e : nat) v :
  WF p → m_sparse p !! e = Some EMPTY →
  WF (mkPool (<[e := vsize (m_dense p)]> (m_sparse p))
             (m_dense p ++ [Z.of_nat e]) (m_data p ++ [v])).
Proof.
  intros Hwf He. pose proof (WF_dense_lt p e Hwf He) as Hlt.
  pose proof (lookup_lt_Some _ _ _ He) as Hlte.
  destruct Hwf as (Hlen & Hle & Hd & Hs). unfold vsize, EMPTY in *.
  split_and!; simpl.
  - rewrite !length_app. simpl. lia.
  - unfold vsize. rewrite length_insert. done.
  - intros i x Hi. apply lookup_snoc_Some in Hi as [[Hi Hx]|[-> <-]].
    + destruct (Hd _ _ Hx) as [H0 Hsp]. split; [done|].
      rewrite list_lookup_insert_ne; [done|]. intros ->.
      rewrite He in Hsp. injection Hsp. lia.
    + split; [lia|]. rewrite Nat2Z.id. by rewrite list_lookup_insert_eq.
  - intros x d Hx Hne. apply list_lookup_insert_Some in Hx as [(<- & <- & _)|[Hne' Hx]].
    + split; [lia|]. rewrite Nat2Z.id. by rewrite lookup_app_r, Nat.sub_diag.
    + destruct (Hs _ _ Hx Hne) as [H0 Hin]. split; [done|]. by apply lookup_app_l_Some.
Qed.

Lemma Emplace_Ok p idx v p' :
  WF p → Emplace p idx v = Ok p' →
  0 ≤ idx < EMPTY ∧ Has p idx = false ∧ WF p'
  ∧ m_dense p' = m_dense p ++ [idx] ∧ m_data p' = m_data p ++ [v]
  ∧ (∀ j, Has p' j = true ↔ Has p j = true ∨ j = idx).
Proof.
  intros Hwf. unfold Emplace.
  set (sparse1 := if decide (vsize (m_sparse p) ≤ idx) then _ else _).
  destruct (Has (mkPool sparse1 _ _) idx) eqn:Hhas; [done|]. simpl.
  destruct (vec_set sparse1 idx _) as [sparse2|] eqn:Hset; [|done]. simpl.
  intros [= <-]. apply vec_set_Ok_inv in Hset as [Hidx ->].
  destruct (Emplace_resize_pad (m_sparse p) idx) as (Hlt & Hle1 & k & Hpad);
    [by apply Hwf|done|]. fold sparse1 in Hle1, Hpad.
  assert (WF (mkPool sparse1 (m_dense p) (m_data p))) as Hwf1.
  { rewrite Hpad. apply WF_pad; [done|]. by rewrite <- Hpad. }
  assert (sparse1 !! Z.to_nat idx = Some EMPTY) as Hfree.
  { destruct (lookup_lt_is_Some_2 sparse1 (Z.to_nat idx)) as [d Hd];
      [unfold vsize in Hidx; lia|].
    rewrite Hd. f_equal. eapply Has_false in Hhas; [done|lia|done]. }
  pose proof (WF_dense_lt _ _ Hwf1 Hfree) as Hroom. simpl in Hroom.
  rewrite u32_small by (unfold vsize, EMPTY in *; lia).
  pose proof (WF_insert_fresh _ _ v Hwf1 Hfree) as Hwf2. simpl in Hwf2.
  rewrite Z2Nat.id in Hwf2 by lia.
  assert (Has p idx = false) as Hnot.
  { apply Has_false. intros _ d Hd. rewrite Hpad in Hfree.
    erewrite lookup_app_l_Some in Hfree by done. congruence. }
  split_and!; simpl; try done; [lia|].
  intros j. rewrite !Has_true. simpl. split.
  - intros [H0 (d & Hd & Hne)].
    apply list_lookup_insert_Some in Hd as [(Heq & _)|[Hne' Hd]]; [right; lia|].
    left. split; [done|]. exists d. split; [|done]. rewrite Hpad in Hd.
    apply lookup_app_Some in Hd as [Hd|[_ Hd]]; [done|].
    apply lookup_replicate in Hd as [-> _]. done.
  - intros [[H0 (d & Hd & Hne)]| ->].
    + split; [done|]. destruct (decide (j = idx)) as [->|Hji].
      * exists (vsize (m_dense p)). rewrite list_lookup_insert_eq
          by (unfold vsize in Hidx; lia).
        split; [done|]. unfold vsize, EMPTY in *. lia.
      * exists d. split; [|done]. rewrite list_lookup_insert_ne by lia.
        rewrite Hpad. by apply lookup_app_l_Some.
    + split; [lia|]. exists (vsize (m_dense p)). rewrite list_lookup_insert_eq
        by (unfold vsize in Hidx; lia).
      split; [done|]. unfold vsize, EMPTY in *. lia.
Qed.

Lemma Emplace_defined p idx v :
  WF p → 0 ≤ idx < EMPTY → Has p idx = false → ∃ p', Emplace p idx v = Ok p'.
Proof.
  intros Hwf Hidx Hnot. unfold Emplace.
  set (sparse1 := if decide (vsize (m_sparse p) ≤ idx) then _ else _).
  assert (0 ≤ idx < vsize sparse1 ∧ ∃ k, sparse1 = m_sparse p ++ replicate k EMPTY)
    as [Hin [k Hpad]].
  { subst sparse1. destruct (decide _) as [Hge|Hlt].
    - rewrite u32_small by (unfold EMPTY in *; lia). unfold vsize in *.
      rewrite length_resize. split; [lia|].
      exists (Z.to_nat (idx + 1) - length (m_sparse p))%nat.
      apply resize_ge. lia.
    - split; [lia|]. exists 0%nat. simpl. by rewrite app_nil_r. }
  assert (Has (mkPool sparse1 (m_dense p) (m_data p)) idx = false) as ->.
  { apply Has_false. simpl. intros _ d Hd. rewrite Hpad in Hd.
    apply lookup_app_Some in Hd as [Hd|[_ Hd]].
    - eapply Has_false in Hnot; [done|lia|done].
    - by apply lookup_replicate in Hd as [-> _]. }
  rewrite vec_set_ok by done. simpl. eauto.
Qed.

(** *** Remove *)

Lemma Remove_absent p idx : Has p idx = false → Remove p idx = Ok p.
Proof. intros H. unfold Remove. by rewrite H. Qed.

(** The pool after the swap with the last element and the two
    [pop_back]s, when the removed component is not the last one. *)
Lemma WF_swap_pop p (e d : nat) (lastE : Z) (moved : T) :
  WF p → m_sparse p !! e = Some (Z.of_nat d) → Z.of_nat d ≠ EMPTY →
  m_dense p !! (length (m_dense p) - 1)%nat = Some lastE →
  d ≠ (length (m_dense p) - 1)%nat →
  let p' := mkPool (<[e := EMPTY]> (<[Z.to_nat lastE := Z.of_nat d]> (m_sparse p)))
                   (take (length (m_dense p) - 1) (<[d := lastE]> (m_dense p)))
                   (take (length (m_dense p) - 1) (<[d := moved]> (m_data p))) in
  WF p' ∧ ∀ j, Has p' j = true ↔ Has p j = true ∧ j ≠ Z.of_nat e.
Proof.
  intros Hwf He Hne Hlast Hdl p'.
  pose proof (WF_dense_le p Hwf) as Hle.
  destruct Hwf as (Hlen & Hcap & Hd & Hs).
  destruct (Hs _ _ He Hne) as [_ Hde]. rewrite Nat2Z.id in Hde.
  destruct (Hd _ _ Hlast) as [HlastE0 HlastE].
  pose proof (lookup_lt_Some _ _ _ Hde) as Hdlt.
  pose proof (lookup_lt_Some _ _ _ He) as Helt.
  pose proof (lookup_lt_Some _ _ _ HlastE) as HlastElt.
  set (n := length (m_dense p)) in *.
  assert (Z.to_nat lastE ≠ e) as HlastEe.
  { intros Heq. rewrite Heq, He in HlastE. injection HlastE. lia. }
  split.
  - subst p'. split_and!; simpl.
    + rewrite !length_take, !length_insert. lia.
    + unfold vsize. by rewrite !length_insert.
    + intros i x [Hi Hin]%lookup_take_Some.
      apply list_lookup_insert_Some in Hi as [(<- & <- & _)|[Hid Hi]].
      * split; [done|]. rewrite list_lookup_insert_ne by done.
        by rewrite list_lookup_insert_eq.
      * destruct (Hd _ _ Hi) as [Hx0 Hx]. split; [done|].
        rewrite !list_lookup_insert_ne; [done|..].
        -- intros Heq. rewrite <- Heq, HlastE in Hx. injection Hx. lia.
        -- intros Heq. rewrite <- Heq, He in Hx. injection Hx. lia.
    + intros x y Hx Hy.
      apply list_lookup_insert_Some in Hx as [(_ & <- & _)|[Hex Hx]]; [done|].
      apply list_lookup_insert_Some in Hx as [(<- & <- & _)|[Hlx Hx]].
      * split; [lia|]. rewrite Nat2Z.id, Z2Nat.id by done.
        rewrite lookup_take_lt by lia. by rewrite list_lookup_insert_eq.
      * destruct (Hs _ _ Hx Hy) as [Hy0 Hyx]. split; [done|].
        pose proof (lookup_lt_Some _ _ _ Hyx) as Hylt.
        assert (Z.to_nat y ≠ d) as Hyd.
        { intros Heq. rewrite Heq, Hde in Hyx. injection Hyx. lia. }
        assert (Z.to_nat y ≠ (n - 1)%nat) as Hyl.
        { intros Heq. rewrite Heq, Hlast in Hyx. injection Hyx. lia. }
        rewrite lookup_take_lt by (fold n in Hylt; lia).
        by rewrite list_lookup_insert_ne.
  - intros j. rewrite !Has_true. subst p'. simpl. split.
    + intros [Hj0 (y & Hy & Hyne)].
      apply list_lookup_insert_Some in Hy as [(_ & <- & _)|[Hej Hy]]; [done|].
      split; [|lia]. split; [done|].
      apply list_lookup_insert_Some in Hy as [(Heq & <- & _)|[Hlj Hy]].
      * exists (Z.of_nat (n - 1)). rewrite <- Heq. split; [done|].
        unfold vsize, EMPTY in *. lia.
      * eauto.
    + intros [[Hj0 (y & Hy & Hyne)] Hje]. split; [done|].
      destruct (decide (Z.to_nat lastE = Z.to_nat j)) as [Heq|Hneq].
      * exists (Z.of_nat d). split; [|done].
        rewrite list_lookup_insert_ne by lia. rewrite <- Heq.
        by rewrite list_lookup_insert_eq.
      * exists y. split; [|done]. rewrite !list_lookup_insert_ne by lia. done.
Qed.

(** The pool after the two [pop_back]s, when the removed component is the
    last one. *)
Lemma WF_pop_last p (e : nat) :
  WF p → m_sparse p !! e = Some (Z.of_nat (length (m_dense p) - 1)) →
  (0 < length (m_dense p))%nat →
  let p' := mkPool (<[e := EMPTY]> (m_sparse p))
                   (take (length (m_dense p) - 1) (m_dense p))
                   (take (length (m_dense p) - 1) (m_data p)) in
  WF p' ∧ ∀ j, Has p' j = true ↔ Has p j = true ∧ j ≠ Z.of_nat e.
Proof.
  intros Hwf He Hpos p'.
  pose proof (WF_dense_le p Hwf) as Hle.
  destruct Hwf as (Hlen & Hcap & Hd & Hs).
  pose proof (lookup_lt_Some _ _ _ He) as Helt.
  set (n := length (m_dense p)) in *.
  assert (Z.of_nat (n - 1) ≠ EMPTY) as Hne by (unfold vsize, EMPTY in *; lia).
  destruct (Hs _ _ He Hne) as [_ Hde]. rewrite Nat2Z.id in Hde.
  split.
  - subst p'. split_and!; simpl.
    + rewrite !length_take. lia.
    + unfold vsize. by rewrite length_insert.
    + intros i x [Hi Hin]%lookup_take_Some.
      destruct (Hd _ _ Hi) as [Hx0 Hx]. split; [done|].
      rewrite list_lookup_insert_ne; [done|].
      intros Heq. rewrite <- Heq, He in Hx. injection Hx. lia.
    + intros x y Hx Hy.
      apply list_lookup_insert_Some in Hx as [(_ & <- & _)|[Hex Hx]]; [done|].
      destruct (Hs _ _ Hx Hy) as [Hy0 Hyx]. split; [done|].
      pose proof (lookup_lt_Some _ _ _ Hyx) as Hylt.
      assert (Z.to_nat y ≠ (n - 1)%nat) as Hyl.
      { intros Heq. rewrite Heq, Hde in Hyx. injection Hyx. lia. }
      rewrite lookup_take_lt by (fold n in Hylt; lia). done.
  - intros j. rewrite !Has_true. subst p'. simpl. split.
    + intros [Hj0 (y & Hy & Hyne)].
      apply list_lookup_insert_Some in Hy as [(_ & <- & _)|[Hej Hy]]; [done|].
      split; [|lia]. eauto.
    + intros [[Hj0 (y & Hy & Hyne)] Hje]. split; [done|].
      exists y. split; [|done]. rewrite list_lookup_insert_ne by lia. done.
Qed.

(** [Remove] is defined on every well-formed pool, keeps it well formed,
    and takes exactly [idx] out of what the pool holds. *)
Lemma Remove_WF p idx :
  WF p →
  ∃ p', Remove p idx = Ok p' ∧ WF p'
        ∧ (∀ j, Has p' j = true ↔ Has p j = true ∧ j ≠ idx).
Proof.
  intros Hwf. destruct (Has p idx) eqn:Hhas.
  2:{ exists p. rewrite Remove_absent by done. split_and!; [done..|].
      intros j. split; [|tauto]. intros Hj. split; [done|]. congruence. }
  unfold Remove. rewrite Hhas. simpl.
  pose proof (WF_dense_le p Hwf) as Hle.
  pose proof Hwf as (Hlen & Hcap & Hd & Hs).
  apply Has_true in Hhas as [Hidx0 (d & Hsp & Hne)].
  destruct (Hs _ _ Hsp Hne) as [Hd0 Hde]. rewrite Z2Nat.id in Hde by done.
  pose proof (lookup_lt_Some _ _ _ Hde) as Hdlt.
  pose proof (lookup_lt_Some _ _ _ Hsp) as Hidxlt.
  rewrite (vec_at_ok _ _ _ Hidx0 Hsp). simpl.
  set (n := length (m_dense p)) in *.
  assert (u32 (u32 (vsize (m_dense p)) - 1) = Z.of_nat (n - 1)) as ->.
  { unfold vsize, EMPTY in *. fold n.
    rewrite (u32_small (Z.of_nat n)) by lia. rewrite u32_small by lia. lia. }
  destruct (decide (d ≠ Z.of_nat (n - 1))) as [Hdl|Hdl].
  - destruct (lookup_lt_is_Some_2 (m_dense p) (n - 1)) as [lastE HlastE]; [lia|].
    destruct (lookup_lt_is_Some_2 (m_data p) (n - 1)) as [moved Hmoved]; [lia|].
    destruct (Hd _ _ HlastE) as [HlastE0 HlastEsp].
    pose proof (lookup_lt_Some _ _ _ HlastEsp) as HlastElt.
    rewrite (vec_at_ok (m_dense p) _ lastE) by (rewrite ?Nat2Z.id; done || lia).
    simpl. rewrite vec_set_ok by (unfold vsize; lia). simpl.
    rewrite (vec_at_ok (m_data p) _ moved) by (rewrite ?Nat2Z.id; done || lia).
    simpl. rewrite vec_set_ok by (unfold vsize; lia). simpl.
    rewrite vec_set_ok by (unfold vsize; lia). simpl.
    rewrite !pop_back_ok by (rewrite length_insert; lia). simpl.
    rewrite vec_set_ok by (unfold vsize; rewrite length_insert; lia). simpl.
    eexists. split; [done|]. rewrite !length_insert. rewrite <- Hlen. fold n.
    destruct (WF_swap_pop p (Z.to_nat idx) (Z.to_nat d) lastE moved) as [Hwf' Hhas'];
      [done|by rewrite Z2Nat.id|by rewrite Z2Nat.id|done|fold n; lia|].
    fold n in Hwf', Hhas'. rewrite Z2Nat.id in Hwf', Hhas' by done.
    split; [done|]. intros j. rewrite Hhas'. rewrite Z2Nat.id by done. done.
  - assert (d = Z.of_nat (n - 1)) as -> by (destruct (decide (d = Z.of_nat (n - 1))); tauto).
    simpl. rewrite !pop_back_ok by lia. simpl.
    rewrite vec_set_ok by (unfold vsize; lia). simpl.
    eexists. split; [done|]. rewrite <- Hlen. fold n.
    destruct (WF_pop_last p (Z.to_nat idx)) as [Hwf' Hhas']; [done|done|lia|].
    fold n in Hwf', Hhas'. split; [done|].
    intros j. rewrite Hhas'. rewrite Z2Nat.id by done. done.
Qed.

Lemma Remove_Ok p idx p' :
  WF p → Remove p idx = Ok p' →
  WF p' ∧ (∀ j, Has p' j = true ↔ Has p j = true ∧ j ≠ idx).
Proof.
  intros Hwf Hrm. destruct (Remove_WF p idx Hwf) as (q & Hq & H).
  rewrite Hrm in Hq. by injection Hq as ->.
Qed.

(** *** Get *)

Lemma Get_Has p idx : WF p → Has p idx = true → ∃ c, Get p idx = Ok c.
Proof.
  intros (Hlen & _ & _ & Hs) Hh. unfold Get. rewrite Hh.
  apply Has_true in Hh as [H0 (d & Hd & Hne)].
  destruct (Hs _ _ Hd Hne) as [Hd0 Hin]. apply lookup_lt_Some in Hin.
  destruct (lookup_lt_is_Some_2 (m_data p) (Z.to_nat d)) as [c Hc]; [lia|].
  exists c. rewrite (vec_at_ok _ _ _ H0 Hd). simpl. by apply vec_at_ok.
Qed.

Lemma Get_absent p idx : Has p idx = false → Get p idx = Fault GetAbsent.
Proof. intros Hh. unfold Get. by rewrite Hh. Qed.

(** *** Sequences of calls *)

Lemma WF_density p : WF p → density p.
Proof.
  intros Hwf. pose proof (WF_dense_le p Hwf) as Hle.
  destruct Hwf as (Hlen & Hcap & Hd & Hs). unfold density, Size, vsize.
  split_and!; [|done|by rewrite Hlen]. intros i Hi.
  destruct (lookup_lt_is_Some_2 (m_dense p) (Z.to_nat i)) as [e He]; [lia|].
  destruct (Hd _ _ He) as [He0 Hsp]. rewrite Z2Nat.id in Hsp by lia.
  exists e. split; apply vec_at_ok; done || lia.
Qed.

Lemma apply_op_legal p op :
  WF p → legal p op → ∃ p', apply_op p op = Ok p' ∧ WF p'.
Proof.
  intros Hwf Hlegal. destruct op as [i v|i]; simpl in *.
  - destruct Hlegal as [Hi Hnot].
    destruct (Emplace_defined p i v Hwf Hi Hnot) as [p' Hp'].
    exists p'. split; [done|]. by eapply Emplace_Ok.
  - destruct (Remove_WF p i Hwf) as (p' & Hp' & Hwf' & _). eauto.
Qed.

Lemma run_ops_WF ops : ∀ p,
  WF p → legal_seq p ops → ∃ p', run_ops p ops = Ok p' ∧ WF p'.
Proof.
  induction ops as [|op ops IH]; intros p Hwf Hlegal; simpl in *; [eauto|].
  destruct Hlegal as [Hop Hrest].
  destruct (apply_op_legal p op Hwf Hop) as (p1 & Hp1 & Hwf1).
  rewrite Hp1. simpl. apply IH; [done|]. by apply Hrest.
Qed.

Lemma apply_op_Ok p op p' : WF p → apply_op p op = Ok p' → WF p'.
Proof.
  intros Hwf Hop. destruct op as [i v|i]; simpl in Hop.
  - by apply (Emplace_Ok _ _ _ _ Hwf Hop).
  - by apply (Remove_Ok _ _ _ Hwf Hop).
Qed.

Lemma run_ops_Ok ops : ∀ p p', WF p → run_ops p ops = Ok p' → WF p'.
Proof.
  induction ops as [|op ops IH]; intros p p' Hwf Hrun; simpl in Hrun.
  - by injection Hrun as <-.
  - apply bind_Ok_inv in Hrun as (p1 & Hop & Hrun).
    eapply IH; [|done]. by eapply apply_op_Ok.
Qed.

Lemma run_ops_app ops1 : ∀ p ops2,
  run_ops p (ops1 ++ ops2) = run_ops p ops1 ≫= λ p', run_ops p' ops2.
Proof.
  induction ops1 as [|op ops1 IH]; intros p ops2; simpl; [done|].
  destruct (apply_op p op) as [p1|]; simpl; [apply IH|done].
Qed.

(** [Emplace] on the value of the [EMPTY] sentinel. *)
Lemma Emplace_at_EMPTY p v : WF p → Emplace p 4294967295 v = Fault OutOfBounds.
Proof.
  intros (_ & Hcap & _). unfold Emplace.
  rewrite decide_True by (unfold EMPTY in Hcap; lia).
  change (Z.to_nat (u32 (4294967295 + 1))) with 0%nat. rewrite resize_0.
  rewrite Has_no_sparse by done. unfold vec_set.
  rewrite decide_False by (unfold vsize; simpl; lia). done.
Qed.

(** C1 (pool density invariant), as amended.  For every sequence of
    [Emplace] and [Remove] calls on a pool that starts empty, in which each
    [Emplace] is on an index below [0xFFFFFFFF] that the pool does not hold
    at that moment, the calls all complete, and afterwards
    [sparse[dense[i]] == i] for every [i] in [[0, Size())] and [dense] and
    [data] are both of length [Size()].  The same holds after any
    sequence whatever that runs to its end.  The bound on the index is
    needed: [0xFFFFFFFF] is the [EMPTY] sentinel, and an [Emplace] on it
    writes out of bounds. *)
Theorem pool_density_invariant (ops : list (PoolOp T)) :
  (∀ p, run_ops Pool.empty ops = Ok p → density p)
  ∧ (legal_seq Pool.empty ops → ∃ p, run_ops Pool.empty ops = Ok p ∧ density p).
Proof.
  split.
  - intros p Hrun. apply WF_density. by apply (run_ops_Ok ops _ _ WF_empty Hrun).
  - intros Hlegal.
    destruct (run_ops_WF ops Pool.empty WF_empty Hlegal) as (p & Hp & Hwf).
    exists p. split; [done|]. by apply WF_density.
Qed.

End WithPayload.
End PoolFacts.

(** ** Entity handles *)

Section EntityFacts.
Implicit Types (id idx gen : Z).

Lemma EntityIndex_mod id : EntityIndex id = id mod 2 ^ 20.
Proof.
  unfold EntityIndex. change INDEX_MASK with (Z.ones 20). by rewrite Z.land_ones.
Qed.

Lemma EntityGeneration_mod id : EntityGeneration id = (id / 2 ^ 20) mod 2 ^ 12.
Proof.
  unfold EntityGeneration. change GEN_MASK with (Z.ones 12).
  change INDEX_BITS with 20. rewrite Z.land_ones by done. by rewrite Z.shiftr_div_pow2.
Qed.

Lemma lor_disjoint_add (a b : Z) :
  0 ≤ b < 2 ^ 20 → Z.lor (a * 2 ^ 20) b = a * 2 ^ 20 + b.
Proof.
  intros Hb.
  assert (Z.land (a * 2 ^ 20) b = 0) as Hland.
  { apply Z.bits_inj'. intros n Hn. rewrite Z.land_spec, Z.bits_0.
    destruct (decide (n < 20)).
    - by rewrite Z.mul_pow2_bits_low by lia.
    - rewrite <- (Z.mod_small b (2 ^ 20)) by done.
      rewrite Z.mod_pow2_bits_high by lia. apply andb_false_r. }
  rewrite Z.add_nocarry_lxor by done. by rewrite Z.lxor_lor.
Qed.

Lemma MakeEntity_add idx gen :
  MakeEntity idx gen = (gen mod 2 ^ 12) * 2 ^ 20 + idx mod 2 ^ 20.
Proof.
  unfold MakeEntity. change GEN_MASK with (Z.ones 12).
  change INDEX_MASK with (Z.ones 20). change INDEX_BITS with 20.
  rewrite !Z.land_ones, Z.shiftl_mul_pow2 by done.
  pose proof (Z.mod_pos_bound gen (2 ^ 12)). pose proof (Z.mod_pos_bound idx (2 ^ 20)).
  rewrite u32_small by lia. apply lor_disjoint_add. lia.
Qed.

Lemma MakeEntity_is_handle idx gen : 0 ≤ MakeEntity idx gen < 2 ^ 32.
Proof.
  rewrite MakeEntity_add.
  pose proof (Z.mod_pos_bound gen (2 ^ 12)). pose proof (Z.mod_pos_bound idx (2 ^ 20)).
  lia.
Qed.

Lemma EntityIndex_MakeEntity idx gen :
  EntityIndex (MakeEntity idx gen) = idx mod 2 ^ 20.
Proof.
  rewrite EntityIndex_mod, MakeEntity_add.
  rewrite Z.add_comm, Z.mod_add by done. by rewrite Z.mod_mod.
Qed.

Lemma EntityGeneration_MakeEntity idx gen :
  EntityGeneration (MakeEntity idx gen) = gen mod 2 ^ 12.
Proof.
  rewrite EntityGeneration_mod, MakeEntity_add.
  pose proof (Z.mod_pos_bound idx (2 ^ 20)).
  rewrite Z.add_comm, Z.div_add by done. rewrite Z.div_small by lia.
  rewrite Z.add_0_l. by rewrite Z.mod_mod.
Qed.

Lemma MakeEntity_eta id :
  0 ≤ id < 2 ^ 32 → MakeEntity (EntityIndex id) (EntityGeneration id) = id.
Proof.
  intros Hid. rewrite MakeEntity_add, EntityIndex_mod, EntityGeneration_mod.
  rewrite !Z.mod_mod by done.
  assert (0 ≤ id / 2 ^ 20 < 2 ^ 12) as Hq.
  { split; [apply Z.div_pos; lia|]. apply Z.div_lt_upper_bound; lia. }
  rewrite (Z.mod_small (id / 2 ^ 20)) by done.
  pose proof (Z.div_mod id (2 ^ 20)). lia.
Qed.

Lemma EntityIndex_bound id : 0 ≤ EntityIndex id < 2 ^ 20.
Proof. rewrite EntityIndex_mod. by apply Z.mod_pos_bound. Qed.

Lemma EntityGeneration_bound id : 0 ≤ EntityGeneration id < 2 ^ 12.
Proof. rewrite EntityGeneration_mod. by apply Z.mod_pos_bound. Qed.

End EntityFacts.

(** ** Registry *)

Module RegistryFacts.
Import Pool PoolFacts Registry.
Section WithPayload.
Context {T : Type}.
Implicit Types (r : Registry T) (p : ComponentPool T) (key : TypeKey)
  (id : EntityId) (idx : Z) (ps : list (TypeKey * ComponentPool T))
  (s : Script T) (fn : Visitor T) (ev : list Event).

(** *** The pool table *)

Lemma pool_find_store_eq key p ps :
  is_Some (pool_find key ps) → pool_find key (pool_store key p ps) = Some p.
Proof.
  induction ps as [|[k q] ps IH]; simpl; [by intros [? ?]|].
  destruct (decide (k = key)) as [->|Hne]; simpl.
  - by rewrite decide_True.
  - rewrite decide_False by done. done.
Qed.

Lemma pool_find_store_ne key key' p ps :
  key' ≠ key → pool_find key' (pool_store key p ps) = pool_find key' ps.
Proof.
  intros Hne. induction ps as [|[k q] ps IH]; simpl; [done|].
  destruct (decide (k = key)) as [->|Hk]; simpl.
  - by rewrite !decide_False by done.
  - destruct (decide (k = key')); done.
Qed.

Lemma pool_find_app_new key key' p ps :
  pool_find key ps = None →
  pool_find key' (ps ++ [(key, p)])
  = if decide (key' = key) then Some p else pool_find key' ps.
Proof.
  intros Hnone. induction ps as [|[k q] ps IH]; simpl in *.
  - destruct (decide (key = key')), (decide (key' = key)); congruence.
  - destruct (decide (k = key)) as [->|Hk]; [done|].
    destruct (decide (k = key')) as [->|Hk'];
      [by rewrite decide_False by done|by apply IH].
Qed.

Lemma pool_find_WF key p ps :
  Forall (fun kp => WF kp.2) ps → pool_find key ps = Some p → WF p.
Proof.
  induction 1 as [|[k q] ps Hq _ IH]; simpl; [done|].
  destruct (decide (k = key)); [by intros [= <-]|done].
Qed.

Lemma pool_store_WF key p ps :
  Forall (fun kp => WF kp.2) ps → WF p →
  Forall (fun kp => WF kp.2) (pool_store key p ps).
Proof.
  intros Hps Hp. induction Hps as [|[k q] ps Hq Hps IH]; simpl; [done|].
  destruct (decide (k = key)); by constructor.
Qed.

(** Stripping [idx] from every pool. *)
Lemma strip_pools_WF idx ps :
  Forall (fun kp => WF kp.2) ps →
  ∃ ps', strip_pools idx ps = Ok ps'
    ∧ Forall (fun kp => WF kp.2) ps'
    ∧ ∀ key j,
        (∃ p', pool_find key ps' = Some p' ∧ Has p' j = true) ↔
        (∃ p, pool_find key ps = Some p ∧ Has p j = true) ∧ j ≠ idx.
Proof.
  induction 1 as [|[k q] ps Hq Hps IH]; simpl.
  - exists []. split_and!; [done..|]. intros key j. split.
    + by intros (? & ? & _).
    + by intros [(? & ? & _) _].
  - destruct (Remove_WF q idx Hq) as (q' & -> & Hq' & Hhas). simpl.
    destruct IH as (ps' & -> & Hps' & Hfind). simpl.
    exists ((k, q') :: ps'). split_and!; [done|by constructor|].
    intros key j. simpl. destruct (decide (k = key)); [|apply Hfind].
    split.
    + intros (p' & [= <-] & Hj). apply Hhas in Hj as [Hj Hne]. eauto.
    + intros [(p & [= <-] & Hj) Hne]. exists q'. split; [done|]. by apply Hhas.
Qed.

Lemma pool_find_Clear key ps :
  pool_find key (map (fun kp => (kp.1, Pool.Clear kp.2)) ps)
  = Pool.Clear <$> pool_find key ps.
Proof.
  induction ps as [|[k q] ps IH]; simpl; [done|]. by destruct (decide (k = key)).
Qed.

(** *** Aliveness *)

Lemma IsAlive_true id r :
  IsAlive id r = true ↔
  m_generations r !! Z.to_nat (EntityIndex id) = Some (EntityGeneration id).
Proof.
  unfold IsAlive. rewrite andb_true_iff, bool_decide_eq_true.
  pose proof (EntityIndex_bound id) as Hb. split.
  - intros [_ H]. destruct (m_generations r !! _) as [g|]; [|done].
    apply bool_decide_eq_true in H. by rewrite H.
  - intros H. rewrite H. split; [|by apply bool_decide_eq_true].
    apply lookup_lt_Some in H. unfold vsize. lia.
Qed.

Lemma HasAt_true key idx r :
  HasAt key idx r = true ↔ ∃ p, PoolPtr key r = Some p ∧ Has p idx = true.
Proof.
  unfold HasAt. destruct (PoolPtr key r) as [p|]; [|by split; [|intros (? & ? & _)]].
  split; [eauto|]. by intros (? & [= <-] & ?).
Qed.

Lemma HasComponent_HasAt key id r :
  HasComponent key id r = HasAt key (EntityIndex id) r.
Proof. done. Qed.

(** *** [Pool<T>()] and writes through the pool pointer *)

Lemma PoolPtr_set_Pool key key' p' r :
  PoolPtr key' (set_pool key p' (Pool key r).2)
  = if decide (key' = key) then Some p' else PoolPtr key' r.
Proof.
  unfold Pool, PoolPtr, set_pool. destruct (pool_find key (m_pools r)) as [p|] eqn:Hp; simpl.
  - destruct (decide (key' = key)) as [->|Hne].
    + apply pool_find_store_eq. by rewrite Hp.
    + by apply pool_find_store_ne.
  - destruct (decide (key' = key)) as [->|Hne].
    + apply pool_find_store_eq. rewrite pool_find_app_new by done.
      by rewrite decide_True.
    + rewrite pool_find_store_ne by done. rewrite pool_find_app_new by done.
      by rewrite decide_False.
Qed.

Lemma PoolPtr_set_pool key key' p' r :
  is_Some (PoolPtr key r) →
  PoolPtr key' (set_pool key p' r)
  = if decide (key' = key) then Some p' else PoolPtr key' r.
Proof.
  intros Hsome. unfold PoolPtr, set_pool in *. simpl.
  destruct (decide (key' = key)) as [->|Hne].
  - by apply pool_find_store_eq.
  - by apply pool_find_store_ne.
Qed.

Lemma Pool_fst_WF key r :
  Forall (fun kp => WF kp.2) (m_pools r) → WF (Pool key r).1.
Proof.
  intros Hps. unfold Pool, PoolPtr.
  destruct (pool_find key (m_pools r)) as [p|] eqn:Hp; simpl.
  - by eapply pool_find_WF.
  - apply WF_empty.
Qed.

Lemma Pool_snd_WF key r :
  Forall (fun kp => WF kp.2) (m_pools r) →
  Forall (fun kp => WF kp.2) (m_pools (Pool key r).2).
Proof.
  intros Hps. unfold Pool. destruct (PoolPtr key r); simpl; [done|].
  apply Forall_app. split; [done|]. constructor; [apply WF_empty|done].
Qed.

Lemma Pool_fst_Has key idx r : Has (Pool key r).1 idx = HasAt key idx r.
Proof.
  unfold Pool, HasAt. destruct (PoolPtr key r); [done|]. by apply Has_no_sparse.
Qed.

Lemma Pool_snd_fields key r :
  m_generations (Pool key r).2 = m_generations r
  ∧ m_freeList (Pool key r).2 = m_freeList r
  ∧ m_alive (Pool key r).2 = m_alive r.
Proof. unfold Pool. by destruct (PoolPtr key r). Qed.

(** *** The operations keep the invariant *)

Lemma RegWF_empty : RegWF (@Registry.empty T).
Proof. split_and!; simpl; [done| |done]. intros key idx. by unfold HasAt. Qed.

Lemma CreateEntity_Ok_inv r id r' :
  CreateEntity r = Ok (id, r') →
  m_pools r' = m_pools r
  ∧ m_alive r' = m_alive r ++ [id]
  ∧ m_freeList r' = tail (m_freeList r)
  ∧ (∀ i g, m_generations r !! i = Some g → m_generations r' !! i = Some g)
  ∧ (m_freeList r ≠ [] → m_generations r' = m_generations r)
  ∧ (m_freeList r = [] → m_generations r' = m_generations r ++ [0])
  ∧ ∃ g, m_generations r' !! Z.to_nat (next_slot r) = Some g
         ∧ 0 ≤ next_slot r
         ∧ id = MakeEntity (next_slot r) g.
Proof.
  unfold CreateEntity, next_slot. destruct (m_freeList r) as [|i rest].
  - destruct (vec_at _ _) as [g|] eqn:Hg; [|done]. simpl. intros [= <- <-]. simpl.
    apply vec_at_Ok_inv in Hg as [H0 Hg].
    split_and!; try done; [|eauto].
    intros i g' Hi. by apply lookup_app_l_Some.
  - destruct (vec_at _ _) as [g|] eqn:Hg; [|done]. simpl. intros [= <- <-]. simpl.
    apply vec_at_Ok_inv in Hg as [H0 Hg]. split_and!; try done. eauto.
Qed.

Lemma CreateEntity_WF r :
  RegWF r → ∃ id r', CreateEntity r = Ok (id, r') ∧ RegWF r'.
Proof.
  intros (Hps & Hheld & Hfree).
  assert (∃ g, vec_at (match m_freeList r with
                       | _ :: _ => m_generations r
                       | [] => m_generations r ++ [0] end) (next_slot r) = Ok g) as [g Hg].
  { unfold next_slot. destruct (m_freeList r) as [|i rest].
    - unfold u32. pose proof (Z.mod_pos_bound (vsize (m_generations r)) (2 ^ 32)).
      assert (vsize (m_generations r) `mod` 2 ^ 32 ≤ vsize (m_generations r)).
      { apply Z.mod_le; unfold vsize; lia. }
      destruct (lookup_lt_is_Some_2 (m_generations r ++ [0])
        (Z.to_nat (vsize (m_generations r) `mod` 2 ^ 32))) as [g Hg].
      { rewrite length_app. simpl. unfold vsize in *. lia. }
      exists g. apply vec_at_ok; [lia|done].
    - apply Forall_cons in Hfree as [Hi _].
      destruct (lookup_lt_is_Some_2 (m_generations r) (Z.to_nat i)) as [g Hg];
        [unfold vsize in Hi; lia|].
      exists g. apply vec_at_ok; [lia|done]. }
  assert (∃ id r', CreateEntity r = Ok (id, r')) as (id & r' & Hc).
  { unfold CreateEntity, next_slot in *. destruct (m_freeList r); rewrite Hg; simpl; eauto. }
  exists id, r'. split; [done|].
  destruct (CreateEntity_Ok_inv _ _ _ Hc) as (Hp & _ & Hfl & Hmono & Hsame & Hnew & _).
  split_and!.
  - by rewrite Hp.
  - intros key idx Hh. unfold HasAt, PoolPtr in *. rewrite Hp in Hh.
    destruct (Hheld key idx Hh) as [Hlt (g' & Hg' & Hb)]. split; [done|]. eauto.
  - rewrite Hfl. destruct (m_freeList r) as [|i rest] eqn:Hl; simpl; [done|].
    rewrite Hsame by done. by apply Forall_cons in Hfree as [_ ?].
Qed.

Lemma HasAt_nonneg key idx r : HasAt key idx r = true → 0 ≤ idx.
Proof. intros (p & _ & Hh)%HasAt_true. by apply Has_true in Hh as [? _]. Qed.

Lemma DestroyEntity_dead id r : IsAlive id r = false → DestroyEntity id r = Ok r.
Proof. intros H. unfold DestroyEntity. by rewrite H. Qed.

Lemma DestroyEntity_alive_inv id r r' :
  IsAlive id r = true → DestroyEntity id r = Ok r' →
  strip_pools (EntityIndex id) (m_pools r) = Ok (m_pools r')
  ∧ m_generations r'
    = <[Z.to_nat (EntityIndex id) := EntityGeneration id + 1]> (m_generations r)
  ∧ m_freeList r' = m_freeList r ++ [EntityIndex id]
  ∧ m_alive r' = erase_first id (m_alive r).
Proof.
  intros Halive. unfold DestroyEntity. rewrite Halive. simpl.
  apply IsAlive_true in Halive.
  pose proof (EntityIndex_bound id) as Hib. pose proof (EntityGeneration_bound id) as Hgb.
  destruct (strip_pools _ _) as [ps'|]; [|done]. simpl.
  rewrite (vec_at_ok _ _ _ (proj1 Hib) Halive). simpl.
  rewrite u32_small by lia.
  destruct (vec_set _ _ _) as [gens|] eqn:Hset; [|done]. simpl.
  apply vec_set_Ok_inv in Hset as [_ ->]. by intros [= <-].
Qed.

Lemma IsAlive_after_bump id r r' :
  m_generations r'
  = <[Z.to_nat (EntityIndex id) := EntityGeneration id + 1]> (m_generations r) →
  IsAlive id r' = false.
Proof.
  intros Hg. apply not_true_iff_false. rewrite IsAlive_true, Hg. intros H.
  apply list_lookup_insert_Some in H as [(_ & H & _)|[H _]]; [lia|done].
Qed.

Lemma DestroyEntity_WF id r :
  RegWF r →
  ∃ r', DestroyEntity id r = Ok r' ∧ RegWF r' ∧ IsAlive id r' = false
        ∧ (∀ key j, HasAt key j r' = true → HasAt key j r = true).
Proof.
  intros Hwf. destruct (IsAlive id r) eqn:Halive.
  2:{ exists r. by rewrite DestroyEntity_dead. }
  pose proof Hwf as (Hps & Hheld & Hfree).
  destruct (strip_pools_WF (EntityIndex id) _ Hps) as (ps' & Hstrip & Hps' & Hfind).
  pose proof (EntityIndex_bound id) as Hib. pose proof (EntityGeneration_bound id) as Hgb.
  pose proof Halive as Hg%IsAlive_true. pose proof (lookup_lt_Some _ _ _ Hg) as Hlt.
  assert (∃ r', DestroyEntity id r = Ok r') as [r' Hd].
  { unfold DestroyEntity. rewrite Halive, Hstrip. simpl.
    rewrite (vec_at_ok _ _ _ (proj1 Hib) Hg). simpl.
    rewrite vec_set_ok by (unfold vsize; lia). simpl. eauto. }
  exists r'. split; [done|].
  destruct (DestroyEntity_alive_inv _ _ _ Halive Hd) as (Hstrip' & Hgens & Hfl & _).
  rewrite Hstrip in Hstrip'. injection Hstrip' as Hpools.
  assert (∀ key j, HasAt key j r' = true → HasAt key j r = true ∧ j ≠ EntityIndex id)
    as Hless.
  { intros key j Hh. apply HasAt_true in Hh. unfold PoolPtr in Hh. rewrite <- Hpools in Hh.
    apply Hfind in Hh as [Hh Hne]. split; [|done]. by apply HasAt_true. }
  split_and!.
  - split_and!.
    + by rewrite <- Hpools.
    + intros key j Hh. pose proof (HasAt_nonneg _ _ _ Hh) as Hj0.
      apply Hless in Hh as [Hh Hne].
      destruct (Hheld _ _ Hh) as [Hj (g & Hgj & Hgb')]. split; [done|].
      exists g. split; [|done]. rewrite Hgens, list_lookup_insert_ne by lia. done.
    + rewrite Hfl, Hgens. apply Forall_app. unfold vsize. rewrite length_insert.
      split; [done|]. constructor; [lia|done].
  - by eapply IsAlive_after_bump.
  - intros key j Hh. by apply Hless in Hh as [? _].
Qed.

Lemma Emplace_fault p idx v f :
  WF p → 0 ≤ idx < EMPTY → Emplace p idx v = Fault f → f = EmplaceOwned.
Proof.
  intros Hwf Hidx Hf. destruct (Has p idx) eqn:Hh.
  - unfold Emplace in Hf. apply Has_true in Hh as Hh'.
    destruct Hh' as [_ (d & Hd & _)]. apply lookup_lt_Some in Hd.
    rewrite decide_False in Hf by (unfold vsize; lia).
    destruct p as [sp de da]. simpl in *. rewrite Hh in Hf. congruence.
  - destruct (Emplace_defined p idx v Hwf Hidx Hh) as [p' Hp']. congruence.
Qed.

Lemma AddComponent_Ok key id v r r' :
  RegWF r → AddComponent key id v r = Ok r' →
  RegWF r' ∧ IsAlive id r = true
  ∧ HasAt key (EntityIndex id) r = false
  ∧ (∀ key' j, HasAt key' j r' = true ↔
               HasAt key' j r = true ∨ (key' = key ∧ j = EntityIndex id))
  ∧ m_generations r' = m_generations r
  ∧ m_freeList r' = m_freeList r
  ∧ m_alive r' = m_alive r.
Proof.
  intros (Hps & Hheld & Hfree). unfold AddComponent.
  destruct (IsAlive id r) eqn:Halive; [|done]. simpl.
  destruct (Pool key r) as [p r1] eqn:HP.
  assert (p = (Pool key r).1) as Hp by by rewrite HP.
  assert (r1 = (Pool key r).2) as Hr1 by by rewrite HP.
  destruct (Emplace p _ v) as [p'|] eqn:He; [|done]. simpl. intros [= <-].
  assert (WF p) as Hwfp by (rewrite Hp; by apply Pool_fst_WF).
  destruct (Emplace_Ok _ _ _ _ Hwfp He) as (Hidx & Hnot & Hwfp' & _ & _ & Hhas).
  destruct (Pool_snd_fields key r) as (Hg & Hf & Ha). rewrite <- Hr1 in Hg, Hf, Ha.
  assert (∀ key' j, HasAt key' j (set_pool key p' r1) = true ↔
               HasAt key' j r = true ∨ (key' = key ∧ j = EntityIndex id)) as Hrel.
  { intros key' j. unfold HasAt at 1. rewrite Hr1, PoolPtr_set_Pool.
    destruct (decide (key' = key)) as [->|Hne].
    - rewrite Hhas, Hp, Pool_fst_Has. intuition auto.
    - fold (HasAt key' j r). intuition auto. }
  split_and!; simpl; try done.
  - split_and!; simpl.
    + apply pool_store_WF; [|done]. rewrite Hr1. by apply Pool_snd_WF.
    + intros key' j Hh. apply Hrel in Hh as [Hh|[-> ->]]; rewrite Hg; [by apply (Hheld _ _ Hh)|].
      pose proof (EntityIndex_bound id). pose proof (EntityGeneration_bound id).
      split; [lia|]. apply IsAlive_true in Halive. eauto.
    + by rewrite Hg, Hf.
  - by rewrite <- Pool_fst_Has, <- Hp.
Qed.

Lemma AddComponent_fault key id v r f :
  RegWF r → AddComponent key id v r = Fault f →
  f = EntityNotAlive ∨ f = EmplaceOwned.
Proof.
  intros (Hps & _ & _). unfold AddComponent.
  destruct (IsAlive id r); simpl; [|intros [= <-]; by left].
  destruct (Pool key r) as [p r1] eqn:HP.
  assert (WF p) as Hwfp.
  { replace p with (Pool key r).1 by by rewrite HP. by apply Pool_fst_WF. }
  destruct (Emplace p _ v) as [p'|f'] eqn:He; simpl; [done|]. intros [= <-]. right.
  eapply Emplace_fault; [done| |done].
  pose proof (EntityIndex_bound id). unfold EMPTY. lia.
Qed.

Lemma RemoveComponent_WF key id r :
  RegWF r →
  ∃ r', RemoveComponent key id r = Ok r' ∧ RegWF r'
        ∧ (∀ key' j, HasAt key' j r' = true ↔
                     HasAt key' j r = true ∧ ¬ (key' = key ∧ j = EntityIndex id))
        ∧ m_generations r' = m_generations r
        ∧ m_freeList r' = m_freeList r
        ∧ m_alive r' = m_alive r.
Proof.
  intros (Hps & Hheld & Hfree). unfold RemoveComponent.
  destruct (PoolPtr key r) as [p|] eqn:Hp.
  2:{ exists r. split_and!; try done. intros key' j. split; [|tauto].
      intros Hh. split; [done|]. intros [-> _]. unfold HasAt in Hh. by rewrite Hp in Hh. }
  assert (WF p) as Hwfp by by eapply pool_find_WF.
  destruct (Remove_WF p (EntityIndex id) Hwfp) as (p' & -> & Hwfp' & Hhas). simpl.
  eexists. split; [done|].
  assert (∀ key' j, HasAt key' j (set_pool key p' r) = true ↔
            HasAt key' j r = true ∧ ¬ (key' = key ∧ j = EntityIndex id)) as Hrel.
  { intros key' j. unfold HasAt at 1. rewrite PoolPtr_set_pool by by rewrite Hp.
    destruct (decide (key' = key)) as [->|Hne].
    - rewrite Hhas. unfold HasAt. rewrite Hp. intuition auto.
    - fold (HasAt key' j r). intuition auto. }
  split_and!; simpl; try done.
  split_and!; simpl; [by apply pool_store_WF| |done].
  intros key' j Hh. apply Hrel in Hh as [Hh _]. by apply (Hheld _ _ Hh).
Qed.

Lemma Clear_WF r :
  RegWF (Clear r) ∧ ∀ key j, HasAt key j (Clear r) = false.
Proof.
  assert (∀ key j, HasAt key j (Clear r) = false) as Hnone.
  { intros key j. unfold HasAt, PoolPtr, Clear. simpl. rewrite pool_find_Clear.
    destruct (pool_find key (m_pools r)); simpl; [|done]. by apply Has_no_sparse. }
  split; [|done]. split_and!; simpl; [| |done].
  - apply Forall_map. apply Forall_true. intros kp. apply WF_empty.
  - intros key j Hh. by rewrite Hnone in Hh.
Qed.

(** *** Running a callback *)

(** Splits a successful run of the rest of a program. *)
Lemma exec_tail_Ok (e : Event) s r ev0 r0 :
  (exec s r ≫= λ '(ev, r2), Ok (e :: ev, r2)) = Ok (ev0, r0) →
  ∃ ev, exec s r = Ok (ev, r0) ∧ ev0 = e :: ev.
Proof.
  intros (a & Ha & Hk)%bind_Ok_inv. destruct a as [ev r2]. injection Hk as <- <-.
  eauto.
Qed.

Lemma exec_RegWF s : ∀ r ev r',
  RegWF r → exec s r = Ok (ev, r') → RegWF r'.
Proof.
  induction s as [|k IH|id k IH|key id v k IH|key id k IH|k IH|id k IH|key id k IH];
    intros r ev r' Hwf Hex; simpl in Hex.
  - by injection Hex as _ <-.
  - apply bind_Ok_inv in Hex as ([e r1] & Hc & Hex).
    apply exec_tail_Ok in Hex as (ev' & Hex & _).
    destruct (CreateEntity_WF r Hwf) as (e' & r1' & Hc' & Hwf1).
    rewrite Hc in Hc'. injection Hc' as <- <-. by eapply IH.
  - apply bind_Ok_inv in Hex as (r1 & Hd & Hex).
    apply exec_tail_Ok in Hex as (ev' & Hex & _).
    destruct (DestroyEntity_WF id r Hwf) as (r1' & Hd' & Hwf1 & _).
    rewrite Hd in Hd'. injection Hd' as <-. by eapply IH.
  - apply bind_Ok_inv in Hex as (r1 & Ha & Hex).
    apply exec_tail_Ok in Hex as (ev' & Hex & _).
    apply AddComponent_Ok in Ha as [Hwf1 _]; [|done]. by eapply IH.
  - apply bind_Ok_inv in Hex as (r1 & Hrm & Hex).
    apply exec_tail_Ok in Hex as (ev' & Hex & _).
    destruct (RemoveComponent_WF key id r Hwf) as (r1' & Hrm' & Hwf1 & _).
    rewrite Hrm in Hrm'. injection Hrm' as <-. by eapply IH.
  - apply exec_tail_Ok in Hex as (ev' & Hex & _).
    eapply IH; [|done]. apply Clear_WF.
  - by eapply IH.
  - by eapply IH.
Qed.

Lemma reachable_RegWF r : reachable r → RegWF r.
Proof. intros (s & ev & Hex). eapply exec_RegWF; [apply RegWF_empty|done]. Qed.

(** On a well-formed registry a callback fails only by one of the two
    assertions of [AddComponent]. *)
Lemma exec_fault s : ∀ r f,
  RegWF r → exec s r = Fault f → f = EntityNotAlive ∨ f = EmplaceOwned.
Proof.
  induction s as [|k IH|id k IH|key id v k IH|key id k IH|k IH|id k IH|key id k IH];
    intros r f Hwf Hex; simpl in Hex.
  - done.
  - destruct (CreateEntity_WF r Hwf) as (e & r1 & Hc & Hwf1). rewrite Hc in Hex.
    simpl in Hex. apply bind_Fault_inv in Hex as [Hex|([? ?] & _ & ?)]; [|done].
    by eapply IH.
  - destruct (DestroyEntity_WF id r Hwf) as (r1 & Hd & Hwf1 & _). rewrite Hd in Hex.
    simpl in Hex. apply bind_Fault_inv in Hex as [Hex|([? ?] & _ & ?)]; [|done].
    by eapply IH.
  - apply bind_Fault_inv in Hex as [Hex|(r1 & Ha & Hex)].
    + by eapply AddComponent_fault.
    + apply AddComponent_Ok in Ha as [Hwf1 _]; [|done].
      apply bind_Fault_inv in Hex as [Hex|([? ?] & _ & ?)]; [|done]. by eapply IH.
  - destruct (RemoveComponent_WF key id r Hwf) as (r1 & Hrm & Hwf1 & _).
    rewrite Hrm in Hex. simpl in Hex.
    apply bind_Fault_inv in Hex as [Hex|([? ?] & _ & ?)]; [|done]. by eapply IH.
  - apply bind_Fault_inv in Hex as [Hex|([? ?] & _ & ?)]; [|done].
    eapply IH; [|done]. apply Clear_WF.
  - by eapply IH.
  - by eapply IH.
Qed.

Lemma exec_readonly s r : readonly s → exec s r = Ok ([], r).
Proof. induction 1; simpl; done. Qed.

(** A callback that takes no [key] component away leaves every index
    the [key] pool holds in it, and attaches [key] only to an index the
    pool did not hold when the callback started. *)
Lemma exec_keeps key s : keeps key s → ∀ r ev r',
  RegWF r → exec s r = Ok (ev, r') →
  RegWF r'
  ∧ (∀ j, HasAt key j r = true → HasAt key j r' = true)
  ∧ (∀ id, Attached key id ∈ ev → HasAt key (EntityIndex id) r = false)
  ∧ visited ev = [].
Proof.
  induction 1 as [|k Hk IH|key' id v k Hk IH|key' id k Hne Hk IH|id k Hk IH|key' id k Hk IH];
    intros r ev r' Hwf Hex; simpl in Hex.
  - injection Hex as <- <-. split_and!; try done. by intros id ?%elem_of_nil.
  - apply bind_Ok_inv in Hex as ([e r1] & Hc & Hex).
    apply exec_tail_Ok in Hex as (ev' & Hex & ->). simpl in *.
    destruct (CreateEntity_WF r Hwf) as (e' & r1' & Hc' & Hwf1).
    rewrite Hc in Hc'. injection Hc' as <- <-.
    destruct (CreateEntity_Ok_inv _ _ _ Hc) as (Hp & _).
    assert (∀ j, HasAt key j r1 = HasAt key j r) as Hsame.
    { intros j. unfold HasAt, PoolPtr. by rewrite Hp. }
    destruct (IH _ _ _ _ Hwf1 Hex) as (Hwf' & Hmono & Hatt & Hvis).
    split_and!; try done.
    + intros j Hj. apply Hmono. by rewrite Hsame.
    + intros id [Heq|Hin]%elem_of_cons; [done|]. rewrite <- Hsame. by apply Hatt.
  - apply bind_Ok_inv in Hex as (r1 & Ha & Hex).
    apply exec_tail_Ok in Hex as (ev' & Hex & ->). simpl in *.
    destruct (AddComponent_Ok _ _ _ _ _ Hwf Ha) as (Hwf1 & _ & Hnot & Hrel & _).
    destruct (IH _ _ _ Hwf1 Hex) as (Hwf' & Hmono & Hatt & Hvis).
    split_and!; try done.
    + intros j Hj. apply Hmono, Hrel. by left.
    + intros id' [[= -> ->]|Hin]%elem_of_cons; [done|].
      apply not_true_iff_false. intros Hh. apply Hatt in Hin.
      assert (HasAt key (EntityIndex id') r1 = true) by (apply Hrel; by left).
      congruence.
  - apply bind_Ok_inv in Hex as (r1 & Hrm & Hex).
    apply exec_tail_Ok in Hex as (ev' & Hex & ->). simpl in *.
    destruct (RemoveComponent_WF key' id r Hwf) as (r1' & Hrm' & Hwf1 & Hrel & _).
    rewrite Hrm in Hrm'. injection Hrm' as <-.
    destruct (IH _ _ _ Hwf1 Hex) as (Hwf' & Hmono & Hatt & Hvis).
    split_and!; try done.
    + intros j Hj. apply Hmono, Hrel. split; [done|]. by intros [-> _].
    + intros id' [Heq|Hin]%elem_of_cons; [done|].
      apply not_true_iff_false. intros Hh. apply Hatt in Hin.
      assert (HasAt key (EntityIndex id') r1 = true).
      { apply Hrel. split; [done|]. by intros [-> _]. }
      congruence.
  - by eapply IH.
  - by eapply IH.
Qed.

(** *** Each *)

Lemma visited_app ev1 ev2 : visited (ev1 ++ ev2) = visited ev1 ++ visited ev2.
Proof.
  induction ev1 as [|e ev1 IH]; simpl; [done|]. destruct e; simpl; by rewrite ?IH.
Qed.

Lemma HasAt_slot key idx r :
  RegWF r → HasAt key idx r = true →
  0 ≤ idx < 2 ^ 20
  ∧ ∃ g, m_generations r !! Z.to_nat idx = Some g ∧ 0 ≤ g < 2 ^ 12.
Proof.
  intros (_ & Hheld & _) Hh. pose proof (HasAt_nonneg _ _ _ Hh).
  destruct (Hheld _ _ Hh) as [? ?]. split; [lia|done].
Qed.

Lemma deref_Pool key r : deref key r = (Pool key r).1.
Proof. unfold deref, Pool. by destruct (PoolPtr key r). Qed.

Lemma Pool_fst_Get key idx r :
  RegWF r → HasAt key idx r = true → ∃ c, Get (Pool key r).1 idx = Ok c.
Proof.
  intros Hwf Hh. apply Get_Has.
  - apply Pool_fst_WF, Hwf.
  - by rewrite Pool_fst_Has.
Qed.

(** An index at or beyond the end of the generation table is skipped. *)
Lemma Each_loop_skip key fn idx rest r :
  vsize (m_generations r) ≤ idx →
  Each_loop key fn (idx :: rest) r = Each_loop key fn rest r.
Proof. intros Hge. simpl. by rewrite decide_True. Qed.

(** Any other index goes to [Get], held or not. *)
Lemma Each_loop_absent key fn idx rest r :
  0 ≤ idx < vsize (m_generations r) → HasAt key idx r = false →
  Each_loop key fn (idx :: rest) r = Fault GetAbsent.
Proof.
  intros Hidx Hh. simpl. rewrite decide_False by lia.
  destruct (lookup_lt_is_Some_2 (m_generations r) (Z.to_nat idx)) as [g Hg];
    [unfold vsize in Hidx; lia|].
  rewrite (vec_at_ok _ _ g) by (lia || done). simpl.
  rewrite Get_absent; [done|]. by rewrite deref_Pool, Pool_fst_Has.
Qed.

Lemma Each_loop_keeps key fn :
  (∀ id cs, keeps key (fn id cs)) → ∀ idxList r,
  RegWF r → (∀ j, j ∈ idxList → HasAt key j r = true) →
  (∀ f, Each_loop key fn idxList r = Fault f →
        f = EntityNotAlive ∨ f = EmplaceOwned)
  ∧ (∀ ev r', Each_loop key fn idxList r = Ok (ev, r') →
       RegWF r'
       ∧ (∀ j, HasAt key j r = true → HasAt key j r' = true)
       ∧ (∀ id, Attached key id ∈ ev → HasAt key (EntityIndex id) r = false)
       ∧ (∀ id, id ∈ visited ev → EntityIndex id ∈ idxList)).
Proof.
  intros Hfn. induction idxList as [|idx rest IH]; intros r Hwf Hheld.
  { split; [done|]. intros ev r' [= <- <-]. split_and!; try done.
    - by intros id ?%elem_of_nil.
    - by intros id ?%elem_of_nil. }
  assert (HasAt key idx r = true) as Hidx by (apply Hheld; left).
  destruct (HasAt_slot _ _ _ Hwf Hidx) as [Hb (g & Hg & Hgb)].
  pose proof (lookup_lt_Some _ _ _ Hg) as Hlt.
  destruct (Pool_fst_Get _ _ _ Hwf Hidx) as [c Hc].
  assert (Each_loop key fn (idx :: rest) r
          = exec (fn (MakeEntity idx g) [c]) r ≫= λ '(ev, r1),
            Each_loop key fn rest r1 ≫= λ '(ev', r2),
            Ok (Visited (MakeEntity idx g) :: ev ++ ev', r2)) as ->.
  { simpl. rewrite decide_False by (unfold vsize; lia).
    rewrite (vec_at_ok _ _ g) by (lia || done). simpl.
    by rewrite deref_Pool, Hc. }
  assert (EntityIndex (MakeEntity idx g) = idx) as Hei.
  { rewrite EntityIndex_MakeEntity. apply Z.mod_small. lia. }
  split.
  - intros f [Hf|([ev1 r1] & Hex & Hf)]%bind_Fault_inv; [by eapply exec_fault|].
    destruct (exec_keeps _ _ (Hfn _ _) _ _ _ Hwf Hex) as (Hwf1 & Hmono & _).
    apply bind_Fault_inv in Hf as [Hf|([? ?] & _ & ?)]; [|done].
    eapply IH; [done| |done]. intros j Hj. apply Hmono, Hheld. by right.
  - intros ev r' ([ev1 r1] & Hex & Hrest)%bind_Ok_inv.
    apply bind_Ok_inv in Hrest as ([ev2 r2] & Hloop & [= <- <-]).
    destruct (exec_keeps _ _ (Hfn _ _) _ _ _ Hwf Hex) as (Hwf1 & Hmono & Hatt & Hvis).
    destruct (IH r1 Hwf1) as [_ IH2]. { intros j Hj. apply Hmono, Hheld. by right. }
    destruct (IH2 _ _ Hloop) as (Hwf2 & Hmono2 & Hatt2 & Hvis2).
    split_and!; [done|by auto| |].
    + intros id [Heq|[Hin|Hin]%elem_of_app]%elem_of_cons; [done|by apply Hatt|].
      apply not_true_iff_false. intros Hh. apply Hatt2 in Hin.
      apply Hmono in Hh. congruence.
    + intros id. simpl. rewrite visited_app, Hvis. simpl.
      intros [->|Hin]%elem_of_cons; [rewrite Hei; left|right; by apply Hvis2].
Qed.

Lemma Each_keeps key fn r :
  (∀ id cs, keeps key (fn id cs)) → RegWF r →
  (∀ f, Each key fn r = Fault f → f = EntityNotAlive ∨ f = EmplaceOwned)
  ∧ (∀ ev r' id, Each key fn r = Ok (ev, r') →
       Attached key id ∈ ev → id ∉ visited ev).
Proof.
  intros Hfn Hwf. unfold Each. destruct (PoolPtr key r) as [p|] eqn:Hp.
  2:{ split; [done|]. intros ev r' id [= <- <-]. by intros ?%elem_of_nil. }
  destruct (decide (Size p = 0)).
  { split; [done|]. intros ev r' id [= <- <-]. by intros ?%elem_of_nil. }
  assert (WF p) as Hwfp by (eapply pool_find_WF; [apply Hwf|done]).
  assert (∀ j, j ∈ EntityIndices p → HasAt key j r = true) as Hheld.
  { intros j Hj. apply HasAt_true. exists p. split; [done|]. by apply WF_Has_dense. }
  destruct (Each_loop_keeps key fn Hfn _ r Hwf Hheld) as [Hf Hok].
  split; [done|]. intros ev r' id Hev Hatt Hvis.
  destruct (Hok _ _ Hev) as (_ & _ & Hatt' & Hvis').
  apply Hatt' in Hatt. apply Hvis', Hheld in Hvis. congruence.
Qed.

(** *** View *)

Lemma find_smallest_missing key r keys : ∀ res minSize,
  key ∈ keys → PoolPtr key r = None → find_smallest keys res minSize r = None.
Proof.
  induction keys as [|k keys IH]; intros res minSize Hin Hnone; [by apply elem_of_nil in Hin|].
  simpl. apply elem_of_cons in Hin as [<-|Hin]; [by rewrite Hnone|].
  destruct (PoolPtr k r); [|done]. destruct (decide _); by apply IH.
Qed.

Lemma FindSmallestPool_pair A B r :
  RegWF r →
  FindSmallestPool [A; B] r
  = match PoolPtr A r, PoolPtr B r with
    | Some pA, Some pB => if decide (Size pB < Size pA) then Some B else Some A
    | _, _ => None
    end.
Proof.
  intros (Hps & _). unfold FindSmallestPool. simpl.
  destruct (PoolPtr A r) as [pA|] eqn:HA; [|done].
  assert (WF pA) as (_ & Hcap & _) by by eapply pool_find_WF.
  pose proof (WF_dense_le pA ltac:(by eapply pool_find_WF)) as Hle.
  rewrite decide_True by (unfold Size, vsize, EMPTY in *; lia).
  by destruct (PoolPtr B r).
Qed.

Lemma get_all_Ok keys idx r :
  RegWF r → HasAllAt keys idx r = true → ∃ cs, get_all keys idx r = Ok cs.
Proof.
  intros Hwf. induction keys as [|k keys IH]; simpl; [eauto|].
  intros [Hk Hrest]%andb_true_iff.
  destruct (Pool_fst_Get _ _ _ Hwf Hk) as [c ->]. simpl.
  destruct (IH Hrest) as [cs ->]. simpl. eauto.
Qed.

Lemma View_loop_readonly k keys fn r :
  (∀ id cs, readonly (fn id cs)) → RegWF r → ∀ idxList,
  ∃ ev, View_loop (k :: keys) fn idxList r = Ok (ev, r)
    ∧ visited ev
      = slot_handle r <$> filter (fun idx => HasAllAt (k :: keys) idx r = true) idxList.
Proof.
  intros Hro Hwf. induction idxList as [|idx rest (ev & IH & Hvis)]; [by exists []|].
  cbn [View_loop]. destruct (HasAllAt (k :: keys) idx r) eqn:Hall; cbn [negb].
  2:{ exists ev. split; [done|]. rewrite filter_cons_False by congruence. done. }
  assert (HasAt k idx r = true) as Hk by (simpl in Hall; by apply andb_true_iff in Hall as [? _]).
  destruct (HasAt_slot _ _ _ Hwf Hk) as [Hb (g & Hg & Hgb)].
  pose proof (lookup_lt_Some _ _ _ Hg) as Hlt.
  rewrite decide_False by (unfold vsize; lia).
  rewrite (vec_at_ok _ _ g) by (lia || done). cbn [mbind result_bind].
  destruct (get_all_Ok _ _ _ Hwf Hall) as [cs ->]. cbn [mbind result_bind].
  rewrite exec_readonly by done. cbn [mbind result_bind]. rewrite IH.
  cbn [mbind result_bind]. eexists. split; [done|].
  rewrite filter_cons_True by done. simpl. rewrite Hvis.
  unfold slot_handle at 2. by rewrite Hg.
Qed.

(** The handles of the slots that hold both [A] and [B] are the live
    handles that own both. *)
Lemma owners_char A B r (e : EntityId) :
  RegWF r →
  (∃ idx, HasAt A idx r = true ∧ HasAt B idx r = true ∧ e = slot_handle r idx)
  ↔ is_handle e ∧ IsAlive e r = true
    ∧ HasComponent A e r = true ∧ HasComponent B e r = true.
Proof.
  intros Hwf. rewrite !HasComponent_HasAt, IsAlive_true. split.
  - intros (idx & HA & HB & ->).
    destruct (HasAt_slot _ _ _ Hwf HA) as [Hb (g & Hg & Hgb)].
    unfold slot_handle, is_handle. rewrite Hg. simpl.
    rewrite EntityIndex_MakeEntity, EntityGeneration_MakeEntity.
    rewrite !Z.mod_small by lia.
    split_and!; try done; apply MakeEntity_is_handle.
  - intros (Hh & Halive & HA & HB). exists (EntityIndex e). split_and!; [done..|].
    unfold slot_handle. rewrite Halive. simpl. by rewrite MakeEntity_eta.
Qed.

Lemma View_pair_readonly A B fn r :
  (∀ id cs, readonly (fn id cs)) → RegWF r →
  ∃ ev, View [A; B] fn r = Ok (ev, r)
    ∧ NoDup (visited ev)
    ∧ (∀ e, e ∈ visited ev ↔
         ∃ idx, HasAt A idx r = true ∧ HasAt B idx r = true ∧ e = slot_handle r idx).
Proof.
  intros Hro Hwf. unfold View. rewrite FindSmallestPool_pair by done.
  destruct (PoolPtr A r) as [pA|] eqn:HA.
  2:{ exists []. split_and!; [done|constructor|]. intros e. split; [by intros ?%elem_of_nil|].
      intros (idx & Hh & _). unfold HasAt in Hh. by rewrite HA in Hh. }
  destruct (PoolPtr B r) as [pB|] eqn:HB.
  2:{ exists []. split_and!; [done|constructor|]. intros e. split; [by intros ?%elem_of_nil|].
      intros (idx & _ & Hh & _). unfold HasAt in Hh. by rewrite HB in Hh. }
  assert (WF pA) as HwfA by (eapply pool_find_WF; [apply Hwf|done]).
  assert (WF pB) as HwfB by (eapply pool_find_WF; [apply Hwf|done]).
  (* the driving pool [p0], whichever of the two it is *)
  assert (∃ k0 p0, (if decide (Size pB < Size pA) then Some B else Some A) = Some k0
            ∧ PoolPtr k0 r = Some p0 ∧ WF p0
            ∧ ∀ idx, HasAt A idx r = true → HasAt B idx r = true → idx ∈ m_dense p0)
    as (k0 & p0 & -> & -> & Hwf0 & Hdrive).
  { destruct (decide (Size pB < Size pA)); [exists B, pB|exists A, pA];
      split_and!; try done; intros idx HA' HB'.
    - apply WF_Has_dense; [done|]. unfold HasAt in HB'. by rewrite HB in HB'.
    - apply WF_Has_dense; [done|]. unfold HasAt in HA'. by rewrite HA in HA'. }
  destruct (View_loop_readonly A [B] fn r Hro Hwf (m_dense p0)) as (ev & Hev & Hvis).
  assert (∃ ev', (if decide (Size p0 = 0) then Ok ([], r)
                  else View_loop [A; B] fn (EntityIndices p0) r) = Ok (ev', r)
                 ∧ visited ev' = visited ev) as (ev' & -> & Hvis').
  { destruct (decide (Size p0 = 0)) as [Hz|]; [|by exists ev].
    exists []. split; [done|]. rewrite Hvis.
    unfold Size, vsize in Hz. destruct (m_dense p0); [done|simpl in Hz; lia]. }
  exists ev'. split; [done|]. rewrite Hvis', Hvis. split.
  - apply NoDup_fmap_2_strong; [|apply NoDup_filter; by apply WF_dense_NoDup].
    intros x y [Hx _]%list_elem_of_filter [Hy _]%list_elem_of_filter Heq.
    simpl in Hx, Hy. apply andb_true_iff in Hx as [Hx _]. apply andb_true_iff in Hy as [Hy _].
    destruct (HasAt_slot _ _ _ Hwf Hx) as [Hbx _].
    destruct (HasAt_slot _ _ _ Hwf Hy) as [Hby _].
    apply (f_equal EntityIndex) in Heq. unfold slot_handle in Heq.
    rewrite !EntityIndex_MakeEntity, !Z.mod_small in Heq by lia. done.
  - intros e. rewrite list_elem_of_fmap. split.
    + intros (idx & -> & [Hall _]%list_elem_of_filter). exists idx.
      simpl in Hall. rewrite andb_true_r in Hall.
      apply andb_true_iff in Hall as [? ?]. done.
    + intros (idx & HA' & HB' & ->). exists idx. split; [done|].
      apply list_elem_of_filter. split; [|by apply Hdrive].
      simpl. by rewrite HA', HB'.
Qed.

(** *** Generations only grow *)

Lemma DestroyEntity_gens_mono id r r' :
  DestroyEntity id r = Ok r' → ∀ (i : nat) g,
  m_generations r !! i = Some g → ∃ g', m_generations r' !! i = Some g' ∧ g ≤ g'.
Proof.
  intros Hd i g Hg. destruct (IsAlive id r) eqn:Halive.
  2:{ rewrite DestroyEntity_dead in Hd by done. injection Hd as <-. eauto with lia. }
  destruct (DestroyEntity_alive_inv _ _ _ Halive Hd) as (_ & -> & _).
  apply IsAlive_true in Halive.
  destruct (decide (i = Z.to_nat (EntityIndex id))) as [->|Hne].
  - rewrite list_lookup_insert_eq by by eapply lookup_lt_Some.
    rewrite Halive in Hg. injection Hg as <-. eauto with lia.
  - rewrite list_lookup_insert_ne by done. eauto with lia.
Qed.

Lemma AddComponent_gens key id v r r' :
  AddComponent key id v r = Ok r' → m_generations r' = m_generations r.
Proof.
  unfold AddComponent. destruct (IsAlive id r); [|done]. simpl.
  destruct (Pool key r) as [p r1] eqn:HP.
  destruct (Emplace p _ v); [|done]. simpl. intros [= <-]. simpl.
  destruct (Pool_snd_fields key r) as (Hg & _). by rewrite HP in Hg.
Qed.

Lemma RemoveComponent_gens key id r r' :
  RemoveComponent key id r = Ok r' → m_generations r' = m_generations r.
Proof.
  unfold RemoveComponent. destruct (PoolPtr key r); [|by intros [= <-]].
  destruct (Remove _ _); [|done]. simpl. by intros [= <-].
Qed.

Lemma exec_gens_mono s : clearfree s → ∀ r ev r',
  exec s r = Ok (ev, r') → ∀ (i : nat) g,
  m_generations r !! i = Some g → ∃ g', m_generations r' !! i = Some g' ∧ g ≤ g'.
Proof.
  induction 1 as [|k Hk IH|id k Hk IH|key id v k Hk IH|key id k Hk IH|id k Hk IH|key id k Hk IH];
    intros r ev r' Hex i g Hg; simpl in Hex.
  - injection Hex as _ <-. eauto with lia.
  - apply bind_Ok_inv in Hex as ([e r1] & Hc & Hex).
    apply exec_tail_Ok in Hex as (ev' & Hex & _).
    destruct (CreateEntity_Ok_inv _ _ _ Hc) as (_ & _ & _ & Hmono & _).
    eapply IH; [done|]. by apply Hmono.
  - apply bind_Ok_inv in Hex as (r1 & Hd & Hex).
    apply exec_tail_Ok in Hex as (ev' & Hex & _).
    destruct (DestroyEntity_gens_mono _ _ _ Hd _ _ Hg) as (g1 & Hg1 & Hle).
    destruct (IH _ _ _ Hex _ _ Hg1) as (g' & Hg' & Hle'). eauto with lia.
  - apply bind_Ok_inv in Hex as (r1 & Ha & Hex).
    apply exec_tail_Ok in Hex as (ev' & Hex & _).
    eapply IH; [done|]. by rewrite (AddComponent_gens _ _ _ _ _ Ha).
  - apply bind_Ok_inv in Hex as (r1 & Hrm & Hex).
    apply exec_tail_Ok in Hex as (ev' & Hex & _).
    eapply IH; [done|]. by rewrite (RemoveComponent_gens _ _ _ _ Hrm).
  - by eapply IH.
  - by eapply IH.
Qed.

(** *** A registry filled by [CreateEntity] alone *)

Lemma CreateEntity_populated (n : nat) :
  Z.of_nat n < 2 ^ 32 →
  CreateEntity (populated n : Registry T)
  = Ok (MakeEntity (Z.of_nat n) 0,
        mkRegistry ((Z.of_nat <$> seq 0 n) ++ [MakeEntity (Z.of_nat n) 0])
                   (replicate (S n) 0) [] []).
Proof.
  intros Hn. unfold CreateEntity, populated. cbn [m_freeList m_generations m_alive m_pools].
  unfold vsize. rewrite length_replicate, u32_small by lia.
  rewrite (vec_at_ok _ _ 0); [|lia|].
  - cbn [mbind result_bind]. by rewrite <- replicate_S_end.
  - rewrite Nat2Z.id, lookup_app_r by by rewrite length_replicate.
    by rewrite length_replicate, Nat.sub_diag.
Qed.

Lemma MakeEntity_small idx : 0 ≤ idx < 2 ^ 20 → MakeEntity idx 0 = idx.
Proof.
  intros Hi. rewrite MakeEntity_add. change (0 `mod` 2 ^ 12) with 0.
  rewrite Z.mod_small by done. lia.
Qed.

Lemma exec_populate (m : nat) : ∀ n : nat,
  Z.of_nat (n + m) ≤ 2 ^ 20 →
  ∃ ev, exec (populate m Return) (populated n : Registry T)
        = Ok (ev, populated (n + m)).
Proof.
  induction m as [|m IH]; intros n Hn.
  - exists []. simpl. by rewrite Nat.add_0_r.
  - cbn [populate exec]. rewrite CreateEntity_populated by lia.
    rewrite MakeEntity_small by lia. cbn [mbind result_bind].
    replace (mkRegistry _ _ _ _) with (populated (S n) : Registry T).
    2:{ unfold populated. by rewrite seq_S, fmap_snoc. }
    destruct (IH (S n)) as [ev Hev]; [lia|]. rewrite Hev. cbn [mbind result_bind].
    replace (S n + m)%nat with (n + S m)%nat by lia. eauto.
Qed.

Lemma populated_reachable (n : nat) :
  Z.of_nat n ≤ 2 ^ 20 → reachable (populated n : Registry T).
Proof.
  intros Hn. destruct (exec_populate n 0) as [ev Hev]; [lia|].
  exists (populate n Return), ev. done.
Qed.

(** *** Entity lifecycle *)

(** Below the two field widths the handle that [CreateEntity] returns is
    alive. *)
Lemma CreateEntity_alive r e r' :
  CreateEntity r = Ok (e, r') →
  next_slot r < 2 ^ 20 →
  (∀ g, m_generations r' !! Z.to_nat (next_slot r) = Some g → 0 ≤ g < 2 ^ 12) →
  IsAlive e r' = true.
Proof.
  intros Hc Hslot Hgen.
  destruct (CreateEntity_Ok_inv _ _ _ Hc) as (_ & _ & _ & _ & _ & _ & g & Hg & H0 & ->).
  pose proof (Hgen _ Hg) as Hgb. apply IsAlive_true.
  rewrite EntityIndex_MakeEntity, EntityGeneration_MakeEntity.
  by rewrite !Z.mod_small by lia.
Qed.

(** C2 (generational safety), as the code has it.  For a live handle
    [e]: after [DestroyEntity(e)], [IsAlive(e)] is false; and when, after
    any further calls other than [Clear], a [CreateEntity] takes [e]'s
    slot from the free list while the generation stored for that slot is
    below [2^12], the handle [e2] it returns differs from [e], is alive,
    and [e] is still not alive. *)
Theorem generational_safety r e r1 s ev r2 e2 r3 :
  IsAlive e r = true →
  DestroyEntity e r = Ok r1 →
  clearfree s → exec s r1 = Ok (ev, r2) →
  head (m_freeList r2) = Some (EntityIndex e) →
  (∀ g, m_generations r2 !! Z.to_nat (EntityIndex e) = Some g → g < 2 ^ 12) →
  CreateEntity r2 = Ok (e2, r3) →
  IsAlive e r1 = false ∧ e2 ≠ e ∧ IsAlive e2 r3 = true ∧ IsAlive e r3 = false.
Proof.
  intros Halive Hd Hcf Hex Hhead Hgen Hc.
  pose proof (EntityIndex_bound e) as Hib. pose proof (EntityGeneration_bound e) as Hgb.
  destruct (DestroyEntity_alive_inv _ _ _ Halive Hd) as (_ & Hg1 & _).
  apply IsAlive_true in Halive. pose proof (lookup_lt_Some _ _ _ Halive) as Hlt.
  assert (m_generations r1 !! Z.to_nat (EntityIndex e) = Some (EntityGeneration e + 1))
    as Hbump by (rewrite Hg1; by apply list_lookup_insert_eq).
  destruct (exec_gens_mono s Hcf _ _ _ Hex _ _ Hbump) as (g2 & Hg2 & Hle).
  pose proof (Hgen _ Hg2) as Hg2b.
  destruct (CreateEntity_Ok_inv _ _ _ Hc) as (_ & _ & _ & _ & Hsame & _ & g & Hg & _ & ->).
  assert (next_slot r2 = EntityIndex e) as Hslot.
  { unfold next_slot. destruct (m_freeList r2); simpl in Hhead; congruence. }
  assert (m_generations r3 = m_generations r2) as Hgens.
  { apply Hsame. destruct (m_freeList r2); simpl in Hhead; congruence. }
  rewrite Hslot, Hgens, Hg2 in Hg. injection Hg as <-.
  assert (EntityGeneration (MakeEntity (EntityIndex e) g2) = g2) as HG.
  { rewrite EntityGeneration_MakeEntity. apply Z.mod_small. lia. }
  assert (EntityIndex (MakeEntity (EntityIndex e) g2) = EntityIndex e) as HI.
  { rewrite EntityIndex_MakeEntity. apply Z.mod_small. lia. }
  rewrite Hslot. split; [|split; [|split]].
  - by eapply IsAlive_after_bump.
  - intros Heq. rewrite Heq in HG. lia.
  - apply IsAlive_true. by rewrite HI, HG, Hgens.
  - apply not_true_iff_false. rewrite IsAlive_true, Hgens, Hg2. intros [= ?]. lia.
Qed.

Lemma DestroyEntity_twice r (h : EntityId) r1 :
  DestroyEntity h r = Ok r1 → DestroyEntity h r1 = Ok r1.
Proof.
  intros Hd. apply DestroyEntity_dead. destruct (IsAlive h r) eqn:Halive.
  - destruct (DestroyEntity_alive_inv _ _ _ Halive Hd) as (_ & Hg & _).
    by eapply IsAlive_after_bump.
  - rewrite DestroyEntity_dead in Hd by done. by injection Hd as <-.
Qed.

(** C7 (idempotent destroy).  For every registry state and every handle,
    the state a [DestroyEntity] leaves is left unchanged by a second
    [DestroyEntity] of the same handle: generation table, free list, live
    list and pools stay as they are.  In a reachable state the first call
    does return. *)
Theorem DestroyEntity_idempotent r (h : EntityId) :
  (∀ r1, DestroyEntity h r = Ok r1 → DestroyEntity h r1 = Ok r1)
  ∧ (reachable r → ∃ r1, DestroyEntity h r = Ok r1 ∧ DestroyEntity h r1 = Ok r1).
Proof.
  split; [intros r1; apply DestroyEntity_twice|].
  intros Hr%reachable_RegWF.
  destruct (DestroyEntity_WF h r Hr) as (r1 & Hd & _).
  exists r1. split; [done|]. by eapply DestroyEntity_twice.
Qed.

(** C9, as the code has it.  [CreateEntity] always succeeds and checks no
    capacity: the handle it returns carries the slot index reduced modulo
    [2^20], whatever the slot index is. *)
Theorem CreateEntity_total r :
  reachable r →
  ∃ e r', CreateEntity r = Ok (e, r')
          ∧ EntityIndex e = next_slot r `mod` 2 ^ 20
          ∧ e ∈ m_alive r'.
Proof.
  intros Hr%reachable_RegWF.
  destruct (CreateEntity_WF r Hr) as (e & r' & Hc & _). exists e, r'.
  destruct (CreateEntity_Ok_inv _ _ _ Hc) as (_ & Ha & _ & _ & _ & _ & g & _ & _ & ->).
  split_and!; [done|apply EntityIndex_MakeEntity|].
  rewrite Ha. apply elem_of_app. right. by left.
Qed.

(** *** Queries *)

(** C3 (query completeness).  In every reachable state, with a visitor
    that changes nothing, [View<A,B>] invokes the visitor exactly once
    for each live handle that owns both [A] and [B] and for nothing else;
    that holds whichever pool is the smaller, and [View<B,A>] visits the
    same handles. *)
Theorem View_pair_complete (A B : TypeKey) fn r :
  reachable r → (∀ id cs, readonly (fn id cs)) →
  ∃ ev, View [A; B] fn r = Ok (ev, r)
    ∧ NoDup (visited ev)
    ∧ (∀ e, e ∈ visited ev ↔
         is_handle e ∧ IsAlive e r = true
         ∧ HasComponent A e r = true ∧ HasComponent B e r = true)
    ∧ ∃ ev', View [B; A] fn r = Ok (ev', r) ∧ visited ev' ≡ₚ visited ev.
Proof.
  intros Hr%reachable_RegWF Hro.
  destruct (View_pair_readonly A B fn r Hro Hr) as (ev & Hev & Hnd & Hin).
  destruct (View_pair_readonly B A fn r Hro Hr) as (ev' & Hev' & Hnd' & Hin').
  exists ev. split_and!; [done..| |].
  - intros e. rewrite Hin. by apply owners_char.
  - exists ev'. split; [done|]. apply NoDup_Permutation; [done..|].
    intros e. rewrite Hin, Hin'. split; intros (idx & ? & ? & ?); eauto.
Qed.

(** C8 (missing pool).  When one of the listed types never had a pool
    created, [FindSmallestPool] returns null and [View] returns at once:
    the visitor is not invoked and no pool is walked. *)
Theorem View_missing_pool (keys : list TypeKey) key fn r :
  key ∈ keys → PoolPtr key r = None →
  FindSmallestPool keys r = None ∧ View keys fn r = Ok ([], r).
Proof.
  intros Hin Hnone.
  assert (FindSmallestPool keys r = None) as Hf by by eapply find_smallest_missing.
  split; [done|]. unfold View. by rewrite Hf.
Qed.

(** C4, as the code has it.  [Each] re-checks neither aliveness nor
    membership: it skips an index of the snapshot only when the index is
    at or beyond the end of the generation table, and calls [Get] on
    every other index, held or not.  When no callback of the call takes a
    component of the iterated type away (no [DestroyEntity], no
    [RemoveComponent] of that type, no [Clear]), the precondition of
    [Get] holds at every visit: the call fails neither the assertion of
    [Get] nor a bounds check. *)
Theorem Each_get_precondition key fn r :
  reachable r → (∀ id cs, keeps key (fn id cs)) →
  (∀ f, Each key fn r = Fault f → f = EntityNotAlive ∨ f = EmplaceOwned)
  ∧ (∀ idx rest r0, vsize (m_generations r0) ≤ idx →
       Each_loop key fn (idx :: rest) r0 = Each_loop key fn rest r0)
  ∧ (∀ idx rest r0, 0 ≤ idx < vsize (m_generations r0) →
       HasAt key idx r0 = false →
       Each_loop key fn (idx :: rest) r0 = Fault GetAbsent).
Proof.
  intros Hr%reachable_RegWF Hfn. split_and!.
  - by apply Each_keeps.
  - intros. by apply Each_loop_skip.
  - intros. by apply Each_loop_absent.
Qed.

(** C6 (snapshot isolation), as the code has it.  When no callback of the
    call takes a component of type [A] away (no [DestroyEntity], no
    [RemoveComponent<A>], no [Clear]), an entity that a callback of
    [Each<A>] creates and attaches [A] to is not visited in that call. *)
Theorem Each_snapshot_isolation (A : TypeKey) fn r ev r' (e : EntityId) :
  reachable r → (∀ id cs, keeps A (fn id cs)) →
  Each A fn r = Ok (ev, r') →
  Created e ∈ ev → Attached A e ∈ ev →
  e ∉ visited ev.
Proof.
  intros Hr%reachable_RegWF Hfn Hev _ Hatt.
  destruct (Each_keeps A fn r Hfn Hr) as [_ Hok]. by eapply Hok.
Qed.

End WithPayload.
End RegistryFacts.

(** ** The examples *)

Module ScenarioFacts.
Import Pool PoolFacts Registry RegistryFacts Scenario.

Lemma world_reachable : reachable world.
Proof. exists setup. eexists. vm_compute. reflexivity. Qed.

Lemma one_reachable : reachable one.
Proof. exists (CallCreateEntity (fun _ => Return)). eexists. vm_compute. reflexivity. Qed.

Lemma reused_reachable : reachable reused.
Proof. exists reuse. eexists. vm_compute. reflexivity. Qed.

Lemma capacity_Z : Z.of_nat capacity = 2 ^ 20.
Proof. unfold capacity. by rewrite Z2Nat.id. Qed.

Lemma full_reachable : reachable full.
Proof. apply populated_reachable. by rewrite capacity_Z. Qed.

(** The scenario of the specification: [View<A,B>] visits the first and
    the third entity. *)
Example View_world :
  visited (events (View [A; B] look world)) = [0; 2].
Proof. vm_compute. reflexivity. Qed.

(** After [DestroyEntity] of the second entity, [Each<A>] visits the first
    and the third; an entity created then takes the slot of the second
    with a new handle, and the old handle stays dead. *)
Example Each_after_destroy :
  (DestroyEntity 1 world ≫= λ r1,
   Each A look r1 ≫= λ '(ev, _),
   CreateEntity r1 ≫= λ '(e, r2),
   Ok (visited ev, e, IsAlive e r2, IsAlive 1 r2))
  = Ok ([0; 2], 1048577, true, false).
Proof. vm_compute. reflexivity. Qed.

Example pool_demo :
  run_ops Pool.empty
    [OpEmplace 3 10%nat; OpEmplace 1 11%nat; OpEmplace 5 12%nat; OpRemove 3]
  = Ok (mkPool [EMPTY; 1; EMPTY; EMPTY; EMPTY; 0] [5; 1] [12%nat; 11%nat]).
Proof. vm_compute. reflexivity. Qed.

(** *** Where the code departs from the specification *)

(** C2 as it is stated fails once a slot has been destroyed [2^12]
    times.  The first entity [e] (slot 0, generation 0) is destroyed, the
    slot is recycled 4095 more times, and the next [CreateEntity] takes
    the slot from the free list: the handle [e2] it returns is [e] again,
    and it is not alive. *)
Lemma generational_safety_fails_at_wrap :
  (CreateEntity (Registry.empty : Registry unit) ≫= λ '(e, ra),
   DestroyEntity e ra ≫= λ r1,
   exec (recycle 4095 Return) r1 ≫= λ '(_, r2),
   CreateEntity r2 ≫= λ '(e2, r3),
   Ok (e, IsAlive e ra, IsAlive e r1, head (m_freeList r2), e2, IsAlive e2 r3))
  = Ok (0, true, false, Some 0, 0, false).
Proof. vm_compute. reflexivity. Qed.

(** C1 as it is stated fails at the index [0xFFFFFFFF].  After two
    calls of [Emplace] the pool does not hold that index, so a third
    [Emplace] on it is one the claim allows.  There [entityIdx + 1] wraps
    to 0, [resize] empties [m_sparse], the assertion passes and the write
    [m_sparse[entityIdx]] is out of bounds: the sequence has no final
    state in which the invariant could hold. *)
Lemma Emplace_sentinel_out_of_bounds :
  run_ops Pool.empty [OpEmplace 3 10%nat; OpEmplace 1 11%nat]
  = Ok (mkPool [EMPTY; 1; EMPTY; 0] [3; 1] [10%nat; 11%nat])
  ∧ Has (mkPool [EMPTY; 1; EMPTY; 0] [3; 1] [10%nat; 11%nat]) 4294967295 = false
  ∧ run_ops Pool.empty
      [OpEmplace 3 10%nat; OpEmplace 1 11%nat; OpEmplace 4294967295 12%nat]
    = Fault OutOfBounds.
Proof.
  assert (run_ops Pool.empty [OpEmplace 3 10%nat; OpEmplace 1 11%nat]
          = Ok (mkPool [EMPTY; 1; EMPTY; 0] [3; 1] [10%nat; 11%nat])) as Hrun
    by (vm_compute; reflexivity).
  split; [exact Hrun|]. split.
  - unfold Has. rewrite bool_decide_eq_false_2; [done|].
    unfold vsize. simpl. lia.
  - change [OpEmplace 3 10%nat; OpEmplace 1 11%nat; OpEmplace 4294967295 12%nat]
      with ([OpEmplace 3 10%nat; OpEmplace 1 11%nat] ++ [OpEmplace 4294967295 12%nat]).
    rewrite run_ops_app, Hrun. cbn [mbind result_bind run_ops apply_op].
    rewrite Emplace_at_EMPTY; [done|].
    by apply (run_ops_Ok _ _ _ WF_empty Hrun).
Qed.

(** C5: after 4096 create/destroy cycles of slot 0 the generation table
    holds 4096 for the slot, [CreateEntity] returns the handle with
    generation field 0, and [IsAlive] of that handle is false. *)
Theorem CreateEntity_dead_after_wrap :
  (exec (recycle 4096 Return) (Registry.empty : Registry unit) ≫= λ '(_, r),
   CreateEntity r ≫= λ '(e, r'),
   Ok (e, EntityGeneration e, m_generations r', IsAlive e r'))
  = Ok (0, 0, [4096], false).
Proof. vm_compute. reflexivity. Qed.

(** C4 as it is stated fails: the visitor destroys the second entity
    while the first is visited, and [Each<A>] then calls [Get] on the
    index of the second, which the pool no longer holds. *)
Lemma Each_destroy_reaches_Get :
  Each A destroy_second world = Fault GetAbsent.
Proof. vm_compute. reflexivity. Qed.

(** C6 as it is stated fails: the visitor destroys the second entity,
    creates a new one, which takes the freed slot, and attaches [A] to
    it; the new entity, handle 1048577, is visited in the same call. *)
Lemma Each_visits_respawned :
  events (Each A respawn world)
  = [Visited 0; Destroyed 1; Created 1048577; Attached A 1048577;
     Visited 1048577; Visited 2].
Proof. vm_compute. reflexivity. Qed.

(** C9 as it is stated fails: with [2^20] entities alive the next
    [CreateEntity] needs the slot [2^20]; it reports nothing and returns
    the handle 0, which is the handle of the live entity in slot 0. *)
Lemma CreateEntity_wraps_at_capacity :
  reachable full
  ∧ next_slot full = 2 ^ 20
  ∧ IsAlive 0 full = true ∧ 0 ∈ m_alive full
  ∧ ∃ r', CreateEntity full = Ok (0, r').
Proof.
  split_and!.
  - apply full_reachable.
  - unfold next_slot, full, populated. cbn [m_freeList m_generations].
    unfold vsize. by rewrite length_replicate, capacity_Z.
  - apply IsAlive_true. unfold full, populated. cbn [m_generations].
    change (Z.to_nat (EntityIndex 0)) with 0%nat. change (EntityGeneration 0) with 0.
    apply lookup_replicate_2. unfold capacity. lia.
  - unfold full, populated. cbn [m_alive]. apply list_elem_of_fmap.
    exists 0%nat. split; [done|]. apply elem_of_seq. unfold capacity. lia.
  - eexists. unfold full. rewrite CreateEntity_populated by (rewrite capacity_Z; lia).
    rewrite capacity_Z. change (MakeEntity (2 ^ 20) 0) with 0. reflexivity.
Qed.


(** *** The theorems at work *)

Lemma pool_density_invariant_witness :
  density (mkPool [EMPTY; 1; EMPTY; EMPTY; EMPTY; 0] [5; 1] [12%nat; 11%nat])
  ∧ ∃ p, run_ops Pool.empty
           [OpEmplace 3 10%nat; OpEmplace 1 11%nat; OpEmplace 5 12%nat; OpRemove 3]
         = Ok p ∧ density p.
Proof.
  split.
  - apply (proj1 (pool_density_invariant
      [OpEmplace 3 10%nat; OpEmplace 1 11%nat; OpEmplace 5 12%nat; OpRemove 3])).
    vm_compute. reflexivity.
  - apply (proj2 (pool_density_invariant
      [OpEmplace 3 10%nat; OpEmplace 1 11%nat; OpEmplace 5 12%nat; OpRemove 3])).
    simpl. repeat (split; [by vm_compute|]; intros ? H; vm_compute in H; injection H as <-).
    exact I.
Defined.

Lemma generational_safety_witness :
  IsAlive 0 gone = false ∧ 1048576 ≠ 0
  ∧ IsAlive 1048576 back = true ∧ IsAlive 0 back = false.
Proof.
  apply (generational_safety one 0 gone Return [] gone 1048576 back).
  - reflexivity.
  - reflexivity.
  - constructor.
  - reflexivity.
  - reflexivity.
  - intros g H. vm_compute in H. injection H as <-. reflexivity.
  - reflexivity.
Defined.

Lemma View_pair_complete_witness :
  ∃ ev, View [A; B] look world = Ok (ev, world)
    ∧ NoDup (visited ev)
    ∧ (∀ e, e ∈ visited ev ↔
         is_handle e ∧ IsAlive e world = true
         ∧ HasComponent A e world = true ∧ HasComponent B e world = true)
    ∧ ∃ ev', View [B; A] look world = Ok (ev', world) ∧ visited ev' ≡ₚ visited ev.
Proof.
  apply (View_pair_complete A B look world).
  - exists setup. eexists. vm_compute. reflexivity.
  - intros id cs. constructor.
Defined.

Lemma Each_get_precondition_witness :
  (∀ f, Each A spawn world = Fault f → f = EntityNotAlive ∨ f = EmplaceOwned)
  ∧ (∀ idx rest r0, vsize (m_generations r0) ≤ idx →
       Each_loop A spawn (idx :: rest) r0 = Each_loop A spawn rest r0)
  ∧ (∀ idx rest r0, 0 ≤ idx < vsize (m_generations r0) →
       HasAt A idx r0 = false →
       Each_loop A spawn (idx :: rest) r0 = Fault GetAbsent).
Proof.
  apply (Each_get_precondition A spawn world).
  - exists setup. eexists. vm_compute. reflexivity.
  - intros id cs. unfold spawn. destruct (decide (id = 0)); repeat constructor.
Defined.

Lemma Each_snapshot_isolation_witness :
  Created 3 ∈ events spawned ∧ Attached A 3 ∈ events spawned
  ∧ 3 ∉ visited (events spawned).
Proof.
  split_and!.
  - vm_compute. repeat constructor.
  - vm_compute. repeat constructor.
  - apply (Each_snapshot_isolation A spawn world (events spawned)
             (final spawned Registry.empty) 3).
    + exists setup. eexists. vm_compute. reflexivity.
    + intros id cs. unfold spawn. destruct (decide (id = 0)); repeat constructor.
    + vm_compute. reflexivity.
    + vm_compute. repeat constructor.
    + vm_compute. repeat constructor.
Defined.

Lemma DestroyEntity_idempotent_witness :
  DestroyEntity 0 gone = Ok gone
  ∧ ∃ r1, DestroyEntity 1 world = Ok r1 ∧ DestroyEntity 1 r1 = Ok r1.
Proof.
  split.
  - apply (proj1 (DestroyEntity_idempotent one 0) gone). reflexivity.
  - apply (proj2 (DestroyEntity_idempotent world 1)).
    exists setup. eexists. vm_compute. reflexivity.
Defined.

Lemma View_missing_pool_witness :
  FindSmallestPool [A; C] world = None ∧ View [A; C] look world = Ok ([], world).
Proof.
  apply (View_missing_pool [A; C] C look world).
  - repeat constructor.
  - reflexivity.
Defined.

Lemma CreateEntity_total_witness :
  ∃ e r', CreateEntity world = Ok (e, r')
          ∧ EntityIndex e = next_slot world `mod` 2 ^ 20
          ∧ e ∈ m_alive r'.
Proof.
  apply (CreateEntity_total world).
  exists setup. eexists. vm_compute. reflexivity.
Defined.

End ScenarioFacts.

(** * Further properties of the code *)

(** ** Entity.hpp *)

Section EntityLaws.
Implicit Types (id idx gen : Z).

(** X1.  [EntityIndex] and [EntityGeneration] read back what [MakeEntity]
    packed, each field cut to its width: an index below [2^20] and a
    generation below [2^12] come back unchanged, anything larger is
    truncated.  The handle is a 32-bit value. *)
Theorem MakeEntity_fields idx gen :
  EntityIndex (MakeEntity idx gen) = idx `mod` 2 ^ 20
  ∧ EntityGeneration (MakeEntity idx gen) = gen `mod` 2 ^ 12
  ∧ 0 ≤ MakeEntity idx gen < 2 ^ 32
  ∧ (0 ≤ idx < 2 ^ 20 → EntityIndex (MakeEntity idx gen) = idx)
  ∧ (0 ≤ gen < 2 ^ 12 → EntityGeneration (MakeEntity idx gen) = gen).
Proof.
  split; [|split; [|split; [|split]]].
  - apply EntityIndex_MakeEntity.
  - apply EntityGeneration_MakeEntity.
  - apply MakeEntity_is_handle.
  - intros H. rewrite EntityIndex_MakeEntity. by apply Z.mod_small.
  - intros H. rewrite EntityGeneration_MakeEntity. by apply Z.mod_small.
Qed.

(** X2.  A 32-bit handle is determined by its two fields: packing the
    index and the generation of a handle gives the handle back, so two
    handles with the same index and the same generation are equal. *)
Theorem handle_determined_by_fields (a b : EntityId) :
  0 ≤ a < 2 ^ 32 → 0 ≤ b < 2 ^ 32 →
  MakeEntity (EntityIndex a) (EntityGeneration a) = a
  ∧ (EntityIndex a = EntityIndex b → EntityGeneration a = EntityGeneration b → a = b).
Proof.
  intros Ha Hb. split; [by apply MakeEntity_eta|].
  intros Hi Hg. rewrite <- (MakeEntity_eta a), <- (MakeEntity_eta b) by done.
  by rewrite Hi, Hg.
Qed.

(** X3.  [MakeEntity] yields [INVALID_ENTITY] exactly for the last index
    with the last generation: a handle made for any other slot or
    generation is not the sentinel. *)
Theorem MakeEntity_invalid idx gen :
  MakeEntity idx gen = INVALID_ENTITY
  ↔ idx `mod` 2 ^ 20 = 2 ^ 20 - 1 ∧ gen `mod` 2 ^ 12 = 2 ^ 12 - 1.
Proof.
  rewrite MakeEntity_add. unfold INVALID_ENTITY.
  pose proof (Z.mod_pos_bound gen (2 ^ 12)). pose proof (Z.mod_pos_bound idx (2 ^ 20)).
  lia.
Qed.

End EntityLaws.

(** ** ComponentPool.hpp *)

Module PoolLaws.
Import Pool PoolFacts.
Section WithPayload.
Context {T : Type}.
Implicit Types (p : ComponentPool T) (idx : Z) (v c : T).

Lemma built_WF p : built p → WF p.
Proof. intros [ops Hops]. by apply (run_ops_Ok ops _ _ WF_empty Hops). Qed.

(** [Get] reads [data] at the position that [sparse] records. *)
Lemma Get_at p idx (d : Z) :
  0 ≤ idx → m_sparse p !! Z.to_nat idx = Some d → d ≠ EMPTY →
  Get p idx = vec_at (m_data p) d.
Proof.
  intros H0 Hd Hne. unfold Get.
  assert (Has p idx = true) as -> by (apply Has_true; eauto).
  by rewrite (vec_at_ok _ _ _ H0 Hd).
Qed.

Lemma Has_sparse p idx :
  Has p idx = true →
  0 ≤ idx ∧ ∃ d, m_sparse p !! Z.to_nat idx = Some d ∧ d ≠ EMPTY.
Proof. by intros ?%Has_true. Qed.

(** The sparse array after an [Emplace]. *)
Lemma Emplace_Ok_sparse p idx v p' :
  WF p → Emplace p idx v = Ok p' →
  m_sparse p' !! Z.to_nat idx = Some (vsize (m_dense p))
  ∧ vsize (m_dense p) ≠ EMPTY
  ∧ (∀ (e : nat) (d : Z), m_sparse p !! e = Some d → d ≠ EMPTY →
       m_sparse p' !! e = Some d).
Proof.
  intros Hwf He.
  destruct (Emplace_Ok _ _ _ _ Hwf He) as (Hidx & Hnot & Hwf' & Hdense & Hdata & Hhas).
  pose proof (WF_dense_le _ Hwf') as Hle'. rewrite Hdense, length_app in Hle'. simpl in Hle'.
  pose proof Hwf' as (_ & Hcap' & Hd' & _).
  assert (m_sparse p' !! Z.to_nat idx = Some (vsize (m_dense p))) as Hnew.
  { destruct (Hd' (length (m_dense p)) idx) as [_ H].
    - rewrite Hdense, lookup_app_r by done. by rewrite Nat.sub_diag.
    - done. }
  split_and!; [done|unfold vsize, EMPTY in *; lia|].
  intros e d Hed Hne.
  assert (Has p (Z.of_nat e) = true) as Hhe.
  { apply Has_true. split; [lia|]. rewrite Nat2Z.id. eauto. }
  assert (Has p' (Z.of_nat e) = true) as Hhe' by (apply Hhas; by left).
  apply Has_true in Hhe' as [_ (d' & Hd'e & Hne')]. rewrite Nat2Z.id in Hd'e.
  rewrite Hd'e. f_equal.
  (* both [d] and [d'] are the dense position of [e] *)
  destruct Hwf as (_ & _ & _ & Hs). destruct (Hs _ _ Hed Hne) as [Hd0 Hin].
  destruct Hwf' as (_ & _ & Hdd & Hs'). destruct (Hs' _ _ Hd'e Hne') as [Hd0' Hin'].
  assert (m_dense p' !! Z.to_nat d = Some (Z.of_nat e)) as Hin2.
  { rewrite Hdense. by apply lookup_app_l_Some. }
  destruct (Hdd _ _ Hin2) as [_ H2]. rewrite Nat2Z.id, Hd'e in H2.
  injection H2. lia.
Qed.

Lemma Emplace_Get_WF p idx v p' :
  WF p → Emplace p idx v = Ok p' →
  Get p' idx = Ok v
  ∧ Size p' = Size p + 1
  ∧ (∀ j, Has p j = true → Has p' j = true ∧ Get p' j = Get p j).
Proof.
  intros Hwf He.
  destruct (Emplace_Ok _ _ _ _ Hwf He) as (Hidx & Hnot & Hwf' & Hdense & Hdata & Hhas).
  destruct (Emplace_Ok_sparse _ _ _ _ Hwf He) as (Hnew & Hne & Hold).
  pose proof Hwf as (Hlen & _ & _ & Hs).
  split; [|split].
  - rewrite (Get_at _ _ _ (proj1 Hidx) Hnew Hne), Hdata. apply vec_at_ok; [unfold vsize; lia|].
    unfold vsize. rewrite Nat2Z.id, Hlen, lookup_app_r by done. by rewrite Nat.sub_diag.
  - unfold Size, vsize. rewrite Hdense, length_app. simpl. lia.
  - intros j Hj. split; [apply Hhas; by left|].
    apply Has_sparse in Hj as (Hj0 & d & Hd & Hdne).
    rewrite (Get_at p' _ d Hj0 (Hold _ _ Hd Hdne) Hdne), (Get_at p _ d Hj0 Hd Hdne).
    destruct (Hs _ _ Hd Hdne) as [Hd0 Hin]. apply lookup_lt_Some in Hin.
    unfold vec_at. rewrite !decide_True by done.
    rewrite Hdata, lookup_app_l by lia. done.
Qed.

(** X4.  On a pool built by [Emplace] and [Remove], a successful
    [Emplace(idx, v)] makes [Get(idx)] return [v], adds one to [Size()],
    and leaves what [Get] returns for every index the pool already held. *)
Theorem Emplace_then_Get p idx v p' :
  built p → Emplace p idx v = Ok p' →
  Get p' idx = Ok v
  ∧ Size p' = Size p + 1
  ∧ (∀ j, Has p j = true → Has p' j = true ∧ Get p' j = Get p j).
Proof. intros Hwf%built_WF. by apply Emplace_Get_WF. Qed.

(** X5.  [EntityIndices()] of a built pool lists every index the pool
    holds, each once, and nothing else; [Size()] is their number, and
    [Components()] is as long. *)
Theorem EntityIndices_owners p :
  built p →
  NoDup (EntityIndices p)
  ∧ (∀ j, j ∈ EntityIndices p ↔ Has p j = true)
  ∧ Size p = vsize (EntityIndices p)
  ∧ vsize (Components p) = Size p.
Proof.
  intros Hwf%built_WF. split_and!.
  - by apply WF_dense_NoDup.
  - intros j. symmetry. by apply WF_Has_dense.
  - done.
  - unfold Components, Size, vsize. by destruct Hwf as (-> & _).
Qed.

Lemma Emplace_owned_WF p idx v :
  WF p → Has p idx = true → Emplace p idx v = Fault EmplaceOwned.
Proof.
  intros Hwf Hh. destruct (Emplace p idx v) as [p'|f] eqn:He.
  - destruct (Emplace_Ok _ _ _ _ Hwf He) as (_ & Hnot & _). congruence.
  - f_equal. apply Has_sparse in Hh as (H0 & d & Hd & _). apply lookup_lt_Some in Hd.
    destruct Hwf as (? & Hcap & ?).
    apply (RegistryFacts.Emplace_fault p idx v f); [done| |done].
    unfold vsize, EMPTY in *. lia.
Qed.

(** X6.  On a built pool, [Emplace] on an index the pool already holds
    fails its assertion, whatever the value. *)
Theorem Emplace_owned p idx v :
  built p → Has p idx = true → Emplace p idx v = Fault EmplaceOwned.
Proof. intros Hwf%built_WF. by apply Emplace_owned_WF. Qed.

(** X7.  On a built pool [Get] succeeds exactly on the indices the pool
    holds, and what it returns is one of [Components()]; on any other
    index it fails its assertion. *)
Theorem Get_held p idx :
  built p →
  (Has p idx = true → ∃ c, Get p idx = Ok c ∧ c ∈ Components p)
  ∧ (Has p idx = false → Get p idx = Fault GetAbsent).
Proof.
  intros Hwf%built_WF. split; [|apply Get_absent].
  intros Hh. destruct (Get_Has p idx Hwf Hh) as [c Hc]. exists c. split; [done|].
  apply Has_sparse in Hh as (H0 & d & Hd & Hne).
  rewrite (Get_at _ _ _ H0 Hd Hne) in Hc. apply vec_at_Ok_inv in Hc as [_ Hc].
  by eapply list_elem_of_lookup_2.
Qed.

(** X8.  [Emplace] cannot take the index [0xFFFFFFFF]: [entityIdx + 1]
    wraps to 0, the sparse array is resized to nothing, and the write to
    it is out of bounds. *)
Theorem Emplace_last_index p v :
  built p → Emplace p 4294967295 v = Fault OutOfBounds.
Proof.
  intros (_ & Hcap & _)%built_WF. unfold Emplace.
  rewrite decide_True by (unfold EMPTY in Hcap; lia).
  change (Z.to_nat (u32 (4294967295 + 1))) with 0%nat. rewrite resize_0.
  rewrite Has_no_sparse by done. unfold vec_set.
  rewrite decide_False by (unfold vsize; simpl; lia). done.
Qed.

(** What [Remove] computes on an index the pool holds: the two cases of
    its [if]. *)
Lemma Remove_held p idx :
  WF p → Has p idx = true →
  ∃ (d : nat) (lastE : Z) (moved : T),
    m_sparse p !! Z.to_nat idx = Some (Z.of_nat d)
    ∧ m_dense p !! d = Some idx
    ∧ m_dense p !! (length (m_dense p) - 1)%nat = Some lastE
    ∧ m_data p !! (length (m_dense p) - 1)%nat = Some moved
    ∧ Remove p idx
      = Ok (if decide (d = (length (m_dense p) - 1)%nat)
            then mkPool (<[Z.to_nat idx := EMPTY]> (m_sparse p))
                        (take (length (m_dense p) - 1) (m_dense p))
                        (take (length (m_dense p) - 1) (m_data p))
            else mkPool (<[Z.to_nat idx := EMPTY]>
                           (<[Z.to_nat lastE := Z.of_nat d]> (m_sparse p)))
                        (take (length (m_dense p) - 1) (<[d := lastE]> (m_dense p)))
                        (take (length (m_dense p) - 1) (<[d := moved]> (m_data p)))).
Proof.
  intros Hwf Hhas. unfold Remove. rewrite Hhas. simpl.
  pose proof (WF_dense_le p Hwf) as Hle.
  pose proof Hwf as (Hlen & Hcap & Hd & Hs).
  apply Has_true in Hhas as [Hidx0 (d & Hsp & Hne)].
  destruct (Hs _ _ Hsp Hne) as [Hd0 Hde]. rewrite Z2Nat.id in Hde by done.
  pose proof (lookup_lt_Some _ _ _ Hde) as Hdlt.
  pose proof (lookup_lt_Some _ _ _ Hsp) as Hidxlt.
  rewrite (vec_at_ok _ _ _ Hidx0 Hsp). simpl.
  set (n := length (m_dense p)) in *.
  assert (u32 (u32 (vsize (m_dense p)) - 1) = Z.of_nat (n - 1)) as ->.
  { unfold vsize, EMPTY in *. fold n.
    rewrite (u32_small (Z.of_nat n)) by lia. rewrite u32_small by lia. lia. }
  destruct (lookup_lt_is_Some_2 (m_dense p) (n - 1)) as [lastE HlastE]; [lia|].
  destruct (lookup_lt_is_Some_2 (m_data p) (n - 1)) as [moved Hmoved]; [lia|].
  exists (Z.to_nat d), lastE, moved. rewrite Z2Nat.id by done.
  split_and!; [done..|].
  destruct (decide (d ≠ Z.of_nat (n - 1))) as [Hdl|Hdl].
  - rewrite decide_False by lia.
    destruct (Hd _ _ HlastE) as [HlastE0 HlastEsp].
    pose proof (lookup_lt_Some _ _ _ HlastEsp) as HlastElt.
    rewrite (vec_at_ok (m_dense p) _ lastE) by (rewrite ?Nat2Z.id; done || lia).
    simpl. rewrite vec_set_ok by (unfold vsize; lia). simpl.
    rewrite (vec_at_ok (m_data p) _ moved) by (rewrite ?Nat2Z.id; done || lia).
    simpl. rewrite vec_set_ok by (unfold vsize; lia). simpl.
    rewrite vec_set_ok by (unfold vsize; lia). simpl.
    rewrite !pop_back_ok by (rewrite length_insert; lia). simpl.
    rewrite vec_set_ok by (unfold vsize; rewrite length_insert; lia). simpl.
    rewrite !length_insert. rewrite <- Hlen. by fold n.
  - rewrite decide_True by lia. simpl. rewrite !pop_back_ok by lia. simpl.
    rewrite vec_set_ok by (unfold vsize; lia). simpl. rewrite <- Hlen. by fold n.
Qed.

Lemma Remove_held_WF p idx :
  WF p → Has p idx = true →
  ∃ p', Remove p idx = Ok p'
    ∧ Has p' idx = false
    ∧ Size p' = Size p - 1
    ∧ (∀ j, j ≠ idx → Has p j = true → Has p' j = true ∧ Get p' j = Get p j).
Proof.
  intros Hwf Hhas.
  destruct (Remove_held p idx Hwf Hhas) as (d & lastE & moved & Hsp & Hde & HlastE & Hmoved & Hrm).
  destruct (Remove_Ok _ _ _ Hwf Hrm) as [Hwf' Hhas'].
  pose proof Hwf as (Hlen & Hcap & Hd & Hs).
  pose proof (lookup_lt_Some _ _ _ Hde) as Hdlt.
  pose proof (WF_dense_le p Hwf) as Hle.
  set (n := length (m_dense p)) in *.
  eexists. split; [exact Hrm|]. split; [|split].
  - apply not_true_iff_false. intros H%Hhas'. by destruct H.
  - unfold Size, vsize. destruct (decide (d = (n - 1)%nat)); simpl;
      rewrite length_take, ?length_insert; fold n; lia.
  - intros j Hji Hj. split; [by apply Hhas'|].
    apply Has_sparse in Hj as (Hj0 & x & Hx & Hxne).
    destruct (Hs _ _ Hx Hxne) as [Hx0 Hxin]. rewrite Z2Nat.id in Hxin by done.
    pose proof (lookup_lt_Some _ _ _ Hxin) as Hxlt. fold n in Hxlt.
    assert (Z.to_nat x ≠ d) as Hxd.
    { intros Heq. rewrite Heq, Hde in Hxin. injection Hxin. lia. }
    apply Has_sparse in Hhas as (Hidx0 & _).
    rewrite (Get_at p j x Hj0 Hx Hxne).
    destruct (decide (d = (n - 1)%nat)) as [Hlast|Hnl].
    + rewrite (Get_at _ j x Hj0); [|simpl; by rewrite list_lookup_insert_ne by lia|done].
      simpl. unfold vec_at. rewrite !decide_True by done.
      rewrite lookup_take_lt by lia. done.
    + destruct (Hd _ _ HlastE) as [HlastE0 HlastEsp].
      pose proof (lookup_lt_Some _ _ _ HlastEsp) as HlastElt.
      destruct (decide (Z.to_nat lastE = Z.to_nat j)) as [Heq|Hneq].
      * assert (x = Z.of_nat (n - 1)) as -> by (rewrite Heq, Hx in HlastEsp; congruence).
        rewrite (Get_at _ j (Z.of_nat d) Hj0).
        -- simpl. unfold vec_at. rewrite !decide_True by lia. rewrite !Nat2Z.id.
           rewrite lookup_take_lt by lia. rewrite list_lookup_insert_eq by lia.
           by rewrite Hmoved.
        -- simpl. rewrite list_lookup_insert_ne by lia. rewrite <- Heq.
           by rewrite list_lookup_insert_eq.
        -- unfold vsize, EMPTY in *. lia.
      * assert (Z.to_nat x ≠ (n - 1)%nat) as Hxl.
        { intros Heq. rewrite Heq, HlastE in Hxin. injection Hxin. lia. }
        rewrite (Get_at _ j x Hj0); [|simpl; by rewrite !list_lookup_insert_ne by lia|done].
        simpl. unfold vec_at. rewrite !decide_True by done.
        rewrite lookup_take_lt by lia. by rewrite list_lookup_insert_ne.
Qed.

(** Whether the pool holds [idx] or not, [Remove] leaves the other
    indices with their components. *)
Lemma Remove_Get_WF p idx p' :
  WF p → Remove p idx = Ok p' →
  ∀ j, j ≠ idx → Has p j = true → Has p' j = true ∧ Get p' j = Get p j.
Proof.
  intros Hwf Hrm j Hj Hh. destruct (Has p idx) eqn:Hi.
  - destruct (Remove_held_WF p idx Hwf Hi) as (p2 & Hrm2 & _ & _ & Hfr).
    rewrite Hrm in Hrm2. injection Hrm2 as <-. by apply Hfr.
  - rewrite Remove_absent in Hrm by done. by injection Hrm as <-.
Qed.

(** X9.  On a built pool, [Remove] of an index the pool holds succeeds,
    takes that index out, takes one off [Size()], and, although it moves
    the last component into the freed place, leaves every other index held
    with the component it had. *)
Theorem Remove_keeps_others p idx :
  built p → Has p idx = true →
  ∃ p', Remove p idx = Ok p'
    ∧ Has p' idx = false
    ∧ Size p' = Size p - 1
    ∧ (∀ j, j ≠ idx → Has p j = true → Has p' j = true ∧ Get p' j = Get p j).
Proof. intros Hwf%built_WF. by apply Remove_held_WF. Qed.

(** X10.  On a built pool, [Emplace(idx, v)] followed by [Remove(idx)]
    gives back the dense array, the components and what the pool holds;
    [sparse] may only have grown. *)
Theorem Emplace_then_Remove p idx v p1 :
  built p → Emplace p idx v = Ok p1 →
  ∃ p2, Remove p1 idx = Ok p2
    ∧ EntityIndices p2 = EntityIndices p
    ∧ Components p2 = Components p
    ∧ (∀ j, Has p2 j = Has p j)
    ∧ (length (m_sparse p) ≤ length (m_sparse p2))%nat.
Proof.
  intros Hwf%built_WF He.
  destruct (Emplace_Ok _ _ _ _ Hwf He) as (Hidx & Hnot & Hwf1 & Hdense & Hdata & Hhas1).
  destruct (Emplace_Ok_sparse _ _ _ _ Hwf He) as (Hnew & Hne & Hold).
  assert (Has p1 idx = true) as Hh1 by (apply Hhas1; by right).
  destruct (Remove_held p1 idx Hwf1 Hh1) as (d & lastE & moved & Hsp & _ & _ & _ & Hrm).
  destruct (Remove_Ok _ _ _ Hwf1 Hrm) as [_ Hhas2].
  rewrite Hnew in Hsp. injection Hsp as Hd. apply Nat2Z.inj in Hd. subst d.
  pose proof Hwf as (Hlen & _).
  rewrite decide_True in Hrm, Hhas2 by (rewrite Hdense, length_app; simpl; lia).
  assert (length (m_sparse p) ≤ length (m_sparse p1))%nat as Hgrow.
  { unfold Emplace in He.
    destruct (Has _ idx); [done|]. apply bind_Ok_inv in He as (sp2 & Hset & [= <-]).
    apply vec_set_Ok_inv in Hset as [_ ->]. simpl. rewrite length_insert.
    destruct (decide _); [|done]. rewrite length_resize.
    rewrite u32_small by (unfold EMPTY in *; lia). unfold vsize in *. lia. }
  eexists. split; [exact Hrm|]. split; [|split; [|split]].
  - unfold EntityIndices. simpl. rewrite Hdense, length_app. simpl.
    replace (length (m_dense p) + 1 - 1)%nat with (length (m_dense p)) by lia.
    by rewrite take_app_length.
  - unfold Components. simpl. rewrite Hdense, Hdata, length_app. simpl.
    replace (length (m_dense p) + 1 - 1)%nat with (length (m_dense p)) by lia.
    rewrite Hlen. by rewrite take_app_length.
  - intros j. apply eq_true_iff_eq. rewrite Hhas2, Hhas1. split.
    + intros [[?|?] ?]; done.
    + intros Hj. split; [by left|]. intros ->. congruence.
  - simpl. by rewrite length_insert.
Qed.

End WithPayload.
End PoolLaws.

(** ** Registry.hpp *)

Module RegistryLaws.
Import Pool PoolFacts PoolLaws Registry RegistryFacts.
Section WithPayload.
Context {T : Type}.
Implicit Types (r : Registry T) (p : ComponentPool T) (key : TypeKey)
  (id : EntityId) (idx : Z) (ps : list (TypeKey * ComponentPool T))
  (s : Script T) (fn : Visitor T) (ev : list Event).

(** *** Helpers *)

Lemma IsAlive_gens id r r' :
  m_generations r' = m_generations r → IsAlive id r' = IsAlive id r.
Proof. intros Hg. unfold IsAlive. by rewrite Hg. Qed.

Lemma GetComponent_inv key id r c r' :
  GetComponent key id r = Ok (c, r') →
  r' = r ∧ IsAlive id r = true
  ∧ ∃ p, PoolPtr key r = Some p ∧ Has p (EntityIndex id) = true
         ∧ Get p (EntityIndex id) = Ok c.
Proof.
  unfold GetComponent, HasComponent, Pool.
  destruct (IsAlive id r); [|done]. simpl.
  destruct (PoolPtr key r) as [p|]; [|done].
  destruct (Has p _) eqn:Hh; [|done]. simpl.
  destruct (Get p _) as [c'|] eqn:Hg; [|done]. simpl.
  intros [= <- <-]. split_and!; try done. by exists p.
Qed.

Lemma GetComponent_held key id r p c :
  IsAlive id r = true → PoolPtr key r = Some p →
  Has p (EntityIndex id) = true → Get p (EntityIndex id) = Ok c →
  GetComponent key id r = Ok (c, r).
Proof.
  intros Ha Hp Hh Hg. unfold GetComponent, HasComponent, Pool.
  rewrite Ha, Hp, Hh. simpl. by rewrite Hg.
Qed.

Lemma strip_pools_find idx : ∀ ps ps',
  strip_pools idx ps = Ok ps' → ∀ key,
  match pool_find key ps with
  | Some p => ∃ p', Remove p idx = Ok p' ∧ pool_find key ps' = Some p'
  | None => pool_find key ps' = None
  end.
Proof.
  induction ps as [|[k q] rest IH]; intros ps' Hs key; simpl in *.
  - by injection Hs as <-.
  - destruct (Remove q idx) as [q'|] eqn:Hq; [|done]. simpl in Hs.
    destruct (strip_pools idx rest) as [rest'|] eqn:Hr; [|done]. simpl in Hs.
    injection Hs as <-. simpl. destruct (decide (k = key)); [eauto|].
    by apply IH.
Qed.

Lemma AddComponent_pools key id v r r' :
  AddComponent key id v r = Ok r' →
  ∃ p', Emplace (Pool key r).1 (EntityIndex id) v = Ok p'
    ∧ ∀ key', PoolPtr key' r' = if decide (key' = key) then Some p' else PoolPtr key' r.
Proof.
  unfold AddComponent. destruct (IsAlive id r); [|done]. simpl.
  destruct (Pool key r) as [p r1] eqn:HP. simpl.
  destruct (Emplace p _ v) as [p'|] eqn:He; [|done]. simpl. intros [= <-].
  exists p'. split; [done|]. intros key'.
  replace r1 with (Pool key r).2 by by rewrite HP. apply PoolPtr_set_Pool.
Qed.

Lemma DestroyEntity_live id r :
  RegWF r → IsAlive id r = true →
  ∃ r', DestroyEntity id r = Ok r' ∧ RegWF r'
    ∧ IsAlive id r' = false
    ∧ (∀ key j, HasAt key j r' = true ↔ HasAt key j r = true ∧ j ≠ EntityIndex id)
    ∧ m_generations r'
      = <[Z.to_nat (EntityIndex id) := EntityGeneration id + 1]> (m_generations r)
    ∧ m_freeList r' = m_freeList r ++ [EntityIndex id]
    ∧ m_alive r' = erase_first id (m_alive r)
    ∧ strip_pools (EntityIndex id) (m_pools r) = Ok (m_pools r').
Proof.
  intros Hwf Halive.
  destruct (DestroyEntity_WF id r Hwf) as (r' & Hd & Hwf' & Hdead & _).
  destruct (DestroyEntity_alive_inv _ _ _ Halive Hd) as (Hstrip & Hg & Hf & Ha).
  exists r'. split_and!; try done.
  intros key j. destruct Hwf as (Hps & _ & _).
  destruct (strip_pools_WF (EntityIndex id) _ Hps) as (ps' & Hs & _ & Hrel).
  rewrite Hstrip in Hs. injection Hs as <-.
  rewrite !HasAt_true. apply Hrel.
Qed.

Lemma HasAt_bool_ext key key' j j' r r' :
  (HasAt key j r' = true ↔ HasAt key' j' r = true) →
  HasAt key j r' = HasAt key' j' r.
Proof. destruct (HasAt key j r'), (HasAt key' j' r); intuition congruence. Qed.

(** *** DestroyEntity *)

(** X11.  [DestroyEntity] on a live handle of a reachable registry
    succeeds; the handle is dead afterwards and owns no component of any
    type; its slot goes to the back of the free list.  Every other slot
    keeps its aliveness, its components and their values, although each
    pool moved its last component. *)
Theorem DestroyEntity_strips id r :
  reachable r → IsAlive id r = true →
  ∃ r', DestroyEntity id r = Ok r'
    ∧ IsAlive id r' = false
    ∧ (∀ key, HasComponent key id r' = false)
    ∧ m_freeList r' = m_freeList r ++ [EntityIndex id]
    ∧ (∀ h, EntityIndex h ≠ EntityIndex id →
         IsAlive h r' = IsAlive h r
         ∧ ∀ key, HasComponent key h r' = HasComponent key h r
                  ∧ ∀ c, GetComponent key h r = Ok (c, r) →
                         GetComponent key h r' = Ok (c, r')).
Proof.
  intros Hwf%reachable_RegWF Halive.
  destruct (DestroyEntity_live id r Hwf Halive)
    as (r' & Hd & Hwf' & Hdead & Hrel & Hg & Hf & _ & Hstrip).
  exists r'. split_and!; try done.
  - intros key. rewrite HasComponent_HasAt. apply not_true_iff_false.
    intros Hh%Hrel. by destruct Hh.
  - intros h Hne.
    assert (IsAlive h r' = IsAlive h r) as Hsame.
    { pose proof (EntityIndex_bound h). pose proof (EntityIndex_bound id).
      unfold IsAlive. rewrite Hg. unfold vsize.
      rewrite length_insert, list_lookup_insert_ne by lia. done. }
    split; [done|]. intros key. split.
    + rewrite !HasComponent_HasAt. apply HasAt_bool_ext. rewrite Hrel. tauto.
    + intros c (_ & Ha & p & Hp & Hh & Hget)%GetComponent_inv.
      pose proof (strip_pools_find _ _ _ Hstrip key) as Hfind.
      unfold PoolPtr in Hp. rewrite Hp in Hfind. destruct Hfind as (p' & Hrm & Hp').
      destruct Hwf as (Hps & _ & _).
      assert (WF p) as Hwfp by by eapply pool_find_WF.
      destruct (Remove_Get_WF _ _ _ Hwfp Hrm (EntityIndex h) Hne Hh) as [Hh' Hget'].
      apply (GetComponent_held key h r' p'); [congruence|done|done|congruence].
Qed.

(** *** AddComponent *)

Lemma AddComponent_fresh key id v r :
  RegWF r → IsAlive id r = true → HasComponent key id r = false →
  ∃ r', AddComponent key id v r = Ok r' ∧ RegWF r'
    ∧ GetComponent key id r' = Ok (v, r')
    ∧ (∀ key' j, HasAt key' j r' = true ↔
                 HasAt key' j r = true ∨ (key' = key ∧ j = EntityIndex id))
    ∧ m_generations r' = m_generations r
    ∧ m_freeList r' = m_freeList r
    ∧ m_alive r' = m_alive r
    ∧ (∀ key' h c, GetComponent key' h r = Ok (c, r) →
                   GetComponent key' h r' = Ok (c, r')).
Proof.
  intros Hwf Halive Hnot.
  assert (∃ r', AddComponent key id v r = Ok r') as [r' Hadd].
  { unfold AddComponent. rewrite Halive. simpl.
    destruct (Pool key r) as [p r1] eqn:HP.
    assert (p = (Pool key r).1) as Hp by by rewrite HP.
    destruct Hwf as (Hps & _ & _).
    assert (WF p) as Hwfp by (rewrite Hp; by apply Pool_fst_WF).
    destruct (Emplace_defined p (EntityIndex id) v Hwfp) as [p' ->].
    - pose proof (EntityIndex_bound id). unfold EMPTY. lia.
    - by rewrite Hp, Pool_fst_Has, <- HasComponent_HasAt.
    - simpl. eauto. }
  destruct (AddComponent_Ok _ _ _ _ _ Hwf Hadd) as (Hwf' & _ & _ & Hrel & Hg & Hf & Ha).
  destruct (AddComponent_pools _ _ _ _ _ Hadd) as (p' & He & Hptr).
  destruct Hwf as (Hps & _ & _).
  pose proof (Pool_fst_WF key r Hps) as Hwfp.
  destruct (Emplace_Get_WF _ _ _ _ Hwfp He) as (Hget & _ & Hfr).
  destruct (Emplace_Ok _ _ _ _ Hwfp He) as (_ & _ & _ & _ & _ & Hhas).
  exists r'. split_and!; try done.
  - apply (GetComponent_held key id r' p');
      [by rewrite (IsAlive_gens _ _ _ Hg)| |by apply Hhas; right|done].
    by rewrite Hptr, decide_True.
  - intros key' h c (_ & Hal & p & Hp & Hh & Hgc)%GetComponent_inv.
    rewrite <- (IsAlive_gens _ _ _ Hg) in Hal.
    destruct (decide (key' = key)) as [->|Hne].
    + assert (p = (Pool key r).1) as -> by (unfold Pool; by rewrite Hp).
      destruct (Hfr _ Hh) as [Hh' Hg'].
      apply (GetComponent_held key h r' p'); [done| |done|congruence].
      by rewrite Hptr, decide_True.
    + apply (GetComponent_held key' h r' p); [done| |done|done].
      by rewrite Hptr, decide_False.
Qed.

Lemma AddComponent_held key id v r :
  RegWF r → IsAlive id r = true → HasComponent key id r = true →
  AddComponent key id v r = Fault EmplaceOwned.
Proof.
  intros (Hps & _ & _) Halive Hh. unfold AddComponent. rewrite Halive. simpl.
  destruct (Pool key r) as [p r1] eqn:HP.
  assert (p = (Pool key r).1) as Hp by by rewrite HP.
  rewrite Emplace_owned_WF; [done| |].
  - rewrite Hp. by apply Pool_fst_WF.
  - by rewrite Hp, Pool_fst_Has, <- HasComponent_HasAt.
Qed.

(** X12.  On a reachable registry [AddComponent<T>(id)] has three
    outcomes: its aliveness assertion fails on a dead handle; the assertion
    of [Emplace] fails on a live handle that owns a [T]; otherwise it
    succeeds, and afterwards the entity owns a [T] and [GetComponent<T>]
    returns the value that was passed. *)
Theorem AddComponent_outcome key id v r :
  reachable r →
  (IsAlive id r = false → AddComponent key id v r = Fault EntityNotAlive)
  ∧ (IsAlive id r = true → HasComponent key id r = true →
       AddComponent key id v r = Fault EmplaceOwned)
  ∧ (IsAlive id r = true → HasComponent key id r = false →
       ∃ r', AddComponent key id v r = Ok r'
         ∧ HasComponent key id r' = true
         ∧ GetComponent key id r' = Ok (v, r')).
Proof.
  intros Hwf%reachable_RegWF. split_and!.
  - intros Hd. unfold AddComponent. by rewrite Hd.
  - by apply AddComponent_held.
  - intros Halive Hnot.
    destruct (AddComponent_fresh key id v r Hwf Halive Hnot)
      as (r' & Hadd & _ & Hget & Hrel & _).
    exists r'. split_and!; try done.
    rewrite HasComponent_HasAt. apply Hrel. by right.
Qed.

(** X13.  A successful [AddComponent<T>(id)] on a reachable registry
    changes nothing else: every handle keeps its aliveness, [Entities()]
    is the same, and every component that was there is still there with
    its value, in the pool of [T] too. *)
Theorem AddComponent_frame key id v r r' :
  reachable r → AddComponent key id v r = Ok r' →
  (∀ h, IsAlive h r' = IsAlive h r)
  ∧ Entities r' = Entities r
  ∧ m_freeList r' = m_freeList r
  ∧ (∀ key' h, key' ≠ key ∨ EntityIndex h ≠ EntityIndex id →
       HasComponent key' h r' = HasComponent key' h r)
  ∧ (∀ key' h c, GetComponent key' h r = Ok (c, r) →
       GetComponent key' h r' = Ok (c, r')).
Proof.
  intros Hwf%reachable_RegWF Hadd.
  destruct (AddComponent_Ok _ _ _ _ _ Hwf Hadd) as (_ & Halive & Hnot & _).
  rewrite <- HasComponent_HasAt in Hnot.
  destruct (AddComponent_fresh key id v r Hwf Halive Hnot)
    as (r2 & Hadd2 & _ & _ & Hrel & Hg & Hf & Ha & Hfr).
  rewrite Hadd in Hadd2. injection Hadd2 as <-.
  split_and!; try done.
  - intros h. by apply IsAlive_gens.
  - intros key' h Hne. rewrite !HasComponent_HasAt. apply HasAt_bool_ext.
    rewrite Hrel. intuition auto.
Qed.

(** *** RemoveComponent *)

Lemma RemoveComponent_pools key id r r' :
  RemoveComponent key id r = Ok r' →
  (∀ key', key' ≠ key → PoolPtr key' r' = PoolPtr key' r)
  ∧ match PoolPtr key r with
    | Some p => ∃ p', Remove p (EntityIndex id) = Ok p' ∧ PoolPtr key r' = Some p'
    | None => PoolPtr key r' = None
    end.
Proof.
  unfold RemoveComponent. destruct (PoolPtr key r) as [p|] eqn:Hp.
  - destruct (Remove p _) as [p'|] eqn:Hrm; [|done]. simpl. intros [= <-]. split.
    + intros key' Hne. rewrite PoolPtr_set_pool by by rewrite Hp.
      by rewrite decide_False.
    + exists p'. split; [done|]. rewrite PoolPtr_set_pool by by rewrite Hp.
      by rewrite decide_True.
  - intros [= <-]. by rewrite Hp.
Qed.

(** X14.  [RemoveComponent<T>(id)] never fails on a reachable registry and
    does not look at the generation of [id]: afterwards no handle of the
    slot of [id] owns a [T], a stale handle included.  Aliveness, the other
    component types and the other slots keep what they had, values
    included. *)
Theorem RemoveComponent_any_handle key id r :
  reachable r →
  ∃ r', RemoveComponent key id r = Ok r'
    ∧ (∀ h, EntityIndex h = EntityIndex id → HasComponent key h r' = false)
    ∧ (∀ h, IsAlive h r' = IsAlive h r)
    ∧ Entities r' = Entities r
    ∧ (∀ key' h, key' ≠ key ∨ EntityIndex h ≠ EntityIndex id →
         HasComponent key' h r' = HasComponent key' h r
         ∧ ∀ c, GetComponent key' h r = Ok (c, r) →
                GetComponent key' h r' = Ok (c, r')).
Proof.
  intros Hwf%reachable_RegWF.
  destruct (RemoveComponent_WF key id r Hwf) as (r' & Hrm & Hwf' & Hrel & Hg & Hf & Ha).
  destruct (RemoveComponent_pools _ _ _ _ Hrm) as [Hother Hthis].
  exists r'. split_and!; try done.
  - intros h Hh. rewrite HasComponent_HasAt. apply not_true_iff_false.
    intros [_ Hn]%Hrel. by apply Hn.
  - intros h. by apply IsAlive_gens.
  - intros key' h Hne. split.
    + rewrite !HasComponent_HasAt. apply HasAt_bool_ext. rewrite Hrel. intuition auto.
    + intros c (_ & Hal & p & Hp & Hh & Hgc)%GetComponent_inv.
      rewrite <- (IsAlive_gens _ _ _ Hg) in Hal.
      destruct (decide (key' = key)) as [->|Hk].
      * rewrite Hp in Hthis. destruct Hthis as (p' & Hrp & Hp').
        destruct Hwf as (Hps & _ & _).
        assert (WF p) as Hwfp by by eapply pool_find_WF.
        assert (EntityIndex h ≠ EntityIndex id) as Hidx by (by destruct Hne).
        destruct (Remove_Get_WF _ _ _ Hwfp Hrp _ Hidx Hh) as [Hh' Hg'].
        apply (GetComponent_held key h r' p'); [done|done|done|congruence].
      * apply (GetComponent_held key' h r' p); [done| |done|done].
        by rewrite Hother.
Qed.

(** *** GetComponent and GetOrAdd *)

Lemma GetComponent_live key id r :
  RegWF r → IsAlive id r = true → HasComponent key id r = true →
  ∃ c, GetComponent key id r = Ok (c, r).
Proof.
  intros (Hps & _ & _) Halive Hh. unfold HasComponent in Hh.
  destruct (PoolPtr key r) as [p|] eqn:Hp; [|done].
  assert (WF p) as Hwfp by by eapply pool_find_WF.
  destruct (Get_Has p _ Hwfp Hh) as [c Hc]. exists c.
  by apply (GetComponent_held key id r p).
Qed.

(** X15.  On a reachable registry [GetComponent<T>(id)] fails its first
    assertion on a dead handle and its second on a live handle without a
    [T]; on a live handle that owns a [T] it returns a component and leaves
    the registry as it was. *)
Theorem GetComponent_outcome key id r :
  reachable r →
  (IsAlive id r = false → GetComponent key id r = Fault EntityNotAlive)
  ∧ (IsAlive id r = true → HasComponent key id r = false →
       GetComponent key id r = Fault GetAbsent)
  ∧ (IsAlive id r = true → HasComponent key id r = true →
       ∃ c, GetComponent key id r = Ok (c, r)).
Proof.
  intros Hwf%reachable_RegWF. split_and!.
  - intros Hd. unfold GetComponent. by rewrite Hd.
  - intros Ha Hn. unfold GetComponent. by rewrite Ha, Hn.
  - by apply GetComponent_live.
Qed.

Lemma GetOrAdd_alive key dflt id r :
  RegWF r → IsAlive id r = true →
  ∃ c r', GetOrAdd key dflt id r = Ok (c, r') ∧ RegWF r'
    ∧ IsAlive id r' = true
    ∧ HasComponent key id r' = true
    ∧ GetComponent key id r' = Ok (c, r')
    ∧ (HasComponent key id r = true → r' = r)
    ∧ (HasComponent key id r = false →
         c = dflt ∧ AddComponent key id dflt r = Ok r').
Proof.
  intros Hwf Halive. unfold GetOrAdd. destruct (HasComponent key id r) eqn:Hh; simpl.
  - destruct (GetComponent_live key id r Hwf Halive Hh) as [c Hc].
    exists c, r. rewrite Hc. by split_and!.
  - destruct (AddComponent_fresh key id dflt r Hwf Halive Hh)
      as (r' & Hadd & Hwf' & Hget & Hrel & Hg & _).
    exists dflt, r'. rewrite Hadd. simpl. rewrite Hget. split_and!; try done.
    + by rewrite (IsAlive_gens _ _ _ Hg).
    + rewrite HasComponent_HasAt. apply Hrel. by right.
Qed.

(** X16.  [GetOrAdd<T>(id)] on a reachable registry: on a dead handle an
    aliveness assertion fails, whether or not the slot holds a [T]; on a
    live handle it succeeds, the entity owns a [T] afterwards, the value
    returned is the one [GetComponent<T>] returns; the registry is
    unchanged when the entity owned a [T] already, and the default value
    was added when it did not.  A second call returns the same. *)
Theorem GetOrAdd_outcome key dflt id r :
  reachable r →
  (IsAlive id r = false → GetOrAdd key dflt id r = Fault EntityNotAlive)
  ∧ (IsAlive id r = true →
       ∃ c r', GetOrAdd key dflt id r = Ok (c, r')
         ∧ HasComponent key id r' = true
         ∧ GetComponent key id r' = Ok (c, r')
         ∧ (HasComponent key id r = true → r' = r)
         ∧ (HasComponent key id r = false →
              c = dflt ∧ AddComponent key id dflt r = Ok r')
         ∧ GetOrAdd key dflt id r' = Ok (c, r')).
Proof.
  intros Hwf%reachable_RegWF. split.
  - intros Hd. unfold GetOrAdd, AddComponent, GetComponent.
    destruct (HasComponent key id r); simpl; by rewrite Hd.
  - intros Halive.
    destruct (GetOrAdd_alive key dflt id r Hwf Halive)
      as (c & r' & Hgo & Hwf' & Halive' & Hh' & Hget & Hsame & Hnew).
    exists c, r'. split_and!; try done.
    unfold GetOrAdd. by rewrite Hh'.
Qed.

(** *** Clear *)

(** X17.  After [Clear()] no handle is alive, no handle owns a component,
    [Entities()] is empty and every pool that existed still exists.  The
    generation table is emptied too: the next [CreateEntity] returns the
    handle 0 again, so a handle 0 kept from before the [Clear] is alive
    once more. *)
Theorem Clear_resets r :
  (∀ h, IsAlive h (Clear r) = false)
  ∧ (∀ key h, HasComponent key h (Clear r) = false)
  ∧ Entities (Clear r) = [] ∧ EntityCount (Clear r) = 0
  ∧ (∀ key, is_Some (PoolPtr key (Clear r)) ↔ is_Some (PoolPtr key r))
  ∧ ∃ r', CreateEntity (Clear r) = Ok (0, r') ∧ IsAlive 0 r' = true
          ∧ Entities r' = [0].
Proof.
  split_and!; try done.
  - intros h. unfold IsAlive, Clear. simpl. pose proof (EntityIndex_bound h).
    rewrite bool_decide_eq_false_2; [done|]. unfold vsize. simpl. lia.
  - intros key h. rewrite HasComponent_HasAt. apply Clear_WF.
  - intros key. unfold PoolPtr, Clear. simpl. rewrite pool_find_Clear.
    by rewrite fmap_is_Some.
  - eexists. split_and!; [reflexivity| |]; done.
Qed.

(** *** The pool table only grows *)

Lemma DestroyEntity_pools id r r' key :
  DestroyEntity id r = Ok r' → is_Some (PoolPtr key r) → is_Some (PoolPtr key r').
Proof.
  intros Hd Hs. destruct (IsAlive id r) eqn:Ha.
  - destruct (DestroyEntity_alive_inv _ _ _ Ha Hd) as (Hstrip & _).
    pose proof (strip_pools_find _ _ _ Hstrip key) as Hf.
    unfold PoolPtr in *. destruct Hs as [p Hp]. rewrite Hp in Hf.
    destruct Hf as (p' & _ & ->). eauto.
  - rewrite DestroyEntity_dead in Hd by done. by injection Hd as <-.
Qed.

Lemma exec_pools s : ∀ r ev r' key,
  exec s r = Ok (ev, r') → is_Some (PoolPtr key r) → is_Some (PoolPtr key r').
Proof.
  induction s as [|k IH|id k IH|key0 id v k IH|key0 id k IH|k IH|id k IH|key0 id k IH];
    intros r ev r' key Hex Hs; simpl in Hex.
  - by injection Hex as _ <-.
  - apply bind_Ok_inv in Hex as ([e r1] & Hc & Hex).
    apply exec_tail_Ok in Hex as (ev' & Hex & _).
    eapply IH; [done|]. apply CreateEntity_Ok_inv in Hc as (Hp & _).
    unfold PoolPtr. by rewrite Hp.
  - apply bind_Ok_inv in Hex as (r1 & Hd & Hex).
    apply exec_tail_Ok in Hex as (ev' & Hex & _).
    eapply IH; [done|]. by eapply DestroyEntity_pools.
  - apply bind_Ok_inv in Hex as (r1 & Ha & Hex).
    apply exec_tail_Ok in Hex as (ev' & Hex & _).
    apply AddComponent_pools in Ha as (p' & _ & Hptr).
    eapply IH; [done|]. rewrite Hptr. destruct (decide _); [eauto|done].
  - apply bind_Ok_inv in Hex as (r1 & Hrm & Hex).
    apply exec_tail_Ok in Hex as (ev' & Hex & _).
    apply RemoveComponent_pools in Hrm as [Ho Ht].
    eapply IH; [done|]. destruct (decide (key = key0)) as [->|Hne]; [|by rewrite Ho].
    destruct Hs as [p Hp]. rewrite Hp in Ht. destruct Ht as (p' & _ & ->). eauto.
  - apply exec_tail_Ok in Hex as (ev' & Hex & _).
    eapply IH; [done|]. unfold PoolPtr, Clear. simpl. rewrite pool_find_Clear.
    by apply fmap_is_Some.
  - by eapply IH.
  - by eapply IH.
Qed.

Lemma Each_loop_pools key0 fn key : ∀ idxList r ev r',
  Each_loop key0 fn idxList r = Ok (ev, r') →
  is_Some (PoolPtr key r) → is_Some (PoolPtr key r').
Proof.
  induction idxList as [|idx rest IH]; intros r ev r' H Hs; cbn [Each_loop] in H.
  - by injection H as _ <-.
  - destruct (decide (vsize (m_generations r) ≤ idx)); [by eapply IH|].
    apply bind_Ok_inv in H as (g & _ & H).
    apply bind_Ok_inv in H as (c & _ & H).
    apply bind_Ok_inv in H as ([ev1 r1] & Hex & H).
    apply bind_Ok_inv in H as ([ev2 r2] & Hloop & [= _ <-]).
    eapply IH; [done|]. by eapply exec_pools.
Qed.

Lemma View_loop_pools keys fn key : ∀ idxList r ev r',
  View_loop keys fn idxList r = Ok (ev, r') →
  is_Some (PoolPtr key r) → is_Some (PoolPtr key r').
Proof.
  induction idxList as [|idx rest IH]; intros r ev r' H Hs; cbn [View_loop] in H.
  - by injection H as _ <-.
  - destruct (negb (HasAllAt keys idx r)); [by eapply IH|].
    destruct (decide (vsize (m_generations r) ≤ idx)); [by eapply IH|].
    apply bind_Ok_inv in H as (g & _ & H).
    apply bind_Ok_inv in H as (c & _ & H).
    apply bind_Ok_inv in H as ([ev1 r1] & Hex & H).
    apply bind_Ok_inv in H as ([ev2 r2] & Hloop & [= _ <-]).
    eapply IH; [done|]. by eapply exec_pools.
Qed.

(** X18.  No operation erases a pool from [m_pools]: a pool that exists
    still exists after any sequence of calls of the public interface, after
    [Each] and after [View], whatever the callbacks do.  The pointer that
    [Each] and [View] take before their loop therefore stays valid. *)
Theorem pools_never_erased key r :
  is_Some (PoolPtr key r) →
  (∀ s ev r', exec s r = Ok (ev, r') → is_Some (PoolPtr key r'))
  ∧ (∀ key0 fn ev r', Each key0 fn r = Ok (ev, r') → is_Some (PoolPtr key r'))
  ∧ (∀ keys fn ev r', View keys fn r = Ok (ev, r') → is_Some (PoolPtr key r')).
Proof.
  intros Hs. split_and!.
  - intros s ev r' Hex. by eapply exec_pools.
  - intros key0 fn ev r'. unfold Each. destruct (PoolPtr key0 r) as [p|].
    + destruct (decide (Size p = 0)); [by intros [= _ <-]|].
      intros H. by eapply Each_loop_pools.
    + by intros [= _ <-].
  - intros keys fn ev r'. unfold View. destruct (FindSmallestPool keys r) as [k0|].
    + destruct (PoolPtr k0 r) as [p|]; [|by intros [= _ <-]].
      destruct (decide (Size p = 0)); [by intros [= _ <-]|].
      intros H. by eapply View_loop_pools.
    + by intros [= _ <-].
Qed.

(** *** Each *)

Lemma slot_handle_index key idx r :
  RegWF r → HasAt key idx r = true → EntityIndex (slot_handle r idx) = idx.
Proof.
  intros Hwf Hh. destruct (HasAt_slot _ _ _ Hwf Hh) as [Hb _].
  unfold slot_handle. rewrite EntityIndex_MakeEntity. apply Z.mod_small. lia.
Qed.

Lemma HasAllAt_true keys idx r :
  HasAllAt keys idx r = true ↔ ∀ k, k ∈ keys → HasAt k idx r = true.
Proof.
  unfold HasAllAt. induction keys as [|k keys IH]; simpl.
  - split; [|done]. by intros _ k ?%elem_of_nil.
  - rewrite andb_true_iff, IH. split.
    + intros [Hk Hr] k' [->|Hin]%elem_of_cons; auto.
    + intros H. split; [apply H; left|intros k' Hin; apply H; by right].
Qed.

Lemma owners_all k0 keys r (e : EntityId) :
  RegWF r →
  (∃ idx, HasAllAt (k0 :: keys) idx r = true ∧ e = slot_handle r idx)
  ↔ is_handle e ∧ IsAlive e r = true
    ∧ ∀ k, k ∈ k0 :: keys → HasComponent k e r = true.
Proof.
  intros Hwf. split.
  - intros (idx & Hall & ->). rewrite HasAllAt_true in Hall.
    assert (HasAt k0 idx r = true) as H0 by (apply Hall; left).
    destruct (owners_char k0 k0 r (slot_handle r idx) Hwf) as [Hc _].
    destruct Hc as (Hh & Ha & _); [by exists idx|].
    split_and!; try done. intros k Hk. rewrite HasComponent_HasAt.
    rewrite (slot_handle_index k0) by done. by apply Hall.
  - intros (Hh & Ha & Hall).
    destruct (owners_char k0 k0 r e Hwf) as [_ Hc].
    destruct Hc as (idx & H0 & _ & ->).
    { split_and!; try done; apply Hall; left. }
    exists idx. split; [|done]. apply HasAllAt_true. intros k Hk.
    specialize (Hall k Hk). rewrite HasComponent_HasAt in Hall.
    by rewrite (slot_handle_index k0) in Hall.
Qed.

Lemma slot_handle_NoDup key r (l : list Z) :
  RegWF r → NoDup l → (∀ j, j ∈ l → HasAt key j r = true) →
  NoDup (slot_handle r <$> l).
Proof.
  intros Hwf Hnd Hheld. apply NoDup_fmap_2_strong; [|done].
  intros x y Hx Hy Heq. apply (f_equal EntityIndex) in Heq.
  by rewrite !(slot_handle_index key) in Heq by auto.
Qed.

Lemma Each_loop_readonly key fn r :
  (∀ id cs, readonly (fn id cs)) → RegWF r → ∀ idxList,
  (∀ j, j ∈ idxList → HasAt key j r = true) →
  ∃ ev, Each_loop key fn idxList r = Ok (ev, r)
    ∧ View_loop [key] fn idxList r = Ok (ev, r)
    ∧ visited ev = slot_handle r <$> idxList.
Proof.
  intros Hro Hwf. induction idxList as [|idx rest IH]; intros Hheld; [by exists []|].
  assert (HasAt key idx r = true) as Hk by (apply Hheld; left).
  destruct IH as (ev & IH & IHv & Hvis). { intros j Hj. apply Hheld. by right. }
  destruct (HasAt_slot _ _ _ Hwf Hk) as [Hb (g & Hg & Hgb)].
  pose proof (lookup_lt_Some _ _ _ Hg) as Hlt.
  destruct (Pool_fst_Get _ _ _ Hwf Hk) as [c Hc].
  exists (Visited (MakeEntity idx g) :: ev). split_and!.
  - cbn [Each_loop]. rewrite decide_False by (unfold vsize; lia).
    rewrite (vec_at_ok _ _ g) by (lia || done). cbn [mbind result_bind].
    rewrite deref_Pool, Hc. cbn [mbind result_bind].
    rewrite exec_readonly by done. cbn [mbind result_bind]. rewrite IH. done.
  - cbn [View_loop]. unfold HasAllAt. simpl. rewrite Hk. simpl.
    rewrite decide_False by (unfold vsize; lia).
    rewrite (vec_at_ok _ _ g) by (lia || done). cbn [mbind result_bind].
    rewrite Hc. cbn [mbind result_bind].
    rewrite exec_readonly by done. cbn [mbind result_bind]. rewrite IHv. done.
  - simpl. rewrite Hvis. unfold slot_handle at 2. by rewrite Hg.
Qed.

Lemma owners_one key r (e : EntityId) :
  RegWF r →
  (∃ idx, HasAt key idx r = true ∧ e = slot_handle r idx)
  ↔ is_handle e ∧ IsAlive e r = true ∧ HasComponent key e r = true.
Proof.
  intros Hwf. pose proof (owners_char key key r e Hwf) as [H1 H2]. split.
  - intros (idx & H & ->). destruct H1 as (? & ? & ? & _); [by exists idx|done].
  - intros (Hh & Ha & Hc). destruct H2 as (idx & H & _ & ->); [done|by exists idx].
Qed.

Lemma FindSmallestPool_one key r p :
  RegWF r → PoolPtr key r = Some p → FindSmallestPool [key] r = Some key.
Proof.
  intros (Hps & _) Hp. unfold FindSmallestPool. simpl. rewrite Hp.
  assert (WF p) as Hwfp by by eapply pool_find_WF.
  pose proof Hwfp as (_ & Hcap & _). pose proof (WF_dense_le p Hwfp) as Hle.
  rewrite decide_True by (unfold Size, vsize, EMPTY in *; lia). done.
Qed.

(** X19.  [Each<T>] with a callback that only asks ([IsAlive],
    [HasComponent]) succeeds on a reachable registry and leaves it as it
    was; it invokes the callback once on every live handle that owns a [T]
    and on nothing else, in the order of the dense array of the pool. *)
Theorem Each_complete key fn r :
  reachable r → (∀ id cs, readonly (fn id cs)) →
  ∃ ev, Each key fn r = Ok (ev, r)
    ∧ NoDup (visited ev)
    ∧ (∀ e, e ∈ visited ev ↔
         is_handle e ∧ IsAlive e r = true ∧ HasComponent key e r = true)
    ∧ EntityIndex <$> visited ev = EntityIndices (deref key r).
Proof.
  intros Hwf%reachable_RegWF Hro. unfold Each, deref.
  destruct (PoolPtr key r) as [p|] eqn:Hp; simpl.
  2:{ exists []. split_and!; [done|constructor| |done].
      intros e. split; [by intros ?%elem_of_nil|].
      intros (_ & _ & Hh). unfold HasComponent in Hh. by rewrite Hp in Hh. }
  assert (WF p) as Hwfp by (eapply pool_find_WF; [apply Hwf|done]).
  assert (∀ j, j ∈ m_dense p ↔ HasAt key j r = true) as Hheld.
  { intros j. unfold HasAt. rewrite Hp. symmetry. by apply WF_Has_dense. }
  destruct (Each_loop_readonly key fn r Hro Hwf (m_dense p)) as (ev & Hev & _ & Hvis).
  { intros j. apply Hheld. }
  assert (∃ ev', (if decide (Size p = 0) then Ok ([], r)
                  else Each_loop key fn (EntityIndices p) r) = Ok (ev', r)
                 ∧ visited ev' = visited ev) as (ev' & -> & Hvis').
  { destruct (decide (Size p = 0)) as [Hz|]; [|by exists ev].
    exists []. split; [done|]. rewrite Hvis.
    unfold Size, vsize in Hz. destruct (m_dense p); [done|simpl in Hz; lia]. }
  exists ev'. split; [done|]. rewrite Hvis', Hvis. split_and!.
  - apply (slot_handle_NoDup key); [done|by apply WF_dense_NoDup|]. intros j. apply Hheld.
  - intros e. rewrite <- (owners_one key r e Hwf), list_elem_of_fmap. split.
    + intros (idx & -> & Hin). exists idx. split; [by apply Hheld|done].
    + intros (idx & Hh & ->). exists idx. split; [done|by apply Hheld].
  - unfold EntityIndices. rewrite <- list_fmap_compose.
    rewrite <- (list_fmap_id (m_dense p)) at 2. apply list_fmap_ext.
    intros i x Hx. simpl. apply (slot_handle_index key); [done|].
    apply Hheld. by eapply list_elem_of_lookup_2.
Qed.

(** X20.  For a callback that only asks, [View<T>] with the single type
    [T] is [Each<T>]: on a reachable registry the two return the same,
    callback invocations included. *)
Theorem View_single_is_Each key fn r :
  reachable r → (∀ id cs, readonly (fn id cs)) →
  View [key] fn r = Each key fn r.
Proof.
  intros Hwf%reachable_RegWF Hro. unfold View, Each.
  destruct (PoolPtr key r) as [p|] eqn:Hp.
  2:{ unfold FindSmallestPool. simpl. by rewrite Hp. }
  rewrite (FindSmallestPool_one key r p) by done. rewrite Hp.
  destruct (decide (Size p = 0)); [done|].
  assert (WF p) as Hwfp by (eapply pool_find_WF; [apply Hwf|done]).
  destruct (Each_loop_readonly key fn r Hro Hwf (m_dense p)) as (ev & Hev & Hv & _).
  { intros j Hj. unfold HasAt. rewrite Hp. by apply WF_Has_dense. }
  unfold EntityIndices. by rewrite Hev, Hv.
Qed.

(** *** FindSmallestPool and View *)

Lemma find_smallest_min keys r : ∀ res minSize,
  (∀ k, k ∈ keys → is_Some (PoolPtr k r)) →
  (find_smallest keys res minSize r = res
   ∧ ∀ k p, k ∈ keys → PoolPtr k r = Some p → minSize ≤ Size p)
  ∨ (∃ k0 p0, find_smallest keys res minSize r = Some k0 ∧ k0 ∈ keys
       ∧ PoolPtr k0 r = Some p0 ∧ Size p0 < minSize
       ∧ ∀ k p, k ∈ keys → PoolPtr k r = Some p → Size p0 ≤ Size p).
Proof.
  induction keys as [|k keys IH]; intros res minSize Hall; simpl.
  { left. split; [done|]. by intros k p ?%elem_of_nil. }
  destruct (Hall k) as [p Hp]; [left|]. rewrite Hp.
  assert (∀ k', k' ∈ keys → is_Some (PoolPtr k' r)) as Hall'.
  { intros k' Hin. apply Hall. by right. }
  destruct (decide (Size p < minSize)) as [Hlt|Hge].
  - right. destruct (IH (Some k) (Size p) Hall')
      as [[-> Hmin]|(k0 & p0 & -> & Hin & Hp0 & Hlt0 & Hmin)].
    + exists k, p. split_and!; [done|left|done|done|].
      intros k' p' [->|Hin]%elem_of_cons Hp'; [|by eapply Hmin].
      rewrite Hp in Hp'. injection Hp' as <-. lia.
    + exists k0, p0. split_and!; [done|by right|done|lia|].
      intros k' p' [->|Hin']%elem_of_cons Hp'; [|by eapply Hmin].
      rewrite Hp in Hp'. injection Hp' as <-. lia.
  - destruct (IH res minSize Hall')
      as [[-> Hmin]|(k0 & p0 & -> & Hin & Hp0 & Hlt0 & Hmin)].
    + left. split; [done|].
      intros k' p' [->|Hin]%elem_of_cons Hp'; [|by eapply Hmin].
      rewrite Hp in Hp'. injection Hp' as <-. lia.
    + right. exists k0, p0. split_and!; [done|by right|done|done|].
      intros k' p' [->|Hin']%elem_of_cons Hp'; [|by eapply Hmin].
      rewrite Hp in Hp'. injection Hp' as <-. lia.
Qed.

Lemma FindSmallestPool_min k keys r :
  RegWF r → (∀ k', k' ∈ k :: keys → is_Some (PoolPtr k' r)) →
  ∃ k0 p0, FindSmallestPool (k :: keys) r = Some k0 ∧ k0 ∈ k :: keys
    ∧ PoolPtr k0 r = Some p0
    ∧ ∀ k' p, k' ∈ k :: keys → PoolPtr k' r = Some p → Size p0 ≤ Size p.
Proof.
  intros (Hps & _) Hall. unfold FindSmallestPool.
  destruct (find_smallest_min (k :: keys) r None (2 ^ 64 - 1) Hall)
    as [[_ Hmin]|(k0 & p0 & Hf & Hin & Hp0 & _ & Hmin)].
  - destruct (Hall k) as [p Hp]; [left|].
    assert (WF p) as Hwfp by by eapply pool_find_WF.
    pose proof Hwfp as (_ & Hcap & _). pose proof (WF_dense_le p Hwfp) as Hle.
    specialize (Hmin k p ltac:(left) Hp). unfold Size, vsize, EMPTY in *. lia.
  - by exists k0, p0.
Qed.

(** X21.  When every type of the list has a pool, [FindSmallestPool]
    on a reachable registry returns a pool of the list, and no pool of the
    list has fewer components than the one it returns. *)
Theorem FindSmallestPool_minimal keys r :
  reachable r → keys ≠ [] → (∀ k, k ∈ keys → is_Some (PoolPtr k r)) →
  ∃ k0 p0, FindSmallestPool keys r = Some k0 ∧ k0 ∈ keys
    ∧ PoolPtr k0 r = Some p0
    ∧ ∀ k p, k ∈ keys → PoolPtr k r = Some p → Size p0 ≤ Size p.
Proof.
  intros Hwf%reachable_RegWF Hne Hall. destruct keys as [|k keys]; [done|].
  by apply FindSmallestPool_min.
Qed.

(** X22.  [View<Ts...>] with any non-empty list of types and a callback
    that only asks succeeds on a reachable registry and leaves it as it
    was; it invokes the callback once on every live handle that owns a
    component of every type of the list, and on nothing else. *)
Theorem View_complete keys fn r :
  reachable r → keys ≠ [] → (∀ id cs, readonly (fn id cs)) →
  ∃ ev, View keys fn r = Ok (ev, r)
    ∧ NoDup (visited ev)
    ∧ (∀ e, e ∈ visited ev ↔
         is_handle e ∧ IsAlive e r = true
         ∧ ∀ k, k ∈ keys → HasComponent k e r = true).
Proof.
  intros Hwf%reachable_RegWF Hne Hro. destruct keys as [|k keys]; [done|].
  destruct (decide (Forall (fun k' => is_Some (PoolPtr k' r)) (k :: keys))) as [Hall|Hmiss].
  2:{ apply not_Forall_Exists in Hmiss; [|apply _].
      apply Exists_exists in Hmiss as (km & Hin & Hnone). simpl in Hnone.
      assert (PoolPtr km r = None) as Hkm.
      { destruct (PoolPtr km r) eqn:E; [|done]. destruct Hnone. eauto. }
      exists []. unfold View, FindSmallestPool.
      rewrite (find_smallest_missing km) by done.
      split_and!; [done|constructor|]. intros e. split; [by intros ?%elem_of_nil|].
      intros (_ & _ & Hh). specialize (Hh km Hin). unfold HasComponent in Hh.
      by rewrite Hkm in Hh. }
  rewrite Forall_forall in Hall.
  destruct (FindSmallestPool_min k keys r Hwf Hall) as (k0 & p0 & Hf & Hin & Hp0 & _).
  assert (WF p0) as Hwf0 by (eapply pool_find_WF; [apply Hwf|done]).
  destruct (View_loop_readonly k keys fn r Hro Hwf (m_dense p0)) as (ev & Hev & Hvis).
  unfold View. rewrite Hf, Hp0.
  assert (∃ ev', (if decide (Size p0 = 0) then Ok ([], r)
                  else View_loop (k :: keys) fn (EntityIndices p0) r) = Ok (ev', r)
                 ∧ visited ev' = visited ev) as (ev' & -> & Hvis').
  { destruct (decide (Size p0 = 0)) as [Hz|]; [|by exists ev].
    exists []. split; [done|]. rewrite Hvis.
    unfold Size, vsize in Hz. destruct (m_dense p0); [done|simpl in Hz; lia]. }
  exists ev'. split; [done|]. rewrite Hvis', Hvis. split.
  - apply (slot_handle_NoDup k); [done|apply NoDup_filter; by apply WF_dense_NoDup|].
    intros j [Hj _]%list_elem_of_filter. rewrite HasAllAt_true in Hj. apply Hj. left.
  - intros e. rewrite <- (owners_all k keys r e Hwf), list_elem_of_fmap. split.
    + intros (idx & -> & [Hj _]%list_elem_of_filter). by exists idx.
    + intros (idx & Hj & ->). exists idx. split; [done|].
      apply list_elem_of_filter. split; [done|].
      apply WF_Has_dense; [done|]. rewrite HasAllAt_true in Hj.
      specialize (Hj k0 Hin). unfold HasAt in Hj. by rewrite Hp0 in Hj.
Qed.

(** *** CreateEntity and the free list *)

Lemma next_slot_lookup r :
  next_slot r < 2 ^ 20 → m_freeList r = [] →
  next_slot r = vsize (m_generations r) ∨ 2 ^ 32 ≤ vsize (m_generations r).
Proof.
  intros Hlt Hf. unfold next_slot in *. rewrite Hf in *. unfold u32 in *.
  destruct (decide (vsize (m_generations r) < 2 ^ 32)); [left|right; lia].
  apply Z.mod_small. unfold vsize in *. lia.
Qed.

Lemma CreateEntity_fresh_WF r :
  RegWF r → next_slot r < 2 ^ 20 →
  (∀ g, m_generations r !! Z.to_nat (next_slot r) = Some g → 0 ≤ g < 2 ^ 12) →
  ∃ e r', CreateEntity r = Ok (e, r') ∧ RegWF r'
    ∧ is_handle e ∧ IsAlive e r' = true
    ∧ EntityIndex e = next_slot r
    ∧ Entities r' = Entities r ++ [e]
    ∧ EntityCount r' = EntityCount r + 1
    ∧ (∀ h, IsAlive h r = true → IsAlive h r' = true)
    ∧ (∀ h, is_handle h → IsAlive h r' = true → IsAlive h r = true ∨ h = e)
    ∧ (∀ key h, HasComponent key h r' = HasComponent key h r)
    ∧ (m_freeList r ≠ [] → IsAlive e r = true).
Proof.
  intros Hwf Hslot Hgen.
  destruct (CreateEntity_WF r Hwf) as (e & r' & Hc & Hwf').
  destruct (CreateEntity_Ok_inv _ _ _ Hc)
    as (Hp & Ha & Hf & Hmono & Hsame & Hgrow & g & Hg & Hs0 & He).
  assert (0 ≤ g < 2 ^ 12) as Hgb.
  { destruct (m_freeList r) as [|i rest] eqn:Hfl.
    - rewrite Hgrow in Hg by done. apply lookup_app_Some in Hg as [Hg|[_ Hg]]; [by apply Hgen|].
      apply list_lookup_singleton_Some in Hg as [_ <-]. lia.
    - rewrite Hsame in Hg by done. by apply Hgen. }
  assert (EntityIndex e = next_slot r) as Hidx.
  { rewrite He, EntityIndex_MakeEntity. apply Z.mod_small. lia. }
  assert (EntityGeneration e = g) as Hge.
  { rewrite He, EntityGeneration_MakeEntity. apply Z.mod_small. lia. }
  assert (IsAlive e r' = true) as Halive.
  { apply IsAlive_true. by rewrite Hidx, Hge. }
  exists e, r'. split_and!; try done.
  - rewrite He. apply MakeEntity_is_handle.
  - unfold EntityCount, vsize. rewrite Ha, length_app. simpl. lia.
  - intros h Hh. apply IsAlive_true. apply IsAlive_true in Hh. by apply Hmono.
  - intros h Hh Hal. destruct (m_freeList r) as [|i rest] eqn:Hfl.
    + apply IsAlive_true in Hal. rewrite Hgrow in Hal by done.
      apply lookup_app_Some in Hal as [Hal|[Hlen Hal]]; [left; by apply IsAlive_true|].
      right. apply list_lookup_singleton_Some in Hal as [Hz Hg0].
      pose proof (EntityIndex_bound h).
      assert (EntityIndex h = vsize (m_generations r)) as Hih by (unfold vsize; lia).
      destruct (next_slot_lookup r Hslot Hfl) as [Hns|Hbig]; [|lia].
      rewrite Hgrow, Hns in Hg by done. unfold vsize in Hg.
      rewrite Nat2Z.id, lookup_app_r, Nat.sub_diag in Hg by lia.
      injection Hg as <-. rewrite He, Hns, <- Hih, Hg0. symmetry.
      by apply MakeEntity_eta.
    + left. rewrite <- Hal. symmetry. apply IsAlive_gens. by apply Hsame.
  - intros key h. unfold HasComponent, PoolPtr. by rewrite Hp.
  - intros Hne. apply IsAlive_true. rewrite Hidx, Hge. by rewrite <- (Hsame Hne).
Qed.

(** X23.  On a reachable registry whose next slot is below [2^20] and
    carries a generation below [2^12], [CreateEntity] returns a handle that
    is alive, names that slot and is appended to [Entities()].  Handles
    that were alive stay alive and no other handle becomes alive; no
    component changes hands.  A handle taken from the free list passed
    [IsAlive] already before the call. *)
Theorem CreateEntity_fresh r :
  reachable r → next_slot r < 2 ^ 20 →
  (∀ g, m_generations r !! Z.to_nat (next_slot r) = Some g → 0 ≤ g < 2 ^ 12) →
  ∃ e r', CreateEntity r = Ok (e, r')
    ∧ is_handle e ∧ IsAlive e r' = true
    ∧ EntityIndex e = next_slot r
    ∧ Entities r' = Entities r ++ [e]
    ∧ EntityCount r' = EntityCount r + 1
    ∧ (∀ h, IsAlive h r = true → IsAlive h r' = true)
    ∧ (∀ h, is_handle h → IsAlive h r' = true → IsAlive h r = true ∨ h = e)
    ∧ (∀ key h, HasComponent key h r' = HasComponent key h r)
    ∧ (m_freeList r ≠ [] → IsAlive e r = true).
Proof.
  intros Hwf%reachable_RegWF Hslot Hgen.
  destruct (CreateEntity_fresh_WF r Hwf Hslot Hgen) as (e & r' & Hc & _ & H).
  by exists e, r'.
Qed.

Lemma IsAlive_insert_ne (h : EntityId) (i : nat) (g : Z) r r' :
  m_generations r' = <[i := g]> (m_generations r) →
  Z.to_nat (EntityIndex h) ≠ i → IsAlive h r' = IsAlive h r.
Proof.
  intros Hg Hne. unfold IsAlive. rewrite Hg. unfold vsize.
  by rewrite length_insert, list_lookup_insert_ne.
Qed.

(** X24.  The free list is a queue.  On a reachable registry with an
    empty free list, destroying two live entities of different slots and
    then creating two entities gives the slot of the first one destroyed to
    the first one created and the slot of the second to the second, each
    with the generation after the one it had; the free list is empty
    again and the generation table has not grown. *)
Theorem free_list_fifo (a b : EntityId) r :
  reachable r → m_freeList r = [] →
  IsAlive a r = true → IsAlive b r = true → EntityIndex a ≠ EntityIndex b →
  ∃ r1 r2 x r3 y r4,
    DestroyEntity a r = Ok r1 ∧ DestroyEntity b r1 = Ok r2
    ∧ CreateEntity r2 = Ok (x, r3) ∧ CreateEntity r3 = Ok (y, r4)
    ∧ x = MakeEntity (EntityIndex a) (EntityGeneration a + 1)
    ∧ y = MakeEntity (EntityIndex b) (EntityGeneration b + 1)
    ∧ m_freeList r4 = []
    ∧ vsize (m_generations r4) = vsize (m_generations r).
Proof.
  intros Hwf%reachable_RegWF Hfl Ha Hb Hne.
  pose proof (EntityIndex_bound a) as Hia. pose proof (EntityIndex_bound b) as Hib.
  destruct (DestroyEntity_live a r Hwf Ha)
    as (r1 & Hd1 & Hwf1 & _ & _ & Hg1 & Hf1 & _).
  assert (IsAlive b r1 = true) as Hb1.
  { rewrite (IsAlive_insert_ne b _ _ r r1 Hg1); [done|lia]. }
  destruct (DestroyEntity_live b r1 Hwf1 Hb1)
    as (r2 & Hd2 & Hwf2 & _ & _ & Hg2 & Hf2 & _).
  rewrite Hfl in Hf1. simpl in Hf1. rewrite Hf1 in Hf2. simpl in Hf2.
  apply IsAlive_true in Ha as Hla. apply IsAlive_true in Hb as Hlb.
  pose proof (lookup_lt_Some _ _ _ Hla) as Hlta.
  pose proof (lookup_lt_Some _ _ _ Hlb) as Hltb.
  destruct (CreateEntity_WF r2 Hwf2) as (x & r3 & Hc3 & Hwf3).
  destruct (CreateEntity_Ok_inv _ _ _ Hc3)
    as (_ & _ & Hf3 & _ & Hsame3 & _ & g3 & Hgl3 & _ & Hx).
  rewrite Hf2 in Hf3. simpl in Hf3.
  rewrite Hsame3 in Hgl3 by by rewrite Hf2.
  assert (next_slot r2 = EntityIndex a) as Hn2 by (unfold next_slot; by rewrite Hf2).
  rewrite Hn2 in Hgl3, Hx.
  rewrite Hg2, list_lookup_insert_ne, Hg1, list_lookup_insert_eq in Hgl3 by lia.
  injection Hgl3 as <-.
  destruct (CreateEntity_WF r3 Hwf3) as (y & r4 & Hc4 & Hwf4).
  destruct (CreateEntity_Ok_inv _ _ _ Hc4)
    as (_ & _ & Hf4 & _ & Hsame4 & _ & g4 & Hgl4 & _ & Hy).
  rewrite Hf3 in Hf4. simpl in Hf4.
  rewrite Hsame4 in Hgl4 by by rewrite Hf3.
  assert (next_slot r3 = EntityIndex b) as Hn3 by (unfold next_slot; by rewrite Hf3).
  rewrite Hn3 in Hgl4, Hy.
  rewrite Hsame3, Hg2, list_lookup_insert_eq in Hgl4
    by (by rewrite ?Hf2 || (rewrite Hg1, length_insert; lia)).
  injection Hgl4 as <-.
  exists r1, r2, x, r3, y, r4. split_and!; try done.
  rewrite Hsame4, Hsame3, Hg2, Hg1 by (by rewrite ?Hf2, ?Hf3).
  unfold vsize. by rewrite !length_insert.
Qed.

End WithPayload.
End RegistryLaws.

(** ** Scripting/LuaLibraries/ECS.cpp *)

Module LuaLaws.
Import Pool PoolFacts Registry RegistryFacts RegistryLaws LuaECS.
Section WithPayload.
Context {T : Type}.
Context (PlayerKey TransformKey : TypeKey) (player_default transform_default : T).
Implicit Types (r : Registry T) (n m : Z).

Lemma toEntityId_handle (e : EntityId) : is_handle e → toEntityId e = e.
Proof. intros He. unfold toEntityId, u32, is_handle in *. by apply Z.mod_small. Qed.

(** X25.  [ecs.addPlayer(id)] never trips an assertion of the registry,
    whatever integer the script passes: on a handle that is not alive it
    changes nothing; on a live one the entity owns a [PlayerComponent] and
    a [TransformComponent] afterwards.  Calling it again changes
    nothing. *)
Theorem l_addPlayer_safe r n :
  reachable r →
  ∃ r', l_addPlayer PlayerKey TransformKey player_default transform_default
          (Some r) n = Ok (Some r')
    ∧ (l_isAlive (Some r) n = false → r' = r)
    ∧ (l_isAlive (Some r) n = true →
         l_hasPlayer PlayerKey (Some r') n = true
         ∧ HasComponent TransformKey (toEntityId n) r' = true)
    ∧ l_addPlayer PlayerKey TransformKey player_default transform_default
        (Some r') n = Ok (Some r').
Proof.
  intros Hwf%reachable_RegWF. unfold l_addPlayer, l_isAlive, l_hasPlayer.
  set (id := toEntityId n).
  destruct (IsAlive id r) eqn:Halive; simpl.
  2:{ exists r. rewrite Halive. simpl. by split_and!. }
  assert (∃ r1, (if negb (HasComponent PlayerKey id r)
                 then AddComponent PlayerKey id player_default r else Ok r) = Ok r1
            ∧ RegWF r1 ∧ IsAlive id r1 = true
            ∧ HasComponent PlayerKey id r1 = true) as (r1 & -> & Hwf1 & Ha1 & Hp1).
  { destruct (HasComponent PlayerKey id r) eqn:Hp; simpl; [by exists r|].
    destruct (AddComponent_fresh PlayerKey id player_default r Hwf Halive Hp)
      as (r1 & Hadd & Hwf1 & _ & Hrel & Hg & _).
    exists r1. split_and!; try done.
    - by rewrite (IsAlive_gens _ _ _ Hg).
    - rewrite HasComponent_HasAt. apply Hrel. by right. }
  simpl.
  destruct (GetOrAdd_alive TransformKey transform_default id r1 Hwf1 Ha1)
    as (c & r2 & Hgo & Hwf2 & Ha2 & Ht2 & Hget & Hsame & Hnew).
  assert (HasComponent PlayerKey id r2 = true) as Hp2.
  { destruct (HasComponent TransformKey id r1) eqn:Ht1.
    - by rewrite Hsame.
    - destruct Hnew as [_ Hadd]; [done|].
      destruct (AddComponent_Ok _ _ _ _ _ Hwf1 Hadd) as (_ & _ & _ & Hrel & _).
      rewrite HasComponent_HasAt. apply Hrel. left. by rewrite <- HasComponent_HasAt. }
  exists r2. rewrite Hgo. simpl. split_and!; try done.
  - intros _. by rewrite Ha2, Hp2.
  - rewrite Ha2, Hp2. simpl. unfold GetOrAdd. rewrite Ht2. simpl. by rewrite Hget.
Qed.

(** X26.  [ecs.removePlayer(id)] does not ask whether [id] is alive: it
    succeeds on a reachable registry for every integer, and afterwards
    [ecs.hasPlayer] is false for every handle of the same slot, so a stale
    handle takes the player link away from the entity that lives in the
    slot now.  What [ecs.isAlive] answers does not change. *)
Theorem l_removePlayer_any_handle r n :
  reachable r →
  ∃ r', l_removePlayer PlayerKey (Some r) n = Ok (Some r')
    ∧ (∀ m, EntityIndex (toEntityId m) = EntityIndex (toEntityId n) →
         l_hasPlayer PlayerKey (Some r') m = false)
    ∧ (∀ m, l_isAlive (Some r') m = l_isAlive (Some r) m).
Proof.
  intros Hwf%reachable_RegWF. unfold l_removePlayer, l_hasPlayer, l_isAlive.
  destruct (RemoveComponent_WF PlayerKey (toEntityId n) r Hwf)
    as (r' & -> & _ & Hrel & Hg & _).
  exists r'. simpl. split_and!; try done.
  - intros m Hm. apply andb_false_iff. right.
    rewrite HasComponent_HasAt. apply not_true_iff_false.
    intros [_ Hn]%Hrel. by apply Hn.
  - intros m. by apply IsAlive_gens.
Qed.

(** X27.  A handle survives the trip through a Lua integer.  On a
    reachable registry whose next slot is below [2^20] with a generation
    below [2^12], the integer that [ecs.create()] returns is alive for
    [ecs.isAlive]; after [ecs.destroy] of it, [ecs.isAlive] and
    [ecs.hasPlayer] are false for it. *)
Theorem l_create_destroy r :
  reachable r → next_slot r < 2 ^ 20 →
  (∀ g, m_generations r !! Z.to_nat (next_slot r) = Some g → 0 ≤ g < 2 ^ 12) →
  ∃ e r1 r2, l_create (Some r) = Ok (e, Some r1)
    ∧ l_isAlive (Some r1) e = true
    ∧ l_destroy (Some r1) e = Ok (Some r2)
    ∧ l_isAlive (Some r2) e = false
    ∧ l_hasPlayer PlayerKey (Some r2) e = false.
Proof.
  intros Hwf%reachable_RegWF Hslot Hgen.
  destruct (CreateEntity_fresh_WF r Hwf Hslot Hgen)
    as (e & r1 & Hc & Hwf1 & He & Halive & _).
  destruct (DestroyEntity_live e r1 Hwf1 Halive) as (r2 & Hd & _ & Hdead & _).
  exists e, r1, r2. unfold l_create, l_isAlive, l_destroy, l_hasPlayer.
  rewrite (toEntityId_handle e He), Hc, Hd, Halive, Hdead. done.
Qed.

End WithPayload.
End LuaLaws.

(** ** The further properties at work *)

Module LawsAtWork.
Import Pool PoolFacts PoolLaws Registry RegistryFacts RegistryLaws.
Import LuaECS LuaLaws Scenario ScenarioFacts.

Lemma packed_built : built packed.
Proof. exists pool_ops. vm_compute. reflexivity. Qed.

Lemma gone_reachable : reachable gone.
Proof.
  exists (CallCreateEntity (fun e => CallDestroyEntity e Return)). eexists.
  vm_compute. reflexivity.
Qed.

Lemma look_readonly : ∀ (id : EntityId) (cs : list unit), readonly (look id cs).
Proof. intros id cs. constructor. Qed.

Lemma handle_determined_by_fields_witness :
  MakeEntity (EntityIndex 1048577) (EntityGeneration 1048577) = 1048577
  ∧ (EntityIndex 1048577 = EntityIndex 1 →
     EntityGeneration 1048577 = EntityGeneration 1 → 1048577 = 1).
Proof. apply (handle_determined_by_fields 1048577 1); lia. Defined.

Lemma Emplace_then_Get_witness :
  Get grown 7 = Ok 13%nat
  ∧ Size grown = Size packed + 1
  ∧ (∀ j, Has packed j = true → Has grown j = true ∧ Get grown j = Get packed j).
Proof.
  apply (Emplace_then_Get packed 7 13%nat grown).
  - apply packed_built.
  - vm_compute. reflexivity.
Defined.

Lemma EntityIndices_owners_witness :
  NoDup (EntityIndices packed)
  ∧ (∀ j, j ∈ EntityIndices packed ↔ Has packed j = true)
  ∧ Size packed = vsize (EntityIndices packed)
  ∧ vsize (Components packed) = Size packed.
Proof. apply (EntityIndices_owners packed), packed_built. Defined.

Lemma Emplace_owned_witness : Emplace packed 5 9%nat = Fault EmplaceOwned.
Proof.
  apply (Emplace_owned packed 5 9%nat); [apply packed_built|].
  vm_compute. reflexivity.
Defined.

Lemma Get_held_witness :
  (Has packed 5 = true → ∃ c, Get packed 5 = Ok c ∧ c ∈ Components packed)
  ∧ (Has packed 5 = false → Get packed 5 = Fault GetAbsent).
Proof. apply (Get_held packed 5), packed_built. Defined.

Lemma Emplace_last_index_witness :
  Emplace packed 4294967295 9%nat = Fault OutOfBounds.
Proof. apply (Emplace_last_index packed 9%nat), packed_built. Defined.

Lemma Remove_keeps_others_witness :
  ∃ p', Remove packed 5 = Ok p'
    ∧ Has p' 5 = false
    ∧ Size p' = Size packed - 1
    ∧ (∀ j, j ≠ 5 → Has packed j = true →
         Has p' j = true ∧ Get p' j = Get packed j).
Proof.
  apply (Remove_keeps_others packed 5); [apply packed_built|].
  vm_compute. reflexivity.
Defined.

Lemma Emplace_then_Remove_witness :
  ∃ p2, Remove grown 7 = Ok p2
    ∧ EntityIndices p2 = EntityIndices packed
    ∧ Components p2 = Components packed
    ∧ (∀ j, Has p2 j = Has packed j)
    ∧ (length (m_sparse packed) ≤ length (m_sparse p2))%nat.
Proof.
  apply (Emplace_then_Remove packed 7 13%nat grown); [apply packed_built|].
  vm_compute. reflexivity.
Defined.

Lemma DestroyEntity_strips_witness :
  ∃ r', DestroyEntity 1 world = Ok r'
    ∧ IsAlive 1 r' = false
    ∧ (∀ key, HasComponent key 1 r' = false)
    ∧ m_freeList r' = m_freeList world ++ [EntityIndex 1]
    ∧ (∀ h, EntityIndex h ≠ EntityIndex 1 →
         IsAlive h r' = IsAlive h world
         ∧ ∀ key, HasComponent key h r' = HasComponent key h world
                  ∧ ∀ c, GetComponent key h world = Ok (c, world) →
                         GetComponent key h r' = Ok (c, r')).
Proof.
  apply (DestroyEntity_strips 1 world); [apply world_reachable|].
  vm_compute. reflexivity.
Defined.

Lemma AddComponent_outcome_witness :
  (IsAlive 1 world = false → AddComponent B 1 tt world = Fault EntityNotAlive)
  ∧ (IsAlive 1 world = true → HasComponent B 1 world = true →
       AddComponent B 1 tt world = Fault EmplaceOwned)
  ∧ (IsAlive 1 world = true → HasComponent B 1 world = false →
       ∃ r', AddComponent B 1 tt world = Ok r'
         ∧ HasComponent B 1 r' = true
         ∧ GetComponent B 1 r' = Ok (tt, r')).
Proof. apply (AddComponent_outcome B 1 tt world), world_reachable. Defined.

Lemma AddComponent_frame_witness :
  (∀ h, IsAlive h attached = IsAlive h world)
  ∧ Entities attached = Entities world
  ∧ m_freeList attached = m_freeList world
  ∧ (∀ key' h, key' ≠ B ∨ EntityIndex h ≠ EntityIndex 1 →
       HasComponent key' h attached = HasComponent key' h world)
  ∧ (∀ key' h c, GetComponent key' h world = Ok (c, world) →
       GetComponent key' h attached = Ok (c, attached)).
Proof.
  apply (AddComponent_frame B 1 tt world attached); [apply world_reachable|].
  vm_compute. reflexivity.
Defined.

(** The handle 0 is stale in [reused]; the entity in its slot is
    1048576. *)
Lemma RemoveComponent_any_handle_witness :
  IsAlive 0 reused = false ∧ HasComponent A 1048576 reused = true
  ∧ ∃ r', RemoveComponent A 0 reused = Ok r'
    ∧ (∀ h, EntityIndex h = EntityIndex 0 → HasComponent A h r' = false)
    ∧ (∀ h, IsAlive h r' = IsAlive h reused)
    ∧ Entities r' = Entities reused
    ∧ (∀ key' h, key' ≠ A ∨ EntityIndex h ≠ EntityIndex 0 →
         HasComponent key' h r' = HasComponent key' h reused
         ∧ ∀ c, GetComponent key' h reused = Ok (c, reused) →
                GetComponent key' h r' = Ok (c, r')).
Proof.
  split; [by vm_compute|]. split; [by vm_compute|].
  apply (RemoveComponent_any_handle A 0 reused), reused_reachable.
Defined.

Lemma GetComponent_outcome_witness :
  (IsAlive 1 world = false → GetComponent A 1 world = Fault EntityNotAlive)
  ∧ (IsAlive 1 world = true → HasComponent A 1 world = false →
       GetComponent A 1 world = Fault GetAbsent)
  ∧ (IsAlive 1 world = true → HasComponent A 1 world = true →
       ∃ c, GetComponent A 1 world = Ok (c, world)).
Proof. apply (GetComponent_outcome A 1 world), world_reachable. Defined.

Lemma GetOrAdd_outcome_witness :
  (IsAlive 1 world = false → GetOrAdd B tt 1 world = Fault EntityNotAlive)
  ∧ (IsAlive 1 world = true →
       ∃ c r', GetOrAdd B tt 1 world = Ok (c, r')
         ∧ HasComponent B 1 r' = true
         ∧ GetComponent B 1 r' = Ok (c, r')
         ∧ (HasComponent B 1 world = true → r' = world)
         ∧ (HasComponent B 1 world = false →
              c = tt ∧ AddComponent B 1 tt world = Ok r')
         ∧ GetOrAdd B tt 1 r' = Ok (c, r')).
Proof. apply (GetOrAdd_outcome B tt 1 world), world_reachable. Defined.

Lemma pools_never_erased_witness :
  (∀ s ev r', exec s world = Ok (ev, r') → is_Some (PoolPtr A r'))
  ∧ (∀ key0 fn ev r', Each key0 fn world = Ok (ev, r') → is_Some (PoolPtr A r'))
  ∧ (∀ keys fn ev r', View keys fn world = Ok (ev, r') → is_Some (PoolPtr A r')).
Proof. apply (pools_never_erased A world). eexists. vm_compute. reflexivity. Defined.

Lemma Each_complete_witness :
  ∃ ev, Each A look world = Ok (ev, world)
    ∧ NoDup (visited ev)
    ∧ (∀ e, e ∈ visited ev ↔
         is_handle e ∧ IsAlive e world = true ∧ HasComponent A e world = true)
    ∧ EntityIndex <$> visited ev = EntityIndices (deref A world).
Proof. apply (Each_complete A look world); [apply world_reachable|apply look_readonly]. Defined.

Lemma View_single_is_Each_witness : View [A] look world = Each A look world.
Proof.
  apply (View_single_is_Each A look world); [apply world_reachable|apply look_readonly].
Defined.

Lemma FindSmallestPool_minimal_witness :
  ∃ k0 p0, FindSmallestPool [A; B] world = Some k0 ∧ k0 ∈ [A; B]
    ∧ PoolPtr k0 world = Some p0
    ∧ ∀ k p, k ∈ [A; B] → PoolPtr k world = Some p → Size p0 ≤ Size p.
Proof.
  apply (FindSmallestPool_minimal [A; B] world); [apply world_reachable|done|].
  intros k [->|[->|[]%elem_of_nil]%elem_of_cons]%elem_of_cons;
    eexists; vm_compute; reflexivity.
Defined.

Lemma View_complete_witness :
  ∃ ev, View [B; A] look world = Ok (ev, world)
    ∧ NoDup (visited ev)
    ∧ (∀ e, e ∈ visited ev ↔
         is_handle e ∧ IsAlive e world = true
         ∧ ∀ k, k ∈ [B; A] → HasComponent k e world = true).
Proof.
  apply (View_complete [B; A] look world);
    [apply world_reachable|done|apply look_readonly].
Defined.

(** In [gone] the next slot comes from the free list. *)
Lemma CreateEntity_fresh_witness :
  ∃ e r', CreateEntity gone = Ok (e, r')
    ∧ is_handle e ∧ IsAlive e r' = true
    ∧ EntityIndex e = next_slot gone
    ∧ Entities r' = Entities gone ++ [e]
    ∧ EntityCount r' = EntityCount gone + 1
    ∧ (∀ h, IsAlive h gone = true → IsAlive h r' = true)
    ∧ (∀ h, is_handle h → IsAlive h r' = true → IsAlive h gone = true ∨ h = e)
    ∧ (∀ key h, HasComponent key h r' = HasComponent key h gone)
    ∧ (m_freeList gone ≠ [] → IsAlive e gone = true).
Proof.
  apply (CreateEntity_fresh gone); [apply gone_reachable|by vm_compute|].
  intros g H. vm_compute in H. injection H as <-. lia.
Defined.

Lemma free_list_fifo_witness :
  ∃ r1 r2 x r3 y r4,
    DestroyEntity 0 world = Ok r1 ∧ DestroyEntity 2 r1 = Ok r2
    ∧ CreateEntity r2 = Ok (x, r3) ∧ CreateEntity r3 = Ok (y, r4)
    ∧ x = MakeEntity (EntityIndex 0) (EntityGeneration 0 + 1)
    ∧ y = MakeEntity (EntityIndex 2) (EntityGeneration 2 + 1)
    ∧ m_freeList r4 = []
    ∧ vsize (m_generations r4) = vsize (m_generations world).
Proof.
  apply (free_list_fifo 0 2 world);
    [apply world_reachable|reflexivity|by vm_compute|by vm_compute|by vm_compute].
Defined.

(** [A] in the place of [PlayerComponent], [B] in the place of
    [TransformComponent]. *)
Lemma l_addPlayer_safe_witness :
  ∃ r', l_addPlayer A B tt tt (Some world) 1 = Ok (Some r')
    ∧ (l_isAlive (Some world) 1 = false → r' = world)
    ∧ (l_isAlive (Some world) 1 = true →
         l_hasPlayer A (Some r') 1 = true
         ∧ HasComponent B (toEntityId 1) r' = true)
    ∧ l_addPlayer A B tt tt (Some r') 1 = Ok (Some r').
Proof. apply (l_addPlayer_safe A B tt tt world 1), world_reachable. Defined.

Lemma l_removePlayer_any_handle_witness :
  l_isAlive (Some reused) 0 = false ∧ l_hasPlayer A (Some reused) 1048576 = true
  ∧ ∃ r', l_removePlayer A (Some reused) 0 = Ok (Some r')
    ∧ (∀ m, EntityIndex (toEntityId m) = EntityIndex (toEntityId 0) →
         l_hasPlayer A (Some r') m = false)
    ∧ (∀ m, l_isAlive (Some r') m = l_isAlive (Some reused) m).
Proof.
  split; [by vm_compute|]. split; [by vm_compute|].
  apply (l_removePlayer_any_handle A reused 0), reused_reachable.
Defined.

Lemma l_create_destroy_witness :
  ∃ e r1 r2, l_create (Some world) = Ok (e, Some r1)
    ∧ l_isAlive (Some r1) e = true
    ∧ l_destroy (Some r1) e = Ok (Some r2)
    ∧ l_isAlive (Some r2) e = false
    ∧ l_hasPlayer A (Some r2) e = false.
Proof.
  apply (l_create_destroy A world); [apply world_reachable|by vm_compute|].
  intros g H. vm_compute in H. discriminate H.
Defined.

End LawsAtWork.
